(** * cJSON value-tree parser and printer (ppb-cli/vendor/cJSON.c)

    A shallow embedding of the vendored cJSON core: the node record, the
    allocator, the recursive-descent parser, deletion, the container
    operations and number printing, followed by the properties of the
    specification that they decide.

    Conventions.
    - A [char] is a [Z] in [0, 256); the input text is a [list Z], the region
      of memory that starts at the pointer handed to the parser.  A
      [const char *] into it is [option nat]: [None] is [NULL], [Some p] the
      offset [p].  Reading at or past the end of the region is undefined
      behaviour in C and the fault [OverRead] here.
    - The heap holds the blocks obtained from [cJSON_malloc]: nodes and
      character buffers.  A node pointer or [char *] into the heap is
      [option addr].
    - A [double] is an IEEE-754 binary64 value, [spec_float] with
      [prec = 53] and [emax = 1024]; the operations are the ones of
      [SpecFloat].  libm's [pow] and libc's [sprintf ("%f")] are parameters.
    - Undefined behaviour of the C program (over-read, buffer overflow, signed
      overflow, out-of-range conversion, invalid free, dangling pointer) is a
      [Fault] outcome, kept apart from a [NULL] result. *)

From Stdlib Require Import ZArith List Bool Lia String Ascii DecimalString DecimalPos.
From Stdlib Require Import SpecFloat.
From stdpp Require Import base gmap list fin_maps.

Local Open Scope Z_scope.

(** ** Characters and text *)

Definition byte_of_ascii (a : ascii) : Z := Z.of_N (N_of_ascii a).

Fixpoint bytes_of_string (s : String.string) : list Z :=
  match s with
  | EmptyString => []
  | String a s' => byte_of_ascii a :: bytes_of_string s'
  end.

(** A C string literal: its characters followed by the terminating NUL. *)
Definition cstring (s : String.string) : list Z := bytes_of_string s ++ [0].

Definition ch_quote : Z := 34.      (* the double quote *)
Definition ch_backslash : Z := 92.  (* the backslash *)
Definition ch_minus : Z := 45.
Definition ch_plus : Z := 43.
Definition ch_dot : Z := 46.
Definition ch_comma : Z := 44.
Definition ch_colon : Z := 58.
Definition ch_lbracket : Z := 91.
Definition ch_rbracket : Z := 93.
Definition ch_lbrace : Z := 123.
Definition ch_rbrace : Z := 125.
Definition ch_0 : Z := 48.
Definition ch_1 : Z := 49.
Definition ch_9 : Z := 57.

(** ** Machine integers *)

Definition INT_MIN : Z := - 2 ^ 31.
Definition INT_MAX : Z := 2 ^ 31 - 1.
Definition in_int_range (z : Z) : bool := (INT_MIN <=? z) && (z <=? INT_MAX).

(** ** Doubles *)

Definition double : Type := spec_float.
Definition dprec : Z := 53.
Definition demax : Z := 1024.

Definition dmul : double -> double -> double := SFmul dprec demax.
Definition dadd : double -> double -> double := SFadd dprec demax.
Definition dsub : double -> double -> double := SFsub dprec demax.
Definition dabs : double -> double := SFabs.
Definition dleb : double -> double -> bool := SFleb.
Definition dltb : double -> double -> bool := SFltb.

(** [(double) z] for an [int] [z]: exact, every [int] is representable. *)
Definition double_of_int (z : Z) : double := binary_normalize dprec demax z 0 false.

(** [(int) x]: truncation toward zero; undefined when the truncated value is
    not representable in [int] (C11 6.3.1.4), and for infinities and NaN. *)
Definition double_to_int (x : double) : option Z :=
  match x with
  | S754_zero _ => Some 0
  | S754_finite s m e =>
      let t := Z.shiftl (Z.pos m) e in
      let v := if s then - t else t in
      if in_int_range v then Some v else None
  | S754_infinity _ | S754_nan => None
  end.

Definition d_zero : double := S754_zero false.
Definition d_ten : double := double_of_int 10.
(** [DBL_EPSILON] is 2^-52. *)
Definition DBL_EPSILON : double := S754_finite false 4503599627370496 (-104).
(** The binary64 literal [1.0e60]. *)
Definition d_1e60 : double := S754_finite false 5605193857299268 147.

(** ** Nodes, blocks and the heap *)

Definition addr : Type := positive.
Definition ptr : Type := option addr.
Definition cptr : Type := option nat.

Definition cJSON_Invalid : Z := 0.
Definition cJSON_False : Z := 1.
Definition cJSON_True : Z := 2.
Definition cJSON_NULL : Z := 4.
Definition cJSON_Number : Z := 8.
Definition cJSON_String : Z := 16.
Definition cJSON_Array : Z := 32.
Definition cJSON_Object : Z := 64.
Definition cJSON_Raw : Z := 128.
Definition cJSON_IsReference : Z := 256.
Definition cJSON_StringIsConst : Z := 512.
Definition CJSON_NESTING_LIMIT : Z := 1000.

Record cJSON : Type := mkJSON {
  next : ptr;
  prev : ptr;
  child : ptr;
  type : Z;
  valuestring : ptr;
  valueint : Z;
  valuedouble : double;
  string : ptr
}.

(** [memset (node, 0, sizeof (cJSON))] *)
Definition zero_node : cJSON :=
  mkJSON None None None 0 None 0 d_zero None.

Definition set_next (v : ptr) (c : cJSON) : cJSON :=
  mkJSON v (prev c) (child c) (type c) (valuestring c) (valueint c) (valuedouble c) (string c).
Definition set_prev (v : ptr) (c : cJSON) : cJSON :=
  mkJSON (next c) v (child c) (type c) (valuestring c) (valueint c) (valuedouble c) (string c).
Definition set_child (v : ptr) (c : cJSON) : cJSON :=
  mkJSON (next c) (prev c) v (type c) (valuestring c) (valueint c) (valuedouble c) (string c).
Definition set_type (v : Z) (c : cJSON) : cJSON :=
  mkJSON (next c) (prev c) (child c) v (valuestring c) (valueint c) (valuedouble c) (string c).
Definition set_valuestring (v : ptr) (c : cJSON) : cJSON :=
  mkJSON (next c) (prev c) (child c) (type c) v (valueint c) (valuedouble c) (string c).
Definition set_valueint (v : Z) (c : cJSON) : cJSON :=
  mkJSON (next c) (prev c) (child c) (type c) (valuestring c) v (valuedouble c) (string c).
Definition set_valuedouble (v : double) (c : cJSON) : cJSON :=
  mkJSON (next c) (prev c) (child c) (type c) (valuestring c) (valueint c) v (string c).
Definition set_string (v : ptr) (c : cJSON) : cJSON :=
  mkJSON (next c) (prev c) (child c) (type c) (valuestring c) (valueint c) (valuedouble c) v.

(** A block of the heap: a node, a character buffer of [cap] bytes whose
    first bytes are [chars] (a terminating NUL follows them), or an array of
    [n] pointers (the [entries] of the printer). *)
Inductive block : Type :=
| Node (c : cJSON)
| Chars (cap : Z) (chars : list Z)
| Ptrs (n : Z).

Record state : Type := mkState {
  heap : gmap addr block;
  ep : cptr;              (* static const char *ep *)
  oracle : list bool      (* outcome of the coming calls of malloc *)
}.

Inductive fault : Type :=
| OverRead | BufferOverflow | IntOverflow | BadCast
| InvalidFree | BadPointer | OutOfFuel.

Inductive outcome (A : Type) : Type :=
| Ok (a : A) (s : state)
| Fault (f : fault).
Arguments Ok {A} a s.
Arguments Fault {A} f.

(** ** The state-and-fault monad *)

Definition M (A : Type) : Type := state -> outcome A.

Definition ret {A} (a : A) : M A := fun s => Ok a s.
Definition bind {A B} (m : M A) (k : A -> M B) : M B :=
  fun s => match m s with
           | Ok a s' => k a s'
           | Fault f => Fault f
           end.
Definition raise {A} (f : fault) : M A := fun _ => Fault f.

Notation "x <- m ;; k" := (bind m (fun x => k))
  (at level 100, m at next level, right associativity).
Notation "m ;;; k" := (bind m (fun _ => k))
  (at level 100, right associativity).

Definition get_heap : M (gmap addr block) := fun s => Ok (heap s) s.
Definition put_heap (h : gmap addr block) : M unit :=
  fun s => Ok tt (mkState h (ep s) (oracle s)).
Definition set_ep (p : cptr) : M unit :=
  fun s => Ok tt (mkState (heap s) p (oracle s)).

(** [cJSON_malloc]: the oracle decides whether the call succeeds; a
    successful call returns an address that is not in use. *)
Definition cJSON_malloc (b : block) : M ptr :=
  fun s =>
    match oracle s with
    | false :: o => Ok None (mkState (heap s) (ep s) o)
    | _ =>
        let a := fresh (dom (heap s)) in
        Ok (Some a) (mkState (<[a := b]> (heap s)) (ep s) (tail (oracle s)))
    end.

(** [cJSON_free]: releasing an address that is not allocated is undefined. *)
Definition cJSON_free (a : addr) : M unit :=
  fun s =>
    match heap s !! a with
    | Some _ => Ok tt (mkState (delete a (heap s)) (ep s) (oracle s))
    | None => Fault InvalidFree
    end.

(** Reading and writing a node through a pointer. *)
Definition load (a : addr) : M cJSON :=
  fun s =>
    match heap s !! a with
    | Some (Node c) => Ok c s
    | _ => Fault BadPointer
    end.

Definition store (a : addr) (c : cJSON) : M unit :=
  fun s =>
    match heap s !! a with
    | Some (Node _) => Ok tt (mkState (<[a := Node c]> (heap s)) (ep s) (oracle s))
    | _ => Fault BadPointer
    end.

Definition modify (a : addr) (f : cJSON -> cJSON) : M unit :=
  c <- load a ;; store a (f c).

(** Filling a character buffer obtained from [cJSON_malloc]. *)
Definition store_chars (a : addr) (chars : list Z) : M unit :=
  fun s =>
    match heap s !! a with
    | Some (Chars cap _) =>
        Ok tt (mkState (<[a := Chars cap chars]> (heap s)) (ep s) (oracle s))
    | _ => Fault BadPointer
    end.

Definition cJSON_New_Item : M ptr := cJSON_malloc (Node zero_node).

(** ** Deletion *)

Definition is_reference (c : cJSON) : bool :=
  negb (Z.land (type c) cJSON_IsReference =? 0).

(** [cJSON_Delete]: the loop over [c = next] together with the recursive call
    on [c->child]; [fuel] bounds the number of nodes visited on one path. *)
Fixpoint cJSON_Delete_fuel (fuel : nat) (c : ptr) : M unit :=
  match c with
  | None => ret tt
  | Some a =>
      match fuel with
      | O => raise OutOfFuel
      | S fuel' =>
          n <- load a ;;
          let nxt := next n in
          (if negb (is_reference n) && bool_decide (child n <> None)
           then cJSON_Delete_fuel fuel' (child n) else ret tt) ;;;
          n <- load a ;;
          (if negb (is_reference n)
           then match valuestring n with
                | Some v => cJSON_free v
                | None => ret tt
                end
           else ret tt) ;;;
          n <- load a ;;
          match string n with
          | Some k => cJSON_free k
          | None => ret tt
          end ;;;
          cJSON_free a ;;;
          cJSON_Delete_fuel fuel' nxt
      end
  end.

Definition cJSON_Delete (c : ptr) : M unit :=
  fun s => cJSON_Delete_fuel (S (size (heap s))) c s.

(** ** The parser *)

Section Parser.

(** libm's [pow]. *)
Variable pow : double -> double -> double.
(** The memory that starts at the pointer given to the parser. *)
Variable mem : list Z.

(** [*p] *)
Definition peek (p : nat) : M Z :=
  match mem !! p with
  | Some c => ret c
  | None => raise OverRead
  end.

(** [int] arithmetic: a result out of range is undefined. *)
Definition int_chk (z : Z) : M Z :=
  if in_int_range z then ret z else raise IntOverflow.

(** [while (in && *in && (unsigned char)*in <= 32) in++;]
    [l] is the text from [in] on. *)
Fixpoint skip_loop (l : list Z) (p : nat) : M nat :=
  match l with
  | [] => raise OverRead
  | c :: l' => if negb (c =? 0) && (c <=? 32) then skip_loop l' (S p) else ret p
  end.

Definition skip (in_ : cptr) : M cptr :=
  match in_ with
  | None => ret None
  | Some p => p' <- skip_loop (drop p mem) p ;; ret (Some p')
  end.

Definition is_digit (c : Z) : bool := (ch_0 <=? c) && (c <=? ch_9).

(** The digit loops of [parse_number]:
    [while ( *num >= '0' && *num <= '9') { n = n * 10.0 + ( *num - '0'); (scale--;) num++; }]
    [frac] tells the loop of the fraction, which also decrements [scale]. *)
Fixpoint number_digits (frac : bool) (l : list Z) (num : nat) (n : double) (scale : Z)
  : M (double * Z * nat) :=
  match l with
  | [] => raise OverRead
  | c :: l' =>
      if is_digit c then
        let n' := dadd (dmul n d_ten) (double_of_int (c - ch_0)) in
        scale' <- (if frac then int_chk (scale - 1) else ret scale) ;;
        number_digits frac l' (S num) n' scale'
      else ret (n, scale, num)
  end.

(** [while ( *num >= '0' && *num <= '9') { subscale = subscale * 10 + ( *num - '0'); num++; }] *)
Fixpoint exponent_digits (l : list Z) (num : nat) (subscale : Z) : M (Z * nat) :=
  match l with
  | [] => raise OverRead
  | c :: l' =>
      if is_digit c then
        t <- int_chk (subscale * 10) ;;
        subscale' <- int_chk (t + (c - ch_0)) ;;
        exponent_digits l' (S num) subscale'
      else ret (subscale, num)
  end.

Definition parse_number (item : addr) (num : nat) : M cptr :=
  c <- peek num ;;
  let sign := if c =? ch_minus then -1 else 1 in
  let num := if c =? ch_minus then S num else num in
  c <- peek num ;;
  let num := if c =? ch_0 then S num else num in
  c <- peek num ;;
  r <- (if (ch_1 <=? c) && (c <=? ch_9)
        then number_digits false (drop num mem) num d_zero 0
        else ret (d_zero, 0, num)) ;;
  let '(n, scale, num) := r in
  c <- peek num ;;
  r <- (if c =? ch_dot
        then number_digits true (drop (S num) mem) (S num) n scale
        else ret (n, scale, num)) ;;
  let '(n, scale, num) := r in
  c <- peek num ;;
  r <- (if (c =? 101) || (c =? 69)
        then
          c <- peek (S num) ;;
          let signsubscale := if c =? ch_plus then 1 else if c =? ch_minus then -1 else 1 in
          let num := if (c =? ch_plus) || (c =? ch_minus) then S (S num) else S num in
          r <- exponent_digits (drop num mem) num 0 ;;
          ret (fst r, signsubscale, snd r)
        else ret (0, 1, num)) ;;
  let '(subscale, signsubscale, num) := r in
  t <- int_chk (subscale * signsubscale) ;;
  e <- int_chk (scale + t) ;;
  let n := dmul (dmul (double_of_int sign) n) (pow d_ten (double_of_int e)) in
  modify item (set_valuedouble n) ;;;
  match double_to_int n with
  | None => raise BadCast
  | Some i =>
      modify item (set_valueint i) ;;;
      modify item (set_type cJSON_Number) ;;;
      ret (Some num)
  end.

(** One hexadecimal digit of [parse_hex4]. *)
Definition hex_digit (c : Z) : option Z :=
  if (48 <=? c) && (c <=? 57) then Some (c - 48)
  else if (65 <=? c) && (c <=? 70) then Some (c - 65 + 10)
  else if (97 <=? c) && (c <=? 102) then Some (c - 97 + 10)
  else None.

(** [for (i = 0; i < 4; i++) ...]: [k] digits remain, [out] is [*out]. *)
Fixpoint parse_hex4_loop (k : nat) (p : nat) (out : Z) : M (option (nat * Z)) :=
  match k with
  | O => ret (Some (p, out))
  | S k' =>
      c <- peek p ;;
      let out := Z.shiftl out 4 mod 2 ^ 32 in
      match hex_digit c with
      | Some d => parse_hex4_loop k' (S p) (Z.lor out d)
      | None => ret None
      end
  end.

Definition parse_hex4 (str : nat) : M (option (nat * Z)) :=
  parse_hex4_loop 4 str 0.

(** The first loop of [parse_string], which measures the buffer:
    [while ( *ptr != QUOTE && *ptr) { if ( *ptr++ == '\\') ptr++; len++; }]
    Returns the final [ptr], [*ptr] and [len]. *)
Fixpoint string_measure (l : list Z) (p : nat) (len : Z) : M (nat * Z * Z) :=
  match l with
  | [] => raise OverRead
  | c :: l' =>
      if negb (c =? ch_quote) && negb (c =? 0) then
        len' <- int_chk (len + 1) ;;
        if c =? ch_backslash then
          match l' with
          | [] => string_measure l' (S (S p)) len'
          | _ :: l'' => string_measure l'' (S (S p)) len'
          end
        else string_measure l' (S p) len'
      else ret (p, c, len)
  end.

(** A write of [bs] at [ptr2], the end of the [done] bytes already written to
    a buffer of [cap] bytes. *)
Definition emit (cap : Z) (done bs : list Z) : M (list Z) :=
  if Z.of_nat (length done + length bs) <=? cap then ret (done ++ bs)
  else raise BufferOverflow.

(** The UTF-8 encoding written by the inner [switch (len)] of [parse_string]. *)
Definition utf8_len (uc : Z) : Z :=
  if uc <? 128 then 1 else if uc <? 2048 then 2 else if uc <? 65536 then 3 else 4.

Definition cont_byte (uc : Z) : Z := Z.land (Z.land (Z.lor uc 128) 191) 255.

Definition first_byte_mark (len : Z) : Z :=
  if len =? 1 then 0 else if len =? 2 then 192 else if len =? 3 then 224 else 240.

Definition utf8_bytes (uc : Z) : list Z :=
  let len := utf8_len uc in
  if len =? 4 then
    [Z.land (Z.lor (Z.shiftr uc 18) (first_byte_mark len)) 255;
     cont_byte (Z.shiftr uc 12); cont_byte (Z.shiftr uc 6); cont_byte uc]
  else if len =? 3 then
    [Z.land (Z.lor (Z.shiftr uc 12) (first_byte_mark len)) 255;
     cont_byte (Z.shiftr uc 6); cont_byte uc]
  else if len =? 2 then
    [Z.land (Z.lor (Z.shiftr uc 6) (first_byte_mark len)) 255; cont_byte uc]
  else [Z.land (Z.lor uc (first_byte_mark len)) 255].

(** The [case 'u'] of [parse_string], entered with [ptr] on the [u]: the
    code point and the pointer after its digits, or [None] where the code
    frees the buffer and returns [NULL]. *)
Definition parse_unicode (ptr : nat) : M (option (nat * Z)) :=
  r <- parse_hex4 (S ptr) ;;
  match r with
  | None => ret None
  | Some (ptr, uc) =>
      if (56320 <=? uc) && (uc <=? 57343) then ret None
      else if (55296 <=? uc) && (uc <=? 56319) then
        c0 <- peek ptr ;;
        if negb (c0 =? ch_backslash) then ret None
        else
          c1 <- peek (S ptr) ;;
          if negb (c1 =? 117) then ret None
          else
            r2 <- parse_hex4 (S (S ptr)) ;;
            match r2 with
            | None => ret None
            | Some (ptr, uc2) =>
                ret (Some (ptr,
                           (65536 + Z.lor (Z.shiftl (Z.land uc 1023) 10) (Z.land uc2 1023))
                             mod 2 ^ 32))
            end
      else ret (Some (ptr, uc))
  end.

(** The second loop of [parse_string], which decodes into the buffer:
    [while ( *ptr != QUOTE && *ptr) { ... }].  Returns the final [ptr] and the
    bytes written, or [None] where the code frees the buffer and returns
    [NULL]. *)
Fixpoint string_decode (fuel : nat) (cap : Z) (ptr : nat) (done : list Z)
  : M (option (nat * list Z)) :=
  match fuel with
  | O => raise OutOfFuel
  | S fuel' =>
      c <- peek ptr ;;
      if negb (c =? ch_quote) && negb (c =? 0) then
        if negb (c =? ch_backslash) then
          done' <- emit cap done [c] ;;
          string_decode fuel' cap (S ptr) done'
        else
          let ptr := S ptr in
          e <- peek ptr ;;
          if e =? 98 then
            done' <- emit cap done [8] ;; string_decode fuel' cap (S ptr) done'
          else if e =? 102 then
            done' <- emit cap done [12] ;; string_decode fuel' cap (S ptr) done'
          else if e =? 110 then
            done' <- emit cap done [10] ;; string_decode fuel' cap (S ptr) done'
          else if e =? 114 then
            done' <- emit cap done [13] ;; string_decode fuel' cap (S ptr) done'
          else if e =? 116 then
            done' <- emit cap done [9] ;; string_decode fuel' cap (S ptr) done'
          else if e =? 117 then
            r <- parse_unicode ptr ;;
            match r with
            | None => ret None
            | Some (ptr, uc) =>
                done' <- emit cap done (utf8_bytes uc) ;;
                string_decode fuel' cap (S ptr) done'
            end
          else
            done' <- emit cap done [e] ;; string_decode fuel' cap (S ptr) done'
      else ret (Some (ptr, done))
  end.

Definition parse_string (item : addr) (str : nat) : M cptr :=
  c <- peek str ;;
  if negb (c =? ch_quote) then set_ep (Some str) ;;; ret None
  else
    r <- string_measure (drop (S str) mem) (S str) 0 ;;
    let '(_, c, len) := r in
    if c =? 0 then set_ep (Some str) ;;; ret None
    else
      cap <- int_chk (len + 1) ;;
      out <- cJSON_malloc (Chars cap []) ;;
      match out with
      | None => ret None
      | Some out =>
          r <- string_decode (S (length mem)) cap (S str) [] ;;
          match r with
          | None => cJSON_free out ;;; ret None
          | Some (ptr, chars) =>
              _ <- emit cap chars [0] ;;
              store_chars out chars ;;;
              c <- peek ptr ;;
              let ptr := if c =? ch_quote then S ptr else ptr in
              modify item (set_type cJSON_String) ;;;
              modify item (set_valuestring (Some out)) ;;;
              ret (Some ptr)
          end
      end.

(** [!strncmp (value, lit, n)] for a literal [lit] of [n] characters, none of
    them NUL: the comparison stops at the first difference. *)
Fixpoint match_lit (lit : list Z) (p : nat) : M bool :=
  match lit with
  | [] => ret true
  | x :: lit' => c <- peek p ;; if c =? x then match_lit lit' (S p) else ret false
  end.

(** A dereference of a [const char *] that the code does not test. *)
Definition deref (value : cptr) : M nat :=
  match value with
  | Some v => ret v
  | None => raise BadPointer
  end.

Section Descent.

(** The recursive call of [parse_value]. *)
Variable parse_value : addr -> cptr -> M cptr.

(** [while ( *value == ',') { ... }] of [parse_array]; [None] where the loop
    returns [NULL], otherwise the pointer at which the loop ends. *)
Fixpoint parse_array_loop (n : nat) (child : addr) (value : nat) : M cptr :=
  match n with
  | O => raise OutOfFuel
  | S n' =>
      c <- peek value ;;
      if c =? ch_comma then
        new_item <- cJSON_New_Item ;;
        match new_item with
        | None => ret None
        | Some new_item =>
            modify child (set_next (Some new_item)) ;;;
            modify new_item (set_prev (Some child)) ;;;
            v <- skip (Some (S value)) ;;
            v <- parse_value new_item v ;;
            v <- skip v ;;
            match v with
            | None => ret None
            | Some v => parse_array_loop n' new_item v
            end
        end
      else ret (Some value)
  end.

Definition parse_array (item : addr) (value : nat) : M cptr :=
  c <- peek value ;;
  if negb (c =? ch_lbracket) then set_ep (Some value) ;;; ret None
  else
    modify item (set_type cJSON_Array) ;;;
    v <- skip (Some (S value)) ;;
    value <- deref v ;;
    c <- peek value ;;
    if c =? ch_rbracket then ret (Some (S value))
    else
      ch <- cJSON_New_Item ;;
      modify item (set_child ch) ;;;
      match ch with
      | None => ret None
      | Some ch =>
          v <- skip (Some value) ;;
          v <- parse_value ch v ;;
          v <- skip v ;;
          match v with
          | None => ret None
          | Some value =>
              r <- parse_array_loop (S (length mem)) ch value ;;
              match r with
              | None => ret None
              | Some value =>
                  c <- peek value ;;
                  if c =? ch_rbracket then ret (Some (S value))
                  else set_ep (Some value) ;;; ret None
              end
          end
      end.

(** The member that [parse_object] reads, once before its loop and once in
    each round of it: the key by [parse_string], moved from [valuestring] to
    [string], the colon, the value.  [None] where the code returns [NULL]. *)
Definition parse_member (child : addr) (value : nat) : M cptr :=
  v <- skip (Some value) ;;
  str <- deref v ;;
  v <- parse_string child str ;;
  v <- skip v ;;
  match v with
  | None => ret None
  | Some value =>
      c <- load child ;;
      store child (set_string (valuestring c) c) ;;;
      modify child (set_valuestring None) ;;;
      c <- peek value ;;
      if negb (c =? ch_colon) then set_ep (Some value) ;;; ret None
      else
        v <- skip (Some (S value)) ;;
        v <- parse_value child v ;;
        skip v
  end.

(** [while ( *value == ',') { ... }] of [parse_object]. *)
Fixpoint parse_object_loop (n : nat) (child : addr) (value : nat) : M cptr :=
  match n with
  | O => raise OutOfFuel
  | S n' =>
      c <- peek value ;;
      if c =? ch_comma then
        new_item <- cJSON_New_Item ;;
        match new_item with
        | None => ret None
        | Some new_item =>
            modify child (set_next (Some new_item)) ;;;
            modify new_item (set_prev (Some child)) ;;;
            v <- parse_member new_item (S value) ;;
            match v with
            | None => ret None
            | Some v => parse_object_loop n' new_item v
            end
        end
      else ret (Some value)
  end.

Definition parse_object (item : addr) (value : nat) : M cptr :=
  c <- peek value ;;
  if negb (c =? ch_lbrace) then set_ep (Some value) ;;; ret None
  else
    modify item (set_type cJSON_Object) ;;;
    v <- skip (Some (S value)) ;;
    value <- deref v ;;
    c <- peek value ;;
    if c =? ch_rbrace then ret (Some (S value))
    else
      ch <- cJSON_New_Item ;;
      modify item (set_child ch) ;;;
      match ch with
      | None => ret None
      | Some ch =>
          v <- parse_member ch value ;;
          match v with
          | None => ret None
          | Some value =>
              r <- parse_object_loop (S (length mem)) ch value ;;
              match r with
              | None => ret None
              | Some value =>
                  c <- peek value ;;
                  if c =? ch_rbrace then ret (Some (S value))
                  else set_ep (Some value) ;;; ret None
              end
          end
      end.

End Descent.

Definition lit_null : list Z := [110; 117; 108; 108].
Definition lit_false : list Z := [102; 97; 108; 115; 101].
Definition lit_true : list Z := [116; 114; 117; 101].

(** [parse_value]; [fuel] bounds the depth of the recursion through
    [parse_array] and [parse_object]. *)
Fixpoint parse_value (fuel : nat) (item : addr) (value : cptr) : M cptr :=
  match fuel with
  | O => raise OutOfFuel
  | S fuel' =>
      match value with
      | None => ret None
      | Some v =>
          b <- match_lit lit_null v ;;
          if b then modify item (set_type cJSON_NULL) ;;; ret (Some (v + 4)%nat)
          else
          b <- match_lit lit_false v ;;
          if b then modify item (set_type cJSON_False) ;;; ret (Some (v + 5)%nat)
          else
          b <- match_lit lit_true v ;;
          if b then
            modify item (set_type cJSON_True) ;;;
            modify item (set_valueint 1) ;;;
            ret (Some (v + 4)%nat)
          else
          c <- peek v ;;
          if c =? ch_quote then parse_string item v
          else if (c =? ch_minus) || is_digit c then parse_number item v
          else if c =? ch_lbracket then parse_array (parse_value fuel') item v
          else if c =? ch_lbrace then parse_object (parse_value fuel') item v
          else set_ep (Some v) ;;; ret None
      end
  end.

(** [strlen] *)
Fixpoint strlen_loop (l : list Z) (n : Z) : M Z :=
  match l with
  | [] => raise OverRead
  | c :: l' => if c =? 0 then ret n else strlen_loop l' (n + 1)
  end.

Definition cJSON_ParseWithLength (value : cptr) (buffer_length : Z) : M ptr :=
  match value with
  | None => ret None
  | Some _ =>
      if buffer_length =? 0 then ret None
      else
        c <- cJSON_New_Item ;;
        match c with
        | None => ret None
        | Some c =>
            set_ep None ;;;
            v <- skip value ;;
            end_ <- parse_value (S (length mem)) c v ;;
            match end_ with
            | None => cJSON_Delete (Some c) ;;; ret None
            | Some _ => ret (Some c)
            end
        end
  end.

Definition cJSON_Parse (value : cptr) : M ptr :=
  len <- match value with
         | Some p => strlen_loop (drop p mem) 0
         | None => ret 0
         end ;;
  cJSON_ParseWithLength value len.

End Parser.

Definition empty_state : state := mkState ∅ None [].

(** ** Creation, containers, detaching *)

(** [cJSON_strdup] of a caller's string, given by its characters ([None] is
    [NULL]). *)
Definition cJSON_strdup (src : option (list Z)) : M ptr :=
  match src with
  | None => ret None
  | Some chars => cJSON_malloc (Chars (Z.of_nat (length chars) + 1) chars)
  end.

Definition create (f : cJSON -> cJSON) : M ptr :=
  item <- cJSON_New_Item ;;
  match item with
  | None => ret None
  | Some a => modify a f ;;; ret (Some a)
  end.

Definition cJSON_CreateNull : M ptr := create (set_type cJSON_NULL).
Definition cJSON_CreateTrue : M ptr := create (set_type cJSON_True).
Definition cJSON_CreateFalse : M ptr := create (set_type cJSON_False).
Definition cJSON_CreateBool (b : Z) : M ptr :=
  create (set_type (if b =? 0 then cJSON_False else cJSON_True)).
Definition cJSON_CreateArray : M ptr := create (set_type cJSON_Array).
Definition cJSON_CreateObject : M ptr := create (set_type cJSON_Object).

Definition cJSON_CreateNumber (num : double) : M ptr :=
  item <- cJSON_New_Item ;;
  match item with
  | None => ret None
  | Some a =>
      modify a (set_type cJSON_Number) ;;;
      modify a (set_valuedouble num) ;;;
      match double_to_int num with
      | None => raise BadCast
      | Some i => modify a (set_valueint i) ;;; ret (Some a)
      end
  end.

Definition cJSON_CreateString (str : option (list Z)) : M ptr :=
  item <- cJSON_New_Item ;;
  match item with
  | None => ret None
  | Some a =>
      modify a (set_type cJSON_String) ;;;
      v <- cJSON_strdup str ;;
      modify a (set_valuestring v) ;;;
      ret (Some a)
  end.

(** [while (c && c->next) c = c->next;] *)
Fixpoint last_sibling (fuel : nat) (c : addr) : M addr :=
  match fuel with
  | O => raise OutOfFuel
  | S fuel' =>
      n <- load c ;;
      match next n with
      | Some c' => last_sibling fuel' c'
      | None => ret c
      end
  end.

Definition cJSON_AddItemToArray (array item : addr) : M unit :=
  a <- load array ;;
  match child a with
  | None => modify array (set_child (Some item))
  | Some c =>
      h <- get_heap ;;
      c <- last_sibling (S (size h)) c ;;
      modify c (set_next (Some item)) ;;;
      modify item (set_prev (Some c))
  end.

Definition cJSON_AddItemToObject (object : addr) (str : option (list Z)) (item : addr)
  : M unit :=
  k <- cJSON_strdup str ;;
  modify item (set_string k) ;;;
  cJSON_AddItemToArray object item.

(** The key is the caller's pointer [str] itself. *)
Definition cJSON_AddItemToObjectCS (object : addr) (str : ptr) (item : addr) : M unit :=
  modify item (set_string str) ;;;
  modify item (fun c => set_type (Z.lor (type c) cJSON_StringIsConst) c) ;;;
  cJSON_AddItemToArray object item.

(** [while (c && which > 0) c = c->next, which--;] *)
Fixpoint nth_sibling (fuel : nat) (c : ptr) (which : Z) : M ptr :=
  match c with
  | None => ret None
  | Some a =>
      if 0 <? which then
        match fuel with
        | O => raise OutOfFuel
        | S fuel' => n <- load a ;; nth_sibling fuel' (next n) (which - 1)
        end
      else ret c
  end.

Definition cJSON_GetArrayItem (array : ptr) (item : Z) : M ptr :=
  match array with
  | None => ret None
  | Some a =>
      n <- load a ;;
      h <- get_heap ;;
      nth_sibling (S (size h)) (child n) item
  end.

Definition cJSON_DetachItemFromArray (array : ptr) (which : Z) : M ptr :=
  match array with
  | None => ret None
  | Some array =>
      a <- load array ;;
      h <- get_heap ;;
      c <- nth_sibling (S (size h)) (child a) which ;;
      match c with
      | None => ret None
      | Some c =>
          n <- load c ;;
          match prev n with
          | Some p => modify p (set_next (next n))
          | None => ret tt
          end ;;;
          n <- load c ;;
          match next n with
          | Some x => modify x (set_prev (prev n))
          | None => ret tt
          end ;;;
          a <- load array ;;
          n <- load c ;;
          (if bool_decide (child a = Some c)
           then modify array (set_child (next n)) else ret tt) ;;;
          modify c (set_next None) ;;;
          modify c (set_prev None) ;;;
          ret (Some c)
      end
  end.

Definition cJSON_DeleteItemFromArray (array : ptr) (which : Z) : M unit :=
  c <- cJSON_DetachItemFromArray array which ;;
  match c with
  | Some _ => cJSON_Delete c
  | None => ret tt
  end.

(** ** Accessors *)

(** The C string held in a buffer: its characters up to the first NUL. *)
Fixpoint cstr (chars : list Z) : list Z :=
  match chars with
  | [] => []
  | c :: l => if c =? 0 then [] else c :: cstr l
  end.

(** Reading a [char *] of the heap as a C string; [NULL] stays [None]. *)
Definition load_cstr (p : ptr) : M (option (list Z)) :=
  match p with
  | None => ret None
  | Some a =>
      fun s =>
        match heap s !! a with
        | Some (Chars _ chars) => Ok (Some (cstr chars)) s
        | _ => Fault BadPointer
        end
  end.

(** [while (c) size++, c = c->next;] *)
Fixpoint count_siblings (fuel : nat) (c : ptr) (size : Z) : M Z :=
  match c with
  | None => ret size
  | Some a =>
      match fuel with
      | O => raise OutOfFuel
      | S fuel' =>
          size' <- int_chk (size + 1) ;;
          n <- load a ;;
          count_siblings fuel' (next n) size'
      end
  end.

Definition cJSON_GetArraySize (array : ptr) : M Z :=
  match array with
  | None => ret 0
  | Some a =>
      n <- load a ;;
      h <- get_heap ;;
      count_siblings (S (size h)) (child n) 0
  end.

Definition tolower (c : Z) : Z := if (65 <=? c) && (c <=? 90) then c + 32 else c.

(** The loop of [cJSON_strcasecmp] on two C strings; the end of a list is
    the NUL of the string. *)
Fixpoint strcasecmp_loop (s1 s2 : list Z) : Z :=
  match s1, s2 with
  | [], [] => 0
  | [], c2 :: _ => tolower 0 - tolower c2
  | c1 :: _, [] => tolower c1 - tolower 0
  | c1 :: l1, c2 :: l2 =>
      if tolower c1 =? tolower c2 then strcasecmp_loop l1 l2
      else tolower c1 - tolower c2
  end.

Definition cJSON_strcasecmp (s1 s2 : option (list Z)) : Z :=
  match s1, s2 with
  | None, None => 0
  | None, Some _ => 1
  | Some _, None => 1
  | Some l1, Some l2 => strcasecmp_loop l1 l2
  end.

(** libc's [strcmp] on two C strings: the difference at the first position
    where they differ. *)
Fixpoint strcmp (s1 s2 : list Z) : Z :=
  match s1, s2 with
  | [], [] => 0
  | [], c2 :: _ => 0 - c2
  | c1 :: _, [] => c1
  | c1 :: l1, c2 :: l2 => if c1 =? c2 then strcmp l1 l2 else c1 - c2
  end.

(** [while (c && cJSON_strcasecmp (c->string, string)) c = c->next;] *)
Fixpoint find_member (fuel : nat) (c : ptr) (str : option (list Z)) : M ptr :=
  match c with
  | None => ret None
  | Some a =>
      match fuel with
      | O => raise OutOfFuel
      | S fuel' =>
          n <- load a ;;
          k <- load_cstr (string n) ;;
          if cJSON_strcasecmp k str =? 0 then ret c
          else find_member fuel' (next n) str
      end
  end.

Definition cJSON_GetObjectItem (object : ptr) (str : option (list Z)) : M ptr :=
  match object with
  | None => ret None
  | Some a =>
      n <- load a ;;
      h <- get_heap ;;
      find_member (S (size h)) (child n) str
  end.

(** [while (c && strcmp (c->string, string)) c = c->next;]
    [strcmp] on a [NULL] argument is undefined. *)
Fixpoint find_member_cs (fuel : nat) (c : ptr) (str : option (list Z)) : M ptr :=
  match c with
  | None => ret None
  | Some a =>
      match fuel with
      | O => raise OutOfFuel
      | S fuel' =>
          n <- load a ;;
          k <- load_cstr (string n) ;;
          match k, str with
          | Some k, Some str' =>
              if strcmp k str' =? 0 then ret c
              else find_member_cs fuel' (next n) str
          | _, _ => raise BadPointer
          end
      end
  end.

Definition cJSON_GetObjectItemCaseSensitive (object : ptr) (str : option (list Z)) : M ptr :=
  match object with
  | None => ret None
  | Some a =>
      n <- load a ;;
      h <- get_heap ;;
      find_member_cs (S (size h)) (child n) str
  end.

(** [item && (item->type & 0xFF) == kind] *)
Definition is_kind (kind : Z) (item : ptr) : M bool :=
  match item with
  | None => ret false
  | Some a => n <- load a ;; ret (Z.land (type n) 255 =? kind)
  end.

Definition cJSON_IsString : ptr -> M bool := is_kind cJSON_String.
Definition cJSON_IsNumber : ptr -> M bool := is_kind cJSON_Number.
Definition cJSON_IsObject : ptr -> M bool := is_kind cJSON_Object.
Definition cJSON_IsArray : ptr -> M bool := is_kind cJSON_Array.

(** ** Printing *)

Section Printer.

(** libc's [sprintf (out, "%f", d)]: the characters it writes. *)
Variable sprintf_f : double -> list Z.

(** [sprintf (out, "%d", i)] *)
Definition sprintf_d (i : Z) : list Z :=
  bytes_of_string (NilZero.string_of_int (Z.to_int i)).

(** Filling a buffer [out] of [cap] bytes with [chars] and the NUL. *)
Definition fill (out : addr) (cap : Z) (chars : list Z) : M unit :=
  _ <- emit cap chars [0] ;; store_chars out chars.

(** [out = malloc (cap); if (out) strcpy (out, chars);] *)
Definition alloc_text (cap : Z) (chars : list Z) : M ptr :=
  out <- cJSON_malloc (Chars cap []) ;;
  match out with
  | None => ret None
  | Some o => fill o cap chars ;;; ret (Some o)
  end.

(** [strlen] of a buffer of the heap. *)
Definition text_of (p : ptr) : M (list Z) :=
  t <- load_cstr p ;;
  match t with
  | Some chars => ret chars
  | None => raise BadPointer
  end.

Definition needs_escape (c : Z) : bool := (c <? 32) || (c =? 34) || (c =? 92).

Fixpoint escaped_len (l : list Z) : Z :=
  match l with
  | [] => 0
  | c :: l' => (if needs_escape c then 2 else 1) + escaped_len l'
  end.

Definition hex_char (d : Z) : Z := if d <? 10 then 48 + d else 87 + d.

(** The second loop of [print_string_ptr]; [done] is what is written so
    far.  In the [default] case [sprintf] writes five characters and a NUL,
    and [ptr2] moves by five. *)
Fixpoint print_string_loop (cap : Z) (l : list Z) (done : list Z) : M (list Z) :=
  match l with
  | [] => ret done
  | c :: l' =>
      if needs_escape c then
        done <- emit cap done [ch_backslash] ;;
        done <- (if c =? 92 then emit cap done [92]
                 else if c =? 34 then emit cap done [34]
                 else if c =? 8 then emit cap done [98]
                 else if c =? 12 then emit cap done [102]
                 else if c =? 10 then emit cap done [110]
                 else if c =? 13 then emit cap done [114]
                 else if c =? 9 then emit cap done [116]
                 else
                   let u := [117; 48; 48; hex_char (c / 16); hex_char (c mod 16)] in
                   _ <- emit cap done (u ++ [0]) ;; ret (done ++ u)) ;;
        print_string_loop cap l' done
      else
        done <- emit cap done [c] ;;
        print_string_loop cap l' done
  end.

Definition print_string_ptr (str : ptr) : M ptr :=
  t <- load_cstr str ;;
  match t with
  | None => ret None
  | Some chars =>
      let cap := escaped_len chars + 3 in
      out <- cJSON_malloc (Chars cap []) ;;
      match out with
      | None => ret None
      | Some o =>
          done <- emit cap [] [ch_quote] ;;
          done <- print_string_loop cap chars done ;;
          done <- emit cap done [ch_quote] ;;
          fill o cap done ;;;
          ret (Some o)
      end
  end.

(** [for (j = 0; j < i; j++) cJSON_free (entries[j]);] *)
Fixpoint free_all (l : list addr) : M unit :=
  match l with
  | [] => ret tt
  | a :: l' => cJSON_free a ;;; free_all l'
  end.

(** The copying loop of [print_array] and [print_object]: every entry is
    copied and freed, with the separator [sep] between two entries. *)
Fixpoint join_entries (sep : list Z) (l : list addr) : M (list Z) :=
  match l with
  | [] => ret []
  | a :: l' =>
      t <- text_of (Some a) ;;
      cJSON_free a ;;;
      rest <- join_entries sep l' ;;
      ret (t ++ (match l' with [] => [] | _ => sep end) ++ rest)
  end.

Section PrintDescent.

(** The recursive call [print_value (child, formatted, depth + 1)]. *)
Variable print_value : addr -> M ptr.
Variable formatted : bool.
Variable depth : Z.

Definition fmt1 : Z := if formatted then 1 else 0.

(** The first loop of [print_array]: [k] rounds remain, [acc] holds
    [entries[0..i-1]]. *)
Fixpoint array_entries (k : nat) (entries : addr) (child : ptr) (acc : list addr) (len : Z)
  : M (option (list addr * Z)) :=
  match child, k with
  | Some c, S k' =>
      e <- print_value c ;;
      match e with
      | None => free_all acc ;;; cJSON_free entries ;;; ret None
      | Some e =>
          t <- text_of (Some e) ;;
          len' <- int_chk (len + (Z.of_nat (length t) + 2 + fmt1)) ;;
          n <- load c ;;
          array_entries k' entries (next n) (acc ++ [e]) len'
      end
  | _, _ => ret (Some (acc, len))
  end.

Definition print_array (item : addr) : M ptr :=
  count <- cJSON_GetArraySize (Some item) ;;
  if count =? 0 then alloc_text 3 [ch_lbracket; ch_rbracket]
  else
    entries <- cJSON_malloc (Ptrs count) ;;
    match entries with
    | None => ret None
    | Some entries =>
        n <- load item ;;
        r <- array_entries (Z.to_nat count) entries (child n) [] 5 ;;
        match r with
        | None => ret None
        | Some (acc, len) =>
            (if Z.of_nat (length acc) =? count then ret tt else raise BadPointer) ;;;
            cap <- int_chk (len + 1) ;;
            out <- cJSON_malloc (Chars cap []) ;;
            match out with
            | None => free_all acc ;;; cJSON_free entries ;;; ret None
            | Some o =>
                body <- join_entries (ch_comma :: if formatted then [32] else []) acc ;;
                fill o cap ([ch_lbracket] ++ body ++ [ch_rbracket]) ;;;
                cJSON_free entries ;;;
                ret (Some o)
            end
        end
    end.

(** The first loop of [print_object]. *)
Fixpoint object_entries (k : nat) (entries : addr) (child : ptr) (acc : list addr) (len : Z)
  : M (option (list addr * Z)) :=
  match child, k with
  | Some c, S k' =>
      n <- load c ;;
      key <- print_string_ptr (string n) ;;
      val <- print_value c ;;
      tkey <- text_of key ;;
      tval <- text_of val ;;
      needed <- int_chk (Z.of_nat (length tkey) + Z.of_nat (length tval) + 2) ;;
      let cap := needed + 1 + (if formatted then depth + 1 else 0) in
      e <- cJSON_malloc (Chars cap []) ;;
      match e, key, val with
      | Some e, Some key, Some val =>
          let text :=
            if formatted
            then repeat 9 (Z.to_nat (depth + 1)) ++ tkey ++ [ch_colon; 32] ++ tval
            else tkey ++ [ch_colon] ++ tval in
          fill e cap text ;;;
          cJSON_free key ;;;
          cJSON_free val ;;;
          len' <- int_chk (len + (Z.of_nat (length (cstr text)) + 2 + fmt1)) ;;
          n <- load c ;;
          object_entries k' entries (next n) (acc ++ [e]) len'
      | None, Some key, Some val =>
          cJSON_free key ;;; cJSON_free val ;;;
          free_all acc ;;; cJSON_free entries ;;; ret None
      | _, _, _ => raise BadPointer
      end
  | _, _ => ret (Some (acc, len))
  end.

Definition print_object (item : addr) : M ptr :=
  n <- load item ;;
  h <- get_heap ;;
  count <- count_siblings (S (size h)) (child n) 0 ;;
  if count =? 0 then alloc_text 3 [ch_lbrace; ch_rbrace]
  else
    entries <- cJSON_malloc (Ptrs count) ;;
    match entries with
    | None => ret None
    | Some entries =>
        n <- load item ;;
        r <- object_entries (Z.to_nat count) entries (child n) [] 7 ;;
        match r with
        | None => ret None
        | Some (acc, len) =>
            (if Z.of_nat (length acc) =? count then ret tt else raise BadPointer) ;;;
            cap <- int_chk (len + 1 + (if formatted then depth else 0)) ;;
            out <- cJSON_malloc (Chars cap []) ;;
            match out with
            | None => free_all acc ;;; cJSON_free entries ;;; ret None
            | Some o =>
                body <- join_entries (ch_comma :: if formatted then [10] else []) acc ;;
                fill o cap
                  ([ch_lbrace] ++ (if formatted then [10] else []) ++ body ++
                   (if formatted then 10 :: repeat 9 (Z.to_nat depth) else []) ++
                   [ch_rbrace]) ;;;
                cJSON_free entries ;;;
                ret (Some o)
            end
        end
    end.

End PrintDescent.

(** The [case cJSON_Number] of [print_value]. *)
Definition print_number (item : addr) : M ptr :=
  out <- cJSON_malloc (Chars 32 []) ;;
  match out with
  | None => ret None
  | Some o =>
      n <- load item ;;
      (if dleb (dabs (dsub (double_of_int (valueint n)) (valuedouble n))) DBL_EPSILON
          && dltb (dabs (valuedouble n)) d_1e60
       then fill o 32 (sprintf_d (valueint n))
       else fill o 32 (sprintf_f (valuedouble n))) ;;;
      ret (Some o)
  end.

(** [print_value]; [fuel] bounds the depth of the recursion through
    [print_array] and [print_object]. *)
Fixpoint print_value (fuel : nat) (item : addr) (formatted : bool) (depth : Z) : M ptr :=
  match fuel with
  | O => raise OutOfFuel
  | S fuel' =>
      n <- load item ;;
      let kind := Z.land (type n) 255 in
      if kind =? cJSON_NULL then cJSON_strdup (Some lit_null)
      else if kind =? cJSON_False then cJSON_strdup (Some lit_false)
      else if kind =? cJSON_True then cJSON_strdup (Some lit_true)
      else if kind =? cJSON_Number then print_number item
      else if kind =? cJSON_String then print_string_ptr (valuestring n)
      else if kind =? cJSON_Array
      then print_array (fun c => print_value fuel' c formatted (depth + 1)) formatted item
      else if kind =? cJSON_Object
      then print_object (fun c => print_value fuel' c formatted (depth + 1)) formatted depth item
      else ret None
  end.

Definition cJSON_Print (item : addr) : M ptr :=
  h <- get_heap ;; print_value (S (size h)) item true 0.

Definition cJSON_PrintUnformatted (item : addr) : M ptr :=
  h <- get_heap ;; print_value (S (size h)) item false 0.

Definition cJSON_PrintBuffered (item : addr) (prebuffer fmt : Z) : M ptr :=
  cJSON_Print item.

(** [buffer] is a buffer of the heap that the caller owns; [length] is what
    the caller says its size is. *)
Definition cJSON_PrintPreallocated (item buffer : addr) (length : Z) (format : Z) : M Z :=
  out <- (if format =? 0 then cJSON_PrintUnformatted item else cJSON_Print item) ;;
  match out with
  | None => ret 0
  | Some o =>
      t <- text_of (Some o) ;;
      if length <? Z.of_nat (List.length t) + 1 then cJSON_free o ;;; ret 0
      else
        h <- get_heap ;;
        match h !! buffer with
        | Some (Chars cap _) =>
            fill buffer cap t ;;;
            cJSON_free o ;;;
            ret 1
        | _ => raise BadPointer
        end
  end.

End Printer.

(** ** The configuration loader (ppb-cli/put.c) *)

Definition CONFIG_SIZE : Z := 65536.
Definition URL_SIZE : nat := 512.
Definition TOKEN_SIZE : nat := 512.

(** [Config]: the two character arrays, each given by all its bytes, and
    the two flags. *)
Record Config : Type := mkConfig {
  url : list Z;
  token : list Z;
  verbose : Z;
  show_response : Z
}.

(** [strncpy (dest, src, n)]: the first [n] bytes of [dest] become the
    characters of [src], cut at [n], and NULs up to [n]. *)
Definition strncpy (dest : list Z) (src : list Z) (n : nat) : list Z :=
  take n (take n src ++ repeat 0 (n - length src)) ++ drop n dest.

(** [copy_string (dest, cap, src)] on an array [dest]; [src] is a C string
    or [NULL]. *)
Definition copy_string (dest : list Z) (cap : nat) (src : option (list Z)) : list Z :=
  match src with
  | None => dest
  | Some s =>
      match cap with
      | O => dest
      | S n => <[n := 0]> (strncpy dest s n)
      end
  end.

Definition lit_url : list Z := [117; 114; 108].
Definition lit_token : list Z := [116; 111; 107; 101; 110].
Definition lit_servers : list Z := [115; 101; 114; 118; 101; 114; 115].
Definition lit_default_server : list Z :=
  [100; 101; 102; 97; 117; 108; 116; 95; 115; 101; 114; 118; 101; 114].
Definition lit_default_token : list Z :=
  [100; 101; 102; 97; 117; 108; 116; 95; 116; 111; 107; 101; 110].

(** [if (cJSON_IsString (field) && field->valuestring) copy_string (dest, cap, field->valuestring);] *)
Definition copy_field (field : ptr) (dest : list Z) (cap : nat) : M (list Z) :=
  b <- cJSON_IsString field ;;
  if b then
    a <- (match field with Some a => ret a | None => raise BadPointer end) ;;
    n <- load a ;;
    v <- load_cstr (valuestring n) ;;
    match v with
    | Some _ => ret (copy_string dest cap v)
    | None => ret dest
    end
  else ret dest.

Definition apply_server_object (server_obj : ptr) (cfg : Config) : M Config :=
  u <- cJSON_GetObjectItemCaseSensitive server_obj (Some lit_url) ;;
  t <- cJSON_GetObjectItemCaseSensitive server_obj (Some lit_token) ;;
  url' <- copy_field u (url cfg) URL_SIZE ;;
  token' <- copy_field t (token cfg) TOKEN_SIZE ;;
  ret (mkConfig url' token' (verbose cfg) (show_response cfg)).

(** [parse_config] from the point where [read_entire_file] has returned:
    [file] is the content read ([None] when the file is not readable), and
    the buffer handed to the parser is that content followed by a NUL.  The
    notes written to [stderr] are left out. *)
Definition parse_config (pow : double -> double -> double)
    (file : option (list Z)) (cfg : Config) (server_name : option (list Z)) : M Config :=
  match file with
  | None => ret cfg
  | Some content =>
      root <- cJSON_ParseWithLength pow (content ++ [0]) (Some O)
                (Z.of_nat (length content)) ;;
      match root with
      | None => ret cfg
      | Some _ =>
          cfg' <- match server_name with
                  | Some _ =>
                      servers <- cJSON_GetObjectItemCaseSensitive root (Some lit_servers) ;;
                      b <- cJSON_IsObject servers ;;
                      server <- (if b
                                 then cJSON_GetObjectItemCaseSensitive servers server_name
                                 else ret None) ;;
                      b <- cJSON_IsObject server ;;
                      if b then apply_server_object server cfg else ret cfg
                  | None =>
                      u <- cJSON_GetObjectItemCaseSensitive root (Some lit_default_server) ;;
                      t <- cJSON_GetObjectItemCaseSensitive root (Some lit_default_token) ;;
                      url' <- copy_field u (url cfg) URL_SIZE ;;
                      token' <- copy_field t (token cfg) TOKEN_SIZE ;;
                      ret (mkConfig url' token' (verbose cfg) (show_response cfg))
                  end ;;
          cJSON_Delete root ;;;
          ret cfg'
      end
  end.

(** ** Ownership: what a chain of siblings occupies in the heap *)

(** [heap_minus h D]: the heap [h] once the blocks at the addresses [D] are
    released. *)
Definition heap_minus (h : gmap addr block) (D : gset addr) : gmap addr block :=
  filter (fun kv => kv.1 ∉ D) h.

(** A node without its sibling links. *)
Definition unlink (c : cJSON) : cJSON := set_next None (set_prev None c).

(** One sibling, as the properties see it: its address, its fields apart
    from the links, and the addresses of what it owns below itself. *)
Definition item : Type := addr * cJSON * gset addr.

(** A [char *] field and the buffer it owns. *)
Definition str_rep (h : gmap addr block) (D : gset addr) (k : ptr) : Prop :=
  match k with
  | None => D = ∅
  | Some a => D = {[a]} /\ exists cap chars, h !! a = Some (Chars cap chars)
  end.

(** [chain_rep h D pv p items]: in [h], [p] heads a chain of siblings
    [items], linked forward by [next] and backward by [prev] (the head's
    [prev] is [pv]); together with their keys, their strings and their
    children they occupy exactly the addresses [D].  A node marked
    [cJSON_IsReference] owns its key only. *)
Inductive chain_rep (h : gmap addr block)
  : gset addr -> ptr -> ptr -> list item -> Prop :=
| chain_nil pv : chain_rep h ∅ pv None []
| chain_ref pv a c Dk Dr items :
    h !! a = Some (Node c) -> prev c = pv -> is_reference c = true ->
    str_rep h Dk (string c) ->
    chain_rep h Dr (Some a) (next c) items ->
    a ∉ Dk ∪ Dr -> Dk ## Dr ->
    chain_rep h ({[a]} ∪ Dk ∪ Dr) pv (Some a) ((a, unlink c, Dk) :: items)
| chain_own pv a c Dk Dv Dc Dr kids items :
    h !! a = Some (Node c) -> prev c = pv -> is_reference c = false ->
    str_rep h Dk (string c) ->
    str_rep h Dv (valuestring c) ->
    chain_rep h Dc None (child c) kids ->
    chain_rep h Dr (Some a) (next c) items ->
    a ∉ Dk ∪ Dv ∪ Dc ∪ Dr -> Dk ## Dv -> Dk ∪ Dv ## Dc -> Dk ∪ Dv ∪ Dc ## Dr ->
    chain_rep h ({[a]} ∪ (Dk ∪ Dv ∪ Dc) ∪ Dr) pv (Some a)
      ((a, unlink c, Dk ∪ Dv ∪ Dc) :: items).

(** ** What the parser builds *)

(** [c'] differs from [c] in its scalar payload only. *)
Definition scalar_of (c c' : cJSON) : Prop :=
  next c' = next c /\ prev c' = prev c /\ child c' = child c /\
  valuestring c' = valuestring c /\ string c' = string c /\ is_reference c' = false.

(** [h'] is [h] with fresh blocks at the addresses [D], and possibly another
    node at [item]. *)
Definition extends (h h' : gmap addr block) (item : addr) (D : gset addr) : Prop :=
  (forall a, a ∈ dom h -> a <> item -> h' !! a = h !! a) /\
  dom h' = dom h ∪ D /\ D ## dom h.

(** A node that [parse_value] may fill: it owns neither a string nor
    children yet. *)
Definition node_pre (c : cJSON) : Prop :=
  valuestring c = None /\ child c = None /\ is_reference c = false.

Definition blank (c : cJSON) : Prop := string c = None /\ node_pre c.

(** The node [item] after [parse_value], whether it succeeded or not: its
    links and its key are kept, and it owns a string and a chain of children
    made of fresh blocks. *)
Definition node_post (h h' : gmap addr block) (item : addr) : Prop :=
  exists c c' Dv Dc kids,
    h !! item = Some (Node c) /\ h' !! item = Some (Node c') /\
    next c' = next c /\ prev c' = prev c /\ string c' = string c /\
    is_reference c' = false /\
    extends h h' item (Dv ∪ Dc) /\ Dv ## Dc /\
    str_rep h' Dv (valuestring c') /\ chain_rep h' Dc None (child c') kids.

(** The same for a member of an object, which also receives its key. *)
Definition built (h h' : gmap addr block) (item : addr) : Prop :=
  exists c c' Dk Dv Dc kids,
    h !! item = Some (Node c) /\ h' !! item = Some (Node c') /\
    next c' = next c /\ prev c' = prev c /\ is_reference c' = false /\
    extends h h' item (Dk ∪ Dv ∪ Dc) /\ Dk ## Dv /\ Dk ∪ Dv ## Dc /\
    str_rep h' Dk (string c') /\ str_rep h' Dv (valuestring c') /\
    chain_rep h' Dc None (child c') kids.

(** The node [child] after a sibling loop: its [next] heads a chain of
    fresh siblings. *)
Definition chain_post (h h' : gmap addr block) (child : addr) : Prop :=
  exists c D nx items,
    h !! child = Some (Node c) /\ h' !! child = Some (Node (set_next nx c)) /\
    extends h h' child D /\ chain_rep h' D (Some child) nx items.

(** [owns h Da c]: the node [c] owns, below itself, exactly the addresses
    [Da]: its key, and unless it is a reference, its string and the chain of
    its children. *)
Definition owns (h : gmap addr block) (Da : gset addr) (c : cJSON) : Prop :=
  (is_reference c = true /\ str_rep h Da (string c)) \/
  (is_reference c = false /\
   exists Dk Dv Dc kids,
     Da = Dk ∪ Dv ∪ Dc /\ str_rep h Dk (string c) /\ str_rep h Dv (valuestring c) /\
     chain_rep h Dc None (child c) kids /\ Dk ## Dv /\ Dk ∪ Dv ## Dc).

(** The address of the first sibling of a chain. *)
Definition head_addr (items : list item) : ptr :=
  match items with
  | [] => None
  | (a, _, _) :: _ => Some a
  end.

(** The address of the last sibling of a chain that follows [pv]. *)
Fixpoint last_addr (pv : ptr) (items : list item) : ptr :=
  match items with
  | [] => pv
  | (a, _, _) :: items' => last_addr (Some a) items'
  end.

(** ** Inputs and clients used by the properties *)

(** [n] opening brackets, [n] closing brackets and the terminating NUL: an
    array nested [n] deep. *)
Definition nested (n : nat) : list Z :=
  replicate n ch_lbracket ++ replicate n ch_rbracket ++ [0].

(** The binary64 value of the integer [+m] or [-m]: the mantissa is [m]
    shifted left until it has 53 digits. *)
Definition int_double (s : bool) (m : positive) : double :=
  S754_finite s (Pos.iter xO m (Z.to_pos (53 - Z.pos (digits2_pos m))))
    (Z.pos (digits2_pos m) - 53).

(** Decimal digits, most significant first, and the number they denote. *)
Definition decimal (acc : Z) (ds : list Z) : Z := fold_left (fun a d => a * 10 + d) ds acc.
Definition digit_chars (ds : list Z) : list Z := map (fun d => ch_0 + d) ds.

(** The digits of an integer as JSON writes it: at least one digit, and no
    zero in front of another digit. *)
Definition is_decimal (ds : list Z) : bool :=
  forallb (fun d => (0 <=? d) && (d <=? 9)) ds &&
  match ds with
  | [] => false
  | [d] => true
  | d :: _ => 1 <=? d
  end.

Definition int_literal (neg : bool) (ds : list Z) : list Z :=
  (if neg then [ch_minus] else []) ++ digit_chars ds.
Definition int_value (neg : bool) (ds : list Z) : Z :=
  if neg then - decimal 0 ds else decimal 0 ds.

(** The binary64 value nearest to one tenth. *)
Definition d_tenth : double := S754_finite false 7205759403792794 (-56).

Definition double_eqb (x y : double) : bool :=
  match x, y with
  | S754_zero a, S754_zero b => Bool.eqb a b
  | S754_infinity a, S754_infinity b => Bool.eqb a b
  | S754_nan, S754_nan => true
  | S754_finite a m e, S754_finite b m' e' => Bool.eqb a b && Pos.eqb m m' && Z.eqb e e'
  | _, _ => false
  end.

(** A [pow] of which two values are known: [pow (x, 0) = 1] and
    [pow (x, -1) = 0.1]; elsewhere it is [pow]. *)
Definition pow_at_0_and_minus_1 (pow : double -> double -> double) (x y : double) : double :=
  if double_eqb y (double_of_int 0) then double_of_int 1
  else if double_eqb y (double_of_int (-1)) then d_tenth
  else pow x y.

(** A correctly rounded [pow (10, y)] for the integers [y] whose power of ten
    is exact in binary64 arithmetic. *)
Definition pow_ref (x y : double) : double :=
  match double_to_int y with
  | Some k =>
      if k =? 0 then double_of_int 1
      else if 0 <? k then double_of_int (10 ^ k)
      else SFdiv dprec demax (double_of_int 1) (double_of_int (10 ^ (- k)))
  | None => S754_nan
  end.

(** A client that parses [text] and prints the result unformatted: the type
    and the integer field of the node, and the text printed. *)
Definition number_round_trip (pow : double -> double -> double) (sprintf_f : double -> list Z)
    (text : list Z) : option (Z * Z * list Z) :=
  match cJSON_Parse pow text (Some O) empty_state with
  | Ok (Some r) st =>
      match heap st !! r with
      | Some (Node c) =>
          match cJSON_PrintUnformatted sprintf_f r st with
          | Ok (Some o) st' =>
              match heap st' !! o with
              | Some (Chars _ t) => Some (type c, valueint c, t)
              | _ => None
              end
          | _ => None
          end
      | _ => None
      end
  | _ => None
  end.


(** The escape of a UTF-16 unit: a backslash, [u] and four hexadecimal
    digits. *)
Definition unicode_escape (hex : String.string) : list Z :=
  ch_backslash :: 117 :: bytes_of_string hex.

(** A string literal in memory: the body between two quotes, then NUL. *)
Definition string_literal (body : list Z) : list Z := ch_quote :: body ++ [ch_quote; 0].

(** The bytes of the string that a parse returned, if it returned a string
    node. *)
Definition string_of_result (r : outcome ptr) : option (list Z) :=
  match r with
  | Ok (Some a) st =>
      match heap st !! a with
      | Some (Node c) =>
          if type c =? cJSON_String then
            match valuestring c with
            | Some v =>
                match heap st !! v with
                | Some (Chars _ t) => Some t
                | _ => None
                end
            | None => None
            end
          else None
      | _ => None
      end
  | _ => None
  end.

(** A client of [cJSON_AddItemToObjectCS]: it adds a member under a key
    that it keeps at the address [k], and deletes the object. *)
Definition borrowed_key_scenario (k : addr) : M unit :=
  obj <- cJSON_CreateObject ;;
  item <- cJSON_CreateNull ;;
  match obj, item with
  | Some obj, Some item =>
      cJSON_AddItemToObjectCS obj (Some k) item ;;;
      cJSON_Delete (Some obj)
  | _, _ => ret tt
  end.

(** A heap that holds nothing but the caller's key [k] at address 100. *)
Definition key_heap : state := mkState {[100%positive := Chars 2 [107]]} None [].

(** A number node with the given links. *)
Definition num_node (nx pv : ptr) (i : Z) : cJSON :=
  mkJSON nx pv None cJSON_Number None i (double_of_int i) None.

(** The array [[1,2,3]] as the parser lays it out: the array node at
    address 1, its three children at 2, 3 and 4. *)
Definition array_of_three : state :=
  mkState
    (<[1%positive := Node (mkJSON None None (Some 2%positive) cJSON_Array None 0 d_zero None)]>
       (<[2%positive := Node (num_node (Some 3%positive) None 1)]>
          (<[3%positive := Node (num_node (Some 4%positive) (Some 2%positive) 2)]>
             (<[4%positive := Node (num_node None (Some 3%positive) 3)]> ∅))))
    None [].

Definition three_items : list item :=
  [(2%positive, num_node None None 1, ∅);
   (3%positive, num_node None None 2, ∅);
   (4%positive, num_node None None 3, ∅)].

(** A reference to the children of [array_of_three]: a fifth node, marked
    [cJSON_IsReference], whose [child] is the first of them. *)
Definition reference_state : state :=
  mkState
    (<[5%positive := Node (mkJSON None None (Some 2%positive)
                             (Z.lor cJSON_Array cJSON_IsReference) None 0 d_zero None)]>
       (heap array_of_three))
    None [].

(** A configuration before any file is read, and a file that sets the
    default server: an object with the one member [default_server], whose
    value is the string [u]. *)
Definition blank_config : Config := mkConfig (repeat 0 URL_SIZE) (repeat 0 TOKEN_SIZE) 0 0.

Definition config_text : list Z :=
  [ch_lbrace; ch_quote] ++ lit_default_server ++
  [ch_quote; ch_colon; ch_quote; 117; ch_quote; ch_rbrace].

(** ** What the printer writes for a string *)

(** The characters that [print_string_ptr] writes with four hexadecimal
    digits: the control characters without a short escape. *)
Definition wide_escape (c : Z) : bool :=
  (c <? 32) && negb ((c =? 8) || (c =? 12) || (c =? 10) || (c =? 13) || (c =? 9)).

(** The escape of one character, and of a text. *)
Definition escape_char (c : Z) : list Z :=
  if needs_escape c then
    ch_backslash ::
    (if c =? 92 then [92]
     else if c =? 34 then [34]
     else if c =? 8 then [98]
     else if c =? 12 then [102]
     else if c =? 10 then [110]
     else if c =? 13 then [114]
     else if c =? 9 then [116]
     else [117; 48; 48; hex_char (c / 16); hex_char (c mod 16)])
  else [c].

Definition escape_text (l : list Z) : list Z := concat (map escape_char l).

(** An outcome that is not the exhaustion of the fuel of a model. *)
Definition nofuel {A} (o : outcome A) : Prop := forall f, o = Fault f -> f <> OutOfFuel.

(** The array of three numbers next to a fourth number that belongs to no
    container yet. *)
Definition array_and_item : state :=
  mkState (<[5%positive := Node (num_node None None 4)]> (heap array_of_three)) None [].

(** The tree that the parser builds for [config_text]: the object at
    address 1, its member at 2, the key of the member at 3 and its string
    at 4. *)
Definition config_member : cJSON :=
  mkJSON None None None cJSON_String (Some 4%positive) 0 d_zero (Some 3%positive).

Definition config_tree : state :=
  mkState
    (<[1%positive := Node (mkJSON None None (Some 2%positive) cJSON_Object None 0 d_zero None)]>
       (<[2%positive := Node config_member]>
          (<[3%positive := Chars 15 lit_default_server]>
             (<[4%positive := Chars 2 [117]]> ∅))))
    None [].

(** [config_tree] and, beside it, a number that belongs to no container. *)
Definition config_and_item : state :=
  mkState (<[5%positive := Node (num_node None None 4)]> (heap config_tree)) None [].

(** The digits of a decimal numeral of the Standard Library, most
    significant first. *)
Fixpoint uint_digits (d : Decimal.uint) : list Z :=
  match d with
  | Decimal.Nil => []
  | Decimal.D0 l => 0 :: uint_digits l
  | Decimal.D1 l => 1 :: uint_digits l
  | Decimal.D2 l => 2 :: uint_digits l
  | Decimal.D3 l => 3 :: uint_digits l
  | Decimal.D4 l => 4 :: uint_digits l
  | Decimal.D5 l => 5 :: uint_digits l
  | Decimal.D6 l => 6 :: uint_digits l
  | Decimal.D7 l => 7 :: uint_digits l
  | Decimal.D8 l => 8 :: uint_digits l
  | Decimal.D9 l => 9 :: uint_digits l
  end.

(** A node of type [cJSON_True] at address 1 and, at address 2, a buffer of
    eight bytes that the caller owns. *)
Definition literal_and_buffer : state :=
  mkState
    (<[1%positive := Node (set_type cJSON_True zero_node)]>
       (<[2%positive := Chars 8 []]> ∅))
    None [].

(** * Properties *)

(** ** Inversion of the monadic steps *)

Lemma bind_inv {A B} (m : M A) (k : A -> M B) s b s' :
  bind m k s = Ok b s' -> exists a s1, m s = Ok a s1 /\ k a s1 = Ok b s'.
Proof. unfold bind. destruct (m s); [eauto | discriminate]. Qed.

Lemma ret_inv {A} (a b : A) s s' : ret a s = Ok b s' -> b = a /\ s' = s.
Proof. unfold ret. intros [= -> ->]. done. Qed.

Section ParserFacts.
Variable pow : double -> double -> double.
Variable mem : list Z.

Lemma peek_inv p s c s' : peek mem p s = Ok c s' -> s' = s.
Proof. unfold peek. destruct (mem !! p); [intros [= _ ->]; done | discriminate]. Qed.

Lemma int_chk_inv z s r s' : int_chk z s = Ok r s' -> s' = s.
Proof. unfold int_chk. destruct (in_int_range z); [intros [= _ ->]; done | discriminate]. Qed.

Lemma skip_loop_inv l : forall p s r s', skip_loop l p s = Ok r s' -> s' = s.
Proof.
  induction l as [|c l IH]; simpl; intros p s r s' H; [discriminate|].
  destruct (negb (c =? 0) && (c <=? 32)); [eauto|]. by apply ret_inv in H as [_ ->].
Qed.

Lemma skip_inv v s r s' : skip mem v s = Ok r s' -> s' = s.
Proof.
  destruct v as [p|]; simpl; intros H.
  - apply bind_inv in H as (a & s1 & H1 & H2). apply skip_loop_inv in H1 as ->.
    by apply ret_inv in H2 as [_ ->].
  - by apply ret_inv in H as [_ ->].
Qed.

Lemma skip_Some_inv v s r s' : skip mem (Some v) s = Ok r s' -> exists p, r = Some p.
Proof.
  simpl; intros H.
  apply bind_inv in H as (a & s1 & H1 & H2). apply ret_inv in H2 as [-> _]. eauto.
Qed.

Lemma match_lit_inv lit : forall p s r s', match_lit mem lit p s = Ok r s' -> s' = s.
Proof.
  induction lit as [|x lit IH]; simpl; intros p s r s' H.
  - by apply ret_inv in H as [_ ->].
  - apply bind_inv in H as (c & s1 & H1 & H2). apply peek_inv in H1 as ->.
    destruct (c =? x); [eauto|]. by apply ret_inv in H2 as [_ ->].
Qed.

Lemma deref_inv v s r s' : deref v s = Ok r s' -> s' = s /\ v = Some r.
Proof. destruct v; simpl; [|discriminate]. intros H. apply ret_inv in H as [-> ->]. done. Qed.

Lemma set_ep_inv p s r s' : set_ep p s = Ok r s' -> heap s' = heap s.
Proof. unfold set_ep. intros [= _ <-]. done. Qed.

Lemma load_inv a s c s' : load a s = Ok c s' -> s' = s /\ heap s !! a = Some (Node c).
Proof.
  unfold load. destruct (heap s !! a) as [[c0| |]|]; try discriminate. intros [= -> ->]. done.
Qed.

Lemma store_inv a c s r s' :
  store a c s = Ok r s' ->
  heap s' = <[a := Node c]> (heap s) /\ exists c0, heap s !! a = Some (Node c0).
Proof.
  unfold store. destruct (heap s !! a) as [[c0| |]|]; try discriminate.
  intros [= _ <-]. eauto.
Qed.

Lemma modify_inv a f s r s' :
  modify a f s = Ok r s' ->
  exists c, heap s !! a = Some (Node c) /\ heap s' = <[a := Node (f c)]> (heap s).
Proof.
  unfold modify. intros H. apply bind_inv in H as (c & s1 & H1 & H2).
  apply load_inv in H1 as [-> H1]. apply store_inv in H2 as [H2 _]. eauto.
Qed.

Lemma malloc_inv b s r s' :
  cJSON_malloc b s = Ok r s' ->
  (r = None /\ heap s' = heap s) \/
  (exists a, r = Some a /\ (a ∉ dom (heap s)) /\ heap s' = <[a := b]> (heap s)).
Proof.
  unfold cJSON_malloc. destruct (oracle s) as [|[] o].
  - intros [= <- <-]. right. eexists; split; [done|]. split; [apply is_fresh | done].
  - intros [= <- <-]. right. eexists; split; [done|]. split; [apply is_fresh | done].
  - intros [= <- <-]. left. done.
Qed.

Lemma free_inv a s r s' :
  cJSON_free a s = Ok r s' -> heap s' = delete a (heap s).
Proof. unfold cJSON_free. destruct (heap s !! a); [|discriminate]. intros [= _ <-]. done. Qed.

Lemma store_chars_inv a chars s r s' :
  store_chars a chars s = Ok r s' ->
  exists cap c0, heap s !! a = Some (Chars cap c0) /\ heap s' = <[a := Chars cap chars]> (heap s).
Proof.
  unfold store_chars. destruct (heap s !! a) as [[c0|cap c0|]|]; try discriminate.
  intros [= _ <-]. eauto.
Qed.

Lemma emit_inv cap d bs s r s' : emit cap d bs s = Ok r s' -> s' = s.
Proof. unfold emit. case (_ <=? _); [intros [= _ ->]; done | discriminate]. Qed.

Lemma parse_hex4_loop_inv k : forall p out s r s', parse_hex4_loop mem k p out s = Ok r s' -> s' = s.
Proof.
  induction k as [|k IH]; simpl; intros p out s r s' H.
  - by apply ret_inv in H as [_ ->].
  - apply bind_inv in H as (c & s1 & H1 & H2). apply peek_inv in H1 as ->.
    destruct (hex_digit c); [eauto|]. by apply ret_inv in H2 as [_ ->].
Qed.

Ltac minv_core tac :=
  repeat match goal with
  | H : bind _ _ _ = Ok _ _ |- _ =>
      let a := fresh "a" in let s := fresh "s" in let H1 := fresh "H" in
      apply bind_inv in H as (a & s & H1 & H)
  | H : ret _ _ = Ok _ _ |- _ => apply ret_inv in H as [? ?]; subst
  | H : raise _ _ = Ok _ _ |- _ => discriminate H
  | H : peek _ _ _ = Ok _ _ |- _ => apply peek_inv in H; subst
  | H : int_chk _ _ = Ok _ _ |- _ => apply int_chk_inv in H; subst
  | H : emit _ _ _ _ = Ok _ _ |- _ => apply emit_inv in H; subst
  | H : skip _ _ _ = Ok _ _ |- _ => apply skip_inv in H; subst
  | H : skip_loop _ _ _ = Ok _ _ |- _ => apply skip_loop_inv in H; subst
  | H : match_lit _ _ _ _ = Ok _ _ |- _ => apply match_lit_inv in H; subst
  | H : parse_hex4_loop _ _ _ _ _ = Ok _ _ |- _ => apply parse_hex4_loop_inv in H; subst
  | H : _ = Ok _ _ |- _ => progress tac H
  | H : (match ?x with _ => _ end) _ = Ok _ _ |- _ => destruct x eqn:?
  end.

Ltac minv := minv_core ltac:(fun H => fail).

Lemma parse_unicode_inv p s r s' : parse_unicode mem p s = Ok r s' -> s' = s.
Proof. unfold parse_unicode, parse_hex4. intros H. minv; done. Qed.

Lemma string_measure_inv l : forall p len s r s', string_measure l p len s = Ok r s' -> s' = s.
Proof.
  induction l as [l IH] using (induction_ltof1 _ (@length Z)). unfold ltof in IH.
  destruct l as [|c l]; simpl; intros p len s r s' H; [discriminate|].
  minv; try done.
  - eapply IH; [|done]. simpl; lia.
  - eapply IH; [|done]. simpl; lia.
Qed.

Lemma string_decode_inv fuel : forall cap p d s r s',
  string_decode mem fuel cap p d s = Ok r s' -> s' = s.
Proof.
  induction fuel as [|fuel IH]; simpl; intros cap p d s r s' H; [discriminate|].
  minv_core ltac:(fun H => apply parse_unicode_inv in H; subst); eauto.
Qed.

Lemma number_digits_inv frac l : forall p n sc s r s',
  number_digits frac l p n sc s = Ok r s' -> s' = s.
Proof.
  induction l as [|c l IH]; simpl; intros p n sc s r s' H; [discriminate|].
  minv; eauto.
Qed.

Lemma exponent_digits_inv l : forall p sc s r s',
  exponent_digits l p sc s = Ok r s' -> s' = s.
Proof.
  induction l as [|c l IH]; simpl; intros p sc s r s' H; [discriminate|].
  minv; eauto.
Qed.

Ltac minv1 := minv_core ltac:(fun H =>
  first [ apply parse_unicode_inv in H; subst
        | apply string_measure_inv in H; subst
        | apply string_decode_inv in H; subst
        | apply number_digits_inv in H; subst
        | apply exponent_digits_inv in H; subst ]).

(** Heap-changing primitives, turned into equations on heaps. *)
Ltac hinv :=
  repeat match goal with
  | H : set_ep _ _ = Ok _ _ |- _ => apply set_ep_inv in H
  | H : cJSON_malloc _ _ = Ok (Some _) _ |- _ =>
      apply malloc_inv in H as [[? _]|(? & ? & ? & ?)]; [discriminate|]; simplify_eq
  | H : cJSON_malloc _ _ = Ok None _ |- _ =>
      apply malloc_inv in H as [[_ ?]|(? & ? & _)]; [|discriminate]
  | H : cJSON_free _ _ = Ok _ _ |- _ => apply free_inv in H
  | H : store_chars _ _ _ = Ok _ _ |- _ => apply store_chars_inv in H as (? & ? & ? & ?)
  | H : modify _ _ _ = Ok _ _ |- _ => apply modify_inv in H as (? & ? & ?)
  | H : store _ _ _ = Ok _ _ |- _ => apply store_inv in H as (? & ? & ?)
  | H : load _ _ = Ok _ _ |- _ => apply load_inv in H as [? ?]; subst
  end.

Lemma parse_string_inv item str s r s' c :
  parse_string mem item str s = Ok r s' ->
  heap s !! item = Some (Node c) ->
  (r = None /\ heap s' = heap s) \/
  (exists out cap chars,
      is_Some r /\ (out ∉ dom (heap s)) /\
      heap s' = <[item := Node (set_valuestring (Some out) (set_type cJSON_String c))]>
                  (<[out := Chars cap chars]> (heap s))).
Proof.
  unfold parse_string. intros H Hitem. minv1; hinv.
  - left. split; [done|]. congruence.
  - left. split; [done|]. congruence.
  - right.
    assert (item <> x) by (intros ->; apply H0, elem_of_dom; eauto).
    repeat match goal with H : heap ?s = _ |- _ => rewrite H in *; clear H end.
    simplify_map_eq.
    eexists x, _, _. split; [eauto|]. split; [done|].
    rewrite insert_insert_eq. f_equal. by rewrite insert_insert_eq.
  - left. split; [done|].
    repeat match goal with H : heap ?s = _ |- _ => rewrite H in *; clear H end.
    apply delete_insert_id. by apply not_elem_of_dom.
  - left. split; [done|]. done.
Qed.

Lemma parse_number_inv item num s r s' c :
  parse_number pow mem item num s = Ok r s' ->
  heap s !! item = Some (Node c) ->
  exists c', heap s' = <[item := Node c']> (heap s) /\ scalar_of c c'.
Proof.
  unfold parse_number. intros H Hitem. minv1; hinv.
  all: repeat match goal with H : heap ?s = _ |- _ => rewrite H in *; clear H end.
  all: simplify_map_eq.
  all: eexists; split; [by rewrite !insert_insert_eq|].
  all: match goal with |- scalar_of ?c _ => destruct c end; repeat split; reflexivity.
Qed.

Lemma str_rep_frame h h' D k :
  str_rep h D k -> (forall a, a ∈ D -> h' !! a = h !! a) -> str_rep h' D k.
Proof.
  destruct k as [a|]; simpl; [|done].
  intros [-> (cap & chars & H)] Hf. split; [done|].
  exists cap, chars. rewrite Hf; [done | set_solver].
Qed.

Lemma chain_rep_frame h h' D pv p items :
  chain_rep h D pv p items ->
  (forall a, a ∈ D -> h' !! a = h !! a) ->
  chain_rep h' D pv p items.
Proof.
  induction 1 as [pv | pv a c Dk Dr items Ha Hpv Hr Hk _ IH Hn Hd
                 | pv a c Dk Dv Dc Dr kids items Ha Hpv Hr Hk Hv _ IHc _ IHr Hn Hd1 Hd2 Hd3];
    intros Hf.
  - constructor.
  - apply chain_ref; try done.
    + rewrite Hf; [done | set_solver].
    + eapply str_rep_frame; [done|]. intros; apply Hf; set_solver.
    + apply IH. intros; apply Hf; set_solver.
  - eapply chain_own; try done.
    + rewrite Hf; [done | set_solver].
    + eapply str_rep_frame; [done|]. intros; apply Hf; set_solver.
    + eapply str_rep_frame; [done|]. intros; apply Hf; set_solver.
    + apply IHc. intros; apply Hf; set_solver.
    + apply IHr. intros; apply Hf; set_solver.
Qed.

Lemma str_rep_dom h D k : str_rep h D k -> D ⊆ dom h.
Proof.
  destruct k as [a|]; simpl.
  - intros [-> (cap & chars & H)]. apply singleton_subseteq_l, elem_of_dom. eauto.
  - intros ->. set_solver.
Qed.

Lemma chain_rep_dom h D pv p items : chain_rep h D pv p items -> D ⊆ dom h.
Proof.
  induction 1; [set_solver| |].
  - pose proof (str_rep_dom _ _ _ H2). assert (a ∈ dom h) by (apply elem_of_dom; eauto). set_solver.
  - pose proof (str_rep_dom _ _ _ H2). pose proof (str_rep_dom _ _ _ H3).
    assert (a ∈ dom h) by (apply elem_of_dom; eauto). set_solver.
Qed.

Lemma extends_agree h h' item D X :
  extends h h' item D -> X ⊆ dom h -> item ∉ X -> forall a, a ∈ X -> h' !! a = h !! a.
Proof. intros (Hsame & _ & _) HX Hi a Ha. apply Hsame; set_solver. Qed.

Lemma built_frame_facts h h' item :
  built h h' item ->
  exists c c' Dk Dv Dc kids,
    h !! item = Some (Node c) /\ h' !! item = Some (Node c') /\
    next c' = next c /\ prev c' = prev c /\ is_reference c' = false /\
    extends h h' item (Dk ∪ Dv ∪ Dc) /\ Dk ## Dv /\ Dk ∪ Dv ## Dc /\
    str_rep h' Dk (string c') /\ str_rep h' Dv (valuestring c') /\
    chain_rep h' Dc None (child c') kids /\
    Dk ∪ Dv ∪ Dc ⊆ dom h' /\ (item ∉ Dk ∪ Dv ∪ Dc) /\ item ∈ dom h.
Proof.
  intros (c & c' & Dk & Dv & Dc & kids & H1 & H2 & H3 & H4 & H5 & H6 & H7 & H8 & H9 & H10 & H11).
  exists c, c', Dk, Dv, Dc, kids. repeat (split; [done|]).
  destruct H6 as (_ & Hdom & Hdisj).
  assert (item ∈ dom h) by (apply elem_of_dom; eauto).
  split; [set_solver|]. split; [set_solver | done].
Qed.

Ltac set_only :=
  repeat match goal with
  | H : context [@lookup _ _ _ _ _ _] |- _ => clear H
  | H : _ = Ok _ _ |- _ => clear H
  | H : chain_rep _ _ _ _ _ |- _ => clear H
  | H : str_rep _ _ _ |- _ => clear H
  | H : forall _, _ |- _ => clear H
  | H : (_ =? _) = _ |- _ => clear H
  | H : @eq cJSON _ _ |- _ => clear H
  | H : @eq ptr _ _ |- _ => clear H
  | H : @eq bool _ _ |- _ => clear H
  end.
Ltac dom_subst :=
  repeat match goal with
  | H : dom ?h = _ |- _ =>
      let v := fresh "d" in set (v := dom h) in *; clearbody v; subst v
  end.
Ltac ssolve := set_only; dom_subst; timeout 30 set_solver.

Lemma set_next_id c : set_next (next c) c = c.
Proof. by destruct c. Qed.

Lemma chain_post_refl h a c :
  h !! a = Some (Node c) -> next c = None -> chain_post h h a.
Proof.
  intros Ha Hn. exists c, ∅, None, []. split; [done|]. split; [|split].
  - by rewrite <- Hn, set_next_id.
  - split; [done|]. split; set_solver.
  - constructor.
Qed.

(** One round of a sibling loop: a fresh node [x] is linked after [child],
    built, and followed by whatever the rest of the loop appends. *)
Lemma sibling_step h h2 h3 h' x child c :
  h !! child = Some (Node c) -> x ∉ dom h ->
  h2 = <[x := Node (set_prev (Some child) zero_node)]>
         (<[child := Node (set_next (Some x) c)]> (<[x := Node zero_node]> h)) ->
  built h2 h3 x ->
  (forall cb, h3 !! x = Some (Node cb) -> next cb = None -> chain_post h3 h' x) ->
  chain_post h h' child.
Proof.
  intros Hc Hx Hh2 Hb Hrest.
  assert (Hcx : child <> x) by (intros ->; apply Hx, elem_of_dom; eauto).
  assert (Hcd : child ∈ dom h) by (apply elem_of_dom; eauto).
  assert (Hd2 : dom h2 = {[x]} ∪ dom h).
  { rewrite Hh2, !dom_insert_L. clear -Hcd. set_solver. }
  assert (Hl2 : forall a, a <> x -> a <> child -> h2 !! a = h !! a).
  { intros q ? ?. rewrite Hh2. by rewrite !lookup_insert_ne. }
  assert (Hx2 : h2 !! x = Some (Node (set_prev (Some child) zero_node))).
  { rewrite Hh2. apply lookup_insert_eq. }
  assert (Hc2 : h2 !! child = Some (Node (set_next (Some x) c))).
  { rewrite Hh2. rewrite lookup_insert_ne by done. apply lookup_insert_eq. }
  clear Hh2.
  apply built_frame_facts in Hb
    as (cb & cb' & Dk & Dv & Dc & kids & Hb1 & Hb2 & Hbn & Hbp & Hbr & Hext & Hdkv & Hdkc
        & Hk & Hv & Hkids & Hsub & Hxn & _).
  rewrite Hx2 in Hb1. injection Hb1 as <-.
  destruct (Hrest _ Hb2) as (cl & D' & nx' & items' & Hl1 & Hl3 & Hext' & Hchain);
    [by rewrite Hbn|]. clear Hrest.
  rewrite Hb2 in Hl1. injection Hl1 as <-.
  destruct Hext as (Hsame & Hdom & Hdisj). destruct Hext' as (Hsame' & Hdom' & Hdisj').
  exists c, ({[x]} ∪ (Dk ∪ Dv ∪ Dc) ∪ D'), (Some x),
    ((x, unlink (set_next nx' cb'), Dk ∪ Dv ∪ Dc) :: items').
  split; [done|]. split; [|split].
  - rewrite Hsame', Hsame; [done| | done | | done]; ssolve.
  - split; [|split].
    + intros q Hq Hne. assert (q <> x) by (intros ->; done).
      rewrite Hsame', Hsame; [by apply Hl2 | | done | | done]; ssolve.
    + ssolve.
    + ssolve.
  - assert (Hag : forall a, a ∈ Dk ∪ Dv ∪ Dc -> h' !! a = h3 !! a).
    { intros q Hq. apply Hsame'; [|intros ->; done]. ssolve. }
    eapply chain_own; [exact Hl3 | simpl; rewrite Hbp; reflexivity | exact Hbr
                      | | | | exact Hchain | | | |].
    + eapply str_rep_frame; [exact Hk|]. intros; apply Hag; ssolve.
    + eapply str_rep_frame; [exact Hv|]. intros; apply Hag; ssolve.
    + eapply chain_rep_frame; [exact Hkids|]. intros; apply Hag; ssolve.
    + ssolve.
    + ssolve.
    + ssolve.
    + ssolve.
Qed.

Lemma link_new_item child x s s0 s1 s2 c r0 r1 :
  heap s !! child = Some (Node c) ->
  cJSON_New_Item s = Ok (Some x) s0 ->
  modify child (set_next (Some x)) s0 = Ok r0 s1 ->
  modify x (set_prev (Some child)) s1 = Ok r1 s2 ->
  (x ∉ dom (heap s)) /\
  heap s2 = <[x := Node (set_prev (Some child) zero_node)]>
         (<[child := Node (set_next (Some x) c)]> (<[x := Node zero_node]> (heap s))).
Proof.
  intros Hc H0 H1 H2. unfold cJSON_New_Item in *.
  apply malloc_inv in H0 as [[? _]|(x' & [= <-] & Hx & Hh0)]; [discriminate|].
  apply modify_inv in H1 as (c1 & Hc1 & Hh1).
  apply modify_inv in H2 as (c2 & Hc2 & Hh2).
  assert (Hcx : child <> x) by (intros ->; apply Hx, elem_of_dom; eauto).
  rewrite Hh0, lookup_insert_ne, Hc in Hc1 by done. injection Hc1 as <-.
  rewrite Hh1, lookup_insert_ne, Hh0, lookup_insert_eq in Hc2 by done. injection Hc2 as <-.
  split; [done|]. by rewrite Hh2, Hh1, Hh0.
Qed.

(** The proof of a sibling loop, given how to show that its body builds the
    new node. *)
Ltac sibling_loop_tac IH body_tac :=
  minv1;
  [ match goal with
    | Hc : heap ?s !! ?child = Some (Node ?c),
      H0 : cJSON_New_Item ?s = Ok (Some ?x) ?s0,
      H1 : modify ?child _ ?s0 = Ok _ ?s1,
      H2 : modify ?x _ ?s1 = Ok _ ?s2 |- _ =>
        let Hx := fresh "Hx" in let Hh2 := fresh "Hh2" in
        destruct (link_new_item _ _ _ _ _ _ _ _ _ Hc H0 H1 H2) as [Hx Hh2];
        (eapply sibling_step; [exact Hc | exact Hx | exact Hh2 | |];
         [ body_tac Hh2
         | try (intros; eapply IH; solve [eauto]);
           try (intros; eapply chain_post_refl; solve [eauto]) ])
    end ..
  | unfold cJSON_New_Item in *; hinv;
    match goal with H : heap _ = heap ?s |- chain_post (heap ?s) _ _ => rewrite H end;
    eapply chain_post_refl; eauto
  | eapply chain_post_refl; eauto ].

Lemma node_post_scalar h h' item c c' :
  h !! item = Some (Node c) -> node_pre c ->
  h' = <[item := Node c']> h -> scalar_of c c' ->
  node_post h h' item.
Proof.
  intros Hi (Hv & Hc & Hr) -> (Hn & Hp & Hch & Hvs & Hs & Hr').
  exists c, c', ∅, ∅, []. split; [done|]. split; [apply lookup_insert_eq|].
  do 4 (split; [done|]). split; [|split; [set_solver|split]].
  - split; [|split].
    + intros a _ Ha. by rewrite lookup_insert_ne.
    + rewrite dom_insert_L. assert (item ∈ dom h) by (apply elem_of_dom; eauto). set_solver.
    + set_solver.
  - by rewrite Hvs, Hv.
  - rewrite Hch, Hc. constructor.
Qed.

Lemma node_post_refl h item c :
  h !! item = Some (Node c) -> node_pre c -> node_post h h item.
Proof.
  intros Hi Hp. eapply node_post_scalar; [done | done | by rewrite insert_id |].
  destruct Hp as (_ & _ & ?). by repeat split.
Qed.

Lemma node_post_string h h' item c out cap chars :
  h !! item = Some (Node c) -> node_pre c -> out ∉ dom h ->
  h' = <[item := Node (set_valuestring (Some out) (set_type cJSON_String c))]>
         (<[out := Chars cap chars]> h) ->
  node_post h h' item.
Proof.
  intros Hi (Hv & Hc & Hr) Ho ->.
  assert (item ∈ dom h) by (apply elem_of_dom; eauto).
  assert (item <> out) by (intros ->; done).
  exists c, (set_valuestring (Some out) (set_type cJSON_String c)), {[out]}, ∅, [].
  split; [done|]. split; [apply lookup_insert_eq|].
  do 4 (split; [done|]). split; [|split; [set_solver|split]].
  - split; [|split].
    + intros a Ha Hne. rewrite lookup_insert_ne by done.
      rewrite lookup_insert_ne; [done|]. intros ->. done.
    + rewrite !dom_insert_L. set_solver.
    + set_solver.
  - simpl. split; [done|]. exists cap, chars.
    rewrite lookup_insert_ne by done. apply lookup_insert_eq.
  - simpl. rewrite Hc. constructor.
Qed.

Lemma built_of_post h h' item c :
  h !! item = Some (Node c) -> string c = None ->
  node_post h h' item -> built h h' item.
Proof.
  intros Hi Hs (c0 & c' & Dv & Dc & kids & H1 & H2 & H3 & H4 & H5 & H6 & H7 & H8 & H9 & H10).
  rewrite Hi in H1. injection H1 as <-.
  exists c, c', ∅, Dv, Dc, kids. do 5 (split; [done|]).
  split; [|split; [set_solver | split; [set_solver | split; [|done]]]].
  - replace (∅ ∪ Dv ∪ Dc) with (Dv ∪ Dc) by set_solver. done.
  - by rewrite H5, Hs.
Qed.

Lemma built_refl h item c :
  h !! item = Some (Node c) -> blank c -> built h h item.
Proof.
  intros Hi (Hs & Hp). eapply built_of_post; [done | done |]. by eapply node_post_refl.
Qed.

Lemma built_of_key h h2 h3 item c c2 out cap chars :
  h !! item = Some (Node c) -> out ∉ dom h ->
  h2 = <[item := Node c2]> (<[out := Chars cap chars]> h) ->
  string c2 = Some out -> next c2 = next c -> prev c2 = prev c ->
  node_post h2 h3 item -> built h h3 item.
Proof.
  intros Hi Ho Hh2 Hs Hn Hp (c0 & c' & Dv & Dc & kids & H1 & H2 & H3 & H4 & H5 & H6 & H7 & H8 & H9 & H10).
  assert (Hid : item ∈ dom h) by (apply elem_of_dom; eauto).
  assert (Hio : item <> out) by (intros ->; done).
  assert (Hd2 : dom h2 = {[out]} ∪ dom h) by (rewrite Hh2, !dom_insert_L; clear -Hid; set_solver).
  assert (H1' : h2 !! item = Some (Node c2)) by (rewrite Hh2; apply lookup_insert_eq).
  rewrite H1' in H1. injection H1 as <-.
  destruct H7 as (Hsame & Hdom & Hdisj).
  exists c, c', {[out]}, Dv, Dc, kids. split; [done|]. split; [done|].
  split; [congruence|]. split; [congruence|]. split; [done|].
  split; [|split; [ssolve | split; [ssolve | split; [|done]]]].
  - split; [|split].
    + intros a Ha Hne. rewrite Hsame; [| ssolve | done].
      rewrite Hh2, !lookup_insert_ne; [done | | done]. intros ->. done.
    + ssolve.
    + ssolve.
  - rewrite H5, Hs. simpl. split; [done|]. exists cap, chars.
    rewrite Hsame; [| ssolve | done].
    rewrite Hh2, lookup_insert_ne by done. apply lookup_insert_eq.
Qed.

(** The first child: a fresh node [ch] becomes [item->child], is built, and
    is followed by the siblings that the loop appends. *)
Lemma first_child_step h h3 h4 h5 item ch c c1 c3 :
  h !! item = Some (Node c) -> node_pre c -> ch ∉ dom h ->
  h3 = <[item := Node c3]> (<[ch := Node zero_node]> (<[item := Node c1]> h)) ->
  child c3 = Some ch -> valuestring c3 = None -> is_reference c3 = false ->
  next c3 = next c -> prev c3 = prev c -> string c3 = string c ->
  built h3 h4 ch -> chain_post h4 h5 ch ->
  node_post h h5 item.
Proof.
  intros Hi Hpre Hch Hh3 Hc3 Hv3 Hr3 Hn3 Hp3 Hs3 Hb Hl.
  assert (Hid : item ∈ dom h) by (apply elem_of_dom; eauto).
  assert (Hne : item <> ch) by (intros ->; done).
  assert (Hd3 : dom h3 = {[ch]} ∪ dom h) by (rewrite Hh3, !dom_insert_L; clear -Hid; set_solver).
  assert (Hi3 : h3 !! item = Some (Node c3)) by (rewrite Hh3; apply lookup_insert_eq).
  assert (Hch3 : h3 !! ch = Some (Node zero_node)).
  { rewrite Hh3, lookup_insert_ne by done. apply lookup_insert_eq. }
  assert (Hl3 : forall a, a <> item -> a <> ch -> h3 !! a = h !! a).
  { intros q ? ?. rewrite Hh3. by rewrite !lookup_insert_ne. }
  clear Hh3.
  apply built_frame_facts in Hb
    as (cb & cb' & Dk & Dv & Dc & kids & Hb1 & Hb2 & Hbn & Hbp & Hbr & Hext & Hdkv & Hdkc
        & Hk & Hv & Hkids & Hsub & Hxn & _).
  rewrite Hch3 in Hb1. injection Hb1 as <-.
  destruct Hl as (cl & D' & nx' & items' & Hl1 & Hl2 & Hext' & Hchain).
  rewrite Hb2 in Hl1. injection Hl1 as <-.
  destruct Hext as (Hsame & Hdom & Hdisj). destruct Hext' as (Hsame' & Hdom' & Hdisj').
  exists c, c3, ∅, ({[ch]} ∪ (Dk ∪ Dv ∪ Dc) ∪ D'),
    ((ch, unlink (set_next nx' cb'), Dk ∪ Dv ∪ Dc) :: items').
  split; [done|]. split.
  { rewrite Hsame', Hsame; [done | | done | | done]; ssolve. }
  do 4 (split; [done|]).
  split; [|split; [set_solver | split]].
  - split; [|split].
    + intros q Hq Hqi. assert (q <> ch) by (intros ->; done).
      rewrite Hsame', Hsame; [by apply Hl3 | | done | | done]; ssolve.
    + ssolve.
    + ssolve.
  - by rewrite Hv3.
  - rewrite Hc3.
    assert (Hag : forall a, a ∈ Dk ∪ Dv ∪ Dc -> h5 !! a = h4 !! a).
    { intros q Hq. apply Hsame'; [|intros ->; done]. ssolve. }
    eapply chain_own; [exact Hl2 | simpl; rewrite Hbp; reflexivity | exact Hbr
                      | | | | exact Hchain | | | |].
    + eapply str_rep_frame; [exact Hk|]. intros; apply Hag; ssolve.
    + eapply str_rep_frame; [exact Hv|]. intros; apply Hag; ssolve.
    + eapply chain_rep_frame; [exact Hkids|]. intros; apply Hag; ssolve.
    + ssolve.
    + ssolve.
    + ssolve.
    + ssolve.
Qed.


Section DescentFacts.
Variable pv : addr -> cptr -> M cptr.
Hypothesis pv_spec : forall item v s r s' c,
  pv item v s = Ok r s' -> heap s !! item = Some (Node c) -> node_pre c ->
  node_post (heap s) (heap s') item.

Lemma parse_array_loop_spec n : forall child value s r s' c,
  parse_array_loop mem pv n child value s = Ok r s' ->
  heap s !! child = Some (Node c) -> next c = None ->
  chain_post (heap s) (heap s') child.
Proof.
  induction n as [|n IH]; simpl; intros child value s r s' c H Hc Hnx; [discriminate|].
  sibling_loop_tac IH ltac:(fun Hh2 =>
    eapply built_of_post; [rewrite Hh2; apply lookup_insert_eq | reflexivity |];
    eapply pv_spec; [eassumption | rewrite Hh2; apply lookup_insert_eq | by repeat split]).
Qed.

Lemma parse_member_spec child value s r s' c :
  parse_member mem pv child value s = Ok r s' ->
  heap s !! child = Some (Node c) -> blank c ->
  built (heap s) (heap s') child.
Proof.
  unfold parse_member. intros H Hc Hb.
  apply bind_inv in H as (v0 & s0 & Hsk & H). apply skip_inv in Hsk as ->.
  apply bind_inv in H as (str & s0 & Hd & H). apply deref_inv in Hd as [-> _].
  apply bind_inv in H as (v1 & s1 & Hps & H).
  apply bind_inv in H as (v2 & s2 & Hsk & H). pose proof (skip_inv _ _ _ _ Hsk) as ->.
  destruct (parse_string_inv _ _ _ _ _ _ Hps Hc)
    as [[-> Hh1]|(out & cap & chars & [p ->] & Hout & Hh1)].
  - (* the key does not parse *)
    simpl in Hsk. apply ret_inv in Hsk as [-> _]. apply ret_inv in H as [_ ->].
    rewrite Hh1. by eapply built_refl.
  - destruct (skip_Some_inv _ _ _ _ Hsk) as [value2 ->].
    apply bind_inv in H as (c1 & s3 & Hl & H). apply load_inv in Hl as [-> Hl].
    apply bind_inv in H as (u & s3 & Hst & H). apply store_inv in Hst as [Hh3 _].
    apply bind_inv in H as (u' & s4 & Hm & H). apply modify_inv in Hm as (c3 & Hc3 & Hh4).
    rewrite Hh1, lookup_insert_eq in Hl. injection Hl as <-.
    rewrite Hh3, lookup_insert_eq in Hc3. injection Hc3 as <-.
    rewrite Hh3, Hh1, !insert_insert_eq in Hh4. simpl in Hh4.
    destruct Hb as (Hs & Hv & Hch & Hr).
    assert (Hpost : node_post (heap s4) (heap s') child).
    { minv1.
      - match goal with H : set_ep _ _ = Ok _ _ |- _ => apply set_ep_inv in H; rewrite H end.
        eapply node_post_refl; [rewrite Hh4; apply lookup_insert_eq|]. by repeat split.
      - eapply pv_spec; [eassumption | rewrite Hh4; apply lookup_insert_eq | by repeat split]. }
    eapply built_of_key; [exact Hc | exact Hout | exact Hh4 | | | | exact Hpost]; reflexivity.
Qed.

Lemma parse_object_loop_spec n : forall child value s r s' c,
  parse_object_loop mem pv n child value s = Ok r s' ->
  heap s !! child = Some (Node c) -> next c = None ->
  chain_post (heap s) (heap s') child.
Proof.
  induction n as [|n IH]; simpl; intros child value s r s' c H Hc Hnx; [discriminate|].
  sibling_loop_tac IH ltac:(fun Hh2 =>
    eapply parse_member_spec; [eassumption | rewrite Hh2; apply lookup_insert_eq | by repeat split]).
Qed.

Lemma built_node h h' x c :
  built h h' x -> h !! x = Some (Node c) ->
  exists c', h' !! x = Some (Node c') /\ next c' = next c.
Proof.
  intros (c0 & c' & Dk & Dv & Dc & kids & H1 & H2 & H3 & _) Hx.
  rewrite Hx in H1. injection H1 as <-. eauto.
Qed.

(** What [parse_array] and [parse_object] share once the first child is
    allocated and linked. *)
Lemma container_spec h h1 h2 h3 h4 h5 item ch c ty :
  h !! item = Some (Node c) -> node_pre c ->
  is_reference (set_type ty c) = false ->
  h1 = <[item := Node (set_type ty c)]> h ->
  ch ∉ dom h1 -> h2 = <[ch := Node zero_node]> h1 ->
  h3 = <[item := Node (set_child (Some ch) (set_type ty c))]> h2 ->
  built h3 h4 ch ->
  (forall cb, h4 !! ch = Some (Node cb) -> next cb = None -> chain_post h4 h5 ch) ->
  node_post h h5 item.
Proof.
  intros Hc Hpre Hty -> Hch -> -> Hb Hl.
  destruct Hpre as (Hv & Hcd & Hr).
  assert (Hch3 : <[item:=Node (set_child (Some ch) (set_type ty c))]>
                   (<[ch:=Node zero_node]> (<[item:=Node (set_type ty c)]> h)) !! ch
                 = Some (Node zero_node)).
  { rewrite lookup_insert_ne; [apply lookup_insert_eq|].
    intros ->. apply Hch. rewrite dom_insert_L. set_solver. }
  destruct (built_node _ _ _ _ Hb Hch3) as (cb & Hcb & Hn).
  eapply first_child_step; [exact Hc | by repeat split | | reflexivity | .. | exact Hb | eauto];
    try done.
  rewrite dom_insert_L in Hch. set_solver.
Qed.

Lemma parse_array_spec item value s r s' c :
  parse_array mem pv item value s = Ok r s' ->
  heap s !! item = Some (Node c) -> node_pre c ->
  node_post (heap s) (heap s') item.
Proof.
  unfold parse_array. intros H Hc Hpre.
  apply bind_inv in H as (c0 & s0 & Hpk & H). apply peek_inv in Hpk as ->.
  destruct (negb (c0 =? ch_lbracket)).
  { minv1. hinv. match goal with H : heap _ = heap s |- _ => rewrite H end.
    by eapply node_post_refl. }
  apply bind_inv in H as (u & s1 & Hm & H). apply modify_inv in Hm as (c1 & Hc1 & Hh1).
  rewrite Hc in Hc1. injection Hc1 as <-.
  assert (Hsc : scalar_of c (set_type cJSON_Array c)).
  { destruct Hpre as (? & ? & ?). by repeat split. }
  apply bind_inv in H as (v & s2 & Hsk & H). apply skip_inv in Hsk as ->.
  apply bind_inv in H as (value1 & s2 & Hd & H). apply deref_inv in Hd as [-> _].
  apply bind_inv in H as (c2 & s2 & Hpk & H). apply peek_inv in Hpk as ->.
  destruct (c2 =? ch_rbracket).
  { apply ret_inv in H as [_ ->]. by eapply node_post_scalar. }
  apply bind_inv in H as (ch & s2 & Hal & H).
  apply bind_inv in H as (u2 & s3 & Hm & H). apply modify_inv in Hm as (c3 & Hc3 & Hh3).
  unfold cJSON_New_Item in Hal.
  apply malloc_inv in Hal as [[-> Hh2]|(a & -> & Hfresh & Hh2)].
  { apply ret_inv in H as [_ ->].
    rewrite Hh2, Hh1, lookup_insert_eq in Hc3. injection Hc3 as <-.
    rewrite Hh2, Hh1, insert_insert_eq in Hh3.
    eapply node_post_scalar; [done | done | exact Hh3 |].
    destruct Hpre as (? & ? & ?). by repeat split. }
  assert (Hia : item <> a).
  { intros ->. apply Hfresh. rewrite Hh1, dom_insert_L. set_solver. }
  rewrite Hh2, lookup_insert_ne, Hh1, lookup_insert_eq in Hc3 by done. injection Hc3 as <-.
  apply bind_inv in H as (v1 & s4 & Hsk & H). apply skip_inv in Hsk as ->.
  apply bind_inv in H as (v2 & s4 & Hpv & H).
  apply bind_inv in H as (v3 & s5 & Hsk & H). apply skip_inv in Hsk as ->.
  assert (Ha3 : heap s3 !! a = Some (Node zero_node)).
  { rewrite Hh3, lookup_insert_ne, Hh2 by done. apply lookup_insert_eq. }
  assert (Hb : built (heap s3) (heap s4) a).
  { eapply built_of_post; [exact Ha3 | reflexivity |].
    eapply pv_spec; [exact Hpv | exact Ha3 | by repeat split]. }
  eapply (container_spec (heap s) (heap s1) (heap s2) (heap s3) (heap s4) (heap s')
            item a c cJSON_Array);
    [exact Hc | exact Hpre | reflexivity | exact Hh1 | exact Hfresh | exact Hh2
    | exact Hh3 | exact Hb |].
  intros cb Hcb Hn.
  destruct v3 as [value3|].
  - apply bind_inv in H as (r1 & s6 & Hloop & H).
    assert (heap s' = heap s6) as ->.
    { minv1; hinv; congruence. }
    eapply parse_array_loop_spec; eauto.
  - apply ret_inv in H as [_ ->]. eapply chain_post_refl; eauto.
Qed.

Lemma parse_object_spec item value s r s' c :
  parse_object mem pv item value s = Ok r s' ->
  heap s !! item = Some (Node c) -> node_pre c ->
  node_post (heap s) (heap s') item.
Proof.
  unfold parse_object. intros H Hc Hpre.
  apply bind_inv in H as (c0 & s0 & Hpk & H). apply peek_inv in Hpk as ->.
  destruct (negb (c0 =? ch_lbrace)).
  { minv1. hinv. match goal with H : heap _ = heap s |- _ => rewrite H end.
    by eapply node_post_refl. }
  apply bind_inv in H as (u & s1 & Hm & H). apply modify_inv in Hm as (c1 & Hc1 & Hh1).
  rewrite Hc in Hc1. injection Hc1 as <-.
  assert (Hsc : scalar_of c (set_type cJSON_Object c)).
  { destruct Hpre as (? & ? & ?). by repeat split. }
  apply bind_inv in H as (v & s2 & Hsk & H). apply skip_inv in Hsk as ->.
  apply bind_inv in H as (value1 & s2 & Hd & H). apply deref_inv in Hd as [-> _].
  apply bind_inv in H as (c2 & s2 & Hpk & H). apply peek_inv in Hpk as ->.
  destruct (c2 =? ch_rbrace).
  { apply ret_inv in H as [_ ->]. by eapply node_post_scalar. }
  apply bind_inv in H as (ch & s2 & Hal & H).
  apply bind_inv in H as (u2 & s3 & Hm & H). apply modify_inv in Hm as (c3 & Hc3 & Hh3).
  unfold cJSON_New_Item in Hal.
  apply malloc_inv in Hal as [[-> Hh2]|(a & -> & Hfresh & Hh2)].
  { apply ret_inv in H as [_ ->].
    rewrite Hh2, Hh1, lookup_insert_eq in Hc3. injection Hc3 as <-.
    rewrite Hh2, Hh1, insert_insert_eq in Hh3.
    eapply node_post_scalar; [done | done | exact Hh3 |].
    destruct Hpre as (? & ? & ?). by repeat split. }
  assert (Hia : item <> a).
  { intros ->. apply Hfresh. rewrite Hh1, dom_insert_L. set_solver. }
  rewrite Hh2, lookup_insert_ne, Hh1, lookup_insert_eq in Hc3 by done. injection Hc3 as <-.
  apply bind_inv in H as (v3 & s4 & Hpm & H).
  assert (Ha3 : heap s3 !! a = Some (Node zero_node)).
  { rewrite Hh3, lookup_insert_ne, Hh2 by done. apply lookup_insert_eq. }
  assert (Hb : built (heap s3) (heap s4) a).
  { eapply parse_member_spec; [exact Hpm | exact Ha3 | by repeat split]. }
  eapply (container_spec (heap s) (heap s1) (heap s2) (heap s3) (heap s4) (heap s')
            item a c cJSON_Object);
    [exact Hc | exact Hpre | reflexivity | exact Hh1 | exact Hfresh | exact Hh2
    | exact Hh3 | exact Hb |].
  intros cb Hcb Hn.
  destruct v3 as [value3|].
  - apply bind_inv in H as (r1 & s6 & Hloop & H).
    assert (heap s' = heap s6) as ->.
    { minv1; hinv; congruence. }
    eapply parse_object_loop_spec; eauto.
  - apply ret_inv in H as [_ ->]. eapply chain_post_refl; eauto.
Qed.
End DescentFacts.

Lemma modify_scalar item f s r s' c :
  modify item f s = Ok r s' ->
  heap s !! item = Some (Node c) -> node_pre c -> scalar_of c (f c) ->
  node_post (heap s) (heap s') item.
Proof.
  intros H Hc Hpre Hsc. apply modify_inv in H as (c1 & Hc1 & Hh).
  rewrite Hc in Hc1. injection Hc1 as <-. by eapply node_post_scalar.
Qed.

Lemma scalar_set_type c ty :
  node_pre c -> Z.land ty cJSON_IsReference = 0 -> scalar_of c (set_type ty c).
Proof.
  intros (? & ? & ?) Hty. repeat split. unfold is_reference. simpl. by rewrite Hty.
Qed.

Lemma parse_value_spec fuel : forall item v s r s' c,
  parse_value pow mem fuel item v s = Ok r s' ->
  heap s !! item = Some (Node c) -> node_pre c ->
  node_post (heap s) (heap s') item.
Proof.
  induction fuel as [|fuel IH]; intros item v s r s' c H Hc Hpre; [discriminate|].
  cbn [parse_value] in H.
  destruct v as [v|]; [|apply ret_inv in H as [_ ->]; by eapply node_post_refl].
  apply bind_inv in H as (b & s0 & Hml & H). apply match_lit_inv in Hml as ->.
  destruct b.
  { apply bind_inv in H as (u & s1 & Hm & H). apply ret_inv in H as [_ ->].
    eapply modify_scalar; [exact Hm | exact Hc | exact Hpre | by apply scalar_set_type]. }
  apply bind_inv in H as (b & s0 & Hml & H). apply match_lit_inv in Hml as ->.
  destruct b.
  { apply bind_inv in H as (u & s1 & Hm & H). apply ret_inv in H as [_ ->].
    eapply modify_scalar; [exact Hm | exact Hc | exact Hpre | by apply scalar_set_type]. }
  apply bind_inv in H as (b & s0 & Hml & H). apply match_lit_inv in Hml as ->.
  destruct b.
  { apply bind_inv in H as (u & s1 & Hm & H).
    apply bind_inv in H as (u' & s2 & Hm' & H). apply ret_inv in H as [_ ->].
    apply modify_inv in Hm as (c1 & Hc1 & Hh1). rewrite Hc in Hc1. injection Hc1 as <-.
    apply modify_inv in Hm' as (c2 & Hc2 & Hh2).
    rewrite Hh1, lookup_insert_eq in Hc2. injection Hc2 as <-.
    rewrite Hh1, insert_insert_eq in Hh2.
    eapply node_post_scalar; [exact Hc | exact Hpre | exact Hh2 |].
    destruct Hpre as (? & ? & ?). by repeat split. }
  apply bind_inv in H as (ch & s0 & Hpk & H). apply peek_inv in Hpk as ->.
  destruct (ch =? ch_quote).
  { destruct (parse_string_inv _ _ _ _ _ _ H Hc)
      as [[-> Hh1]|(out & cap & chars & _ & Hout & Hh1)].
    - rewrite Hh1. by eapply node_post_refl.
    - by eapply node_post_string. }
  destruct ((ch =? ch_minus) || is_digit ch).
  { destruct (parse_number_inv _ _ _ _ _ _ H Hc) as (c' & Hh & Hsc).
    by eapply node_post_scalar. }
  destruct (ch =? ch_lbracket).
  { eapply parse_array_spec; [|exact H | exact Hc | exact Hpre]. exact IH. }
  destruct (ch =? ch_lbrace).
  { eapply parse_object_spec; [|exact H | exact Hc | exact Hpre]. exact IH. }
  minv1. hinv. match goal with H : heap _ = heap s |- _ => rewrite H end.
  by eapply node_post_refl.
Qed.

End ParserFacts.

Lemma lookup_heap_minus h D a :
  heap_minus h D !! a = if decide (a ∈ D) then None else h !! a.
Proof.
  unfold heap_minus. apply option_eq. intros x.
  rewrite map_lookup_filter_Some. simpl.
  case_decide; naive_solver.
Qed.

Lemma bind_ok {A B} (m : M A) (k : A -> M B) s a s' :
  m s = Ok a s' -> bind m k s = k a s'.
Proof. unfold bind. intros ->. reflexivity. Qed.

Lemma load_ok a c s : heap s !! a = Some (Node c) -> load a s = Ok c s.
Proof. unfold load. intros ->. reflexivity. Qed.

Lemma free_ok a s :
  is_Some (heap s !! a) ->
  cJSON_free a s = Ok tt (mkState (delete a (heap s)) (ep s) (oracle s)).
Proof. unfold cJSON_free. intros [b ->]. reflexivity. Qed.

Lemma chain_rep_None h D pv items : chain_rep h D pv None items -> D = ∅ /\ items = [].
Proof. inversion 1. done. Qed.

Lemma free_str h D k s :
  heap s = h -> str_rep h D k ->
  match k with Some v => cJSON_free v | None => ret tt end s
  = Ok tt (mkState (heap_minus h D) (ep s) (oracle s)).
Proof.
  intros <- Hk. destruct k as [v|]; simpl in Hk.
  - destruct Hk as [-> (cap & chars & Hv)]. rewrite free_ok by eauto.
    f_equal. f_equal. apply map_eq. intros i. rewrite lookup_heap_minus.
    case_decide as Hi.
    + apply elem_of_singleton in Hi as ->. apply lookup_delete_eq.
    + rewrite lookup_delete_ne; [done | set_solver].
  - subst D. unfold ret. destruct s; simpl. f_equal. f_equal.
    apply map_eq. intros i. rewrite lookup_heap_minus. case_decide; set_solver.
Qed.

Lemma heap_minus_minus h D1 D2 : heap_minus (heap_minus h D1) D2 = heap_minus h (D1 ∪ D2).
Proof.
  apply map_eq. intros i. rewrite !lookup_heap_minus.
  repeat case_decide; try done; set_solver.
Qed.

Lemma heap_minus_empty h : heap_minus h ∅ = h.
Proof.
  apply map_eq. intros i. rewrite lookup_heap_minus. case_decide; set_solver.
Qed.

Lemma delete_heap_minus a h : delete a h = heap_minus h {[a]}.
Proof.
  apply map_eq. intros i. rewrite lookup_heap_minus. case_decide as Hi.
  - apply elem_of_singleton in Hi as ->. apply lookup_delete_eq.
  - rewrite lookup_delete_ne; [done | set_solver].
Qed.

Lemma state_eta s : mkState (heap s) (ep s) (oracle s) = s.
Proof. destruct s; reflexivity. Qed.

Lemma Delete_fuel_None fuel s : cJSON_Delete_fuel fuel None s = Ok tt s.
Proof. destruct fuel; reflexivity. Qed.

Lemma chain_rep_minus h D X pv p items :
  chain_rep h D pv p items -> D ## X -> chain_rep (heap_minus h X) D pv p items.
Proof.
  intros H Hd. eapply chain_rep_frame; [done|].
  intros a Ha. rewrite lookup_heap_minus. case_decide; [set_solver | done].
Qed.

Lemma str_rep_minus h D X k :
  str_rep h D k -> D ## X -> str_rep (heap_minus h X) D k.
Proof.
  intros H Hd. eapply str_rep_frame; [done|].
  intros a Ha. rewrite lookup_heap_minus. case_decide; [set_solver | done].
Qed.

Lemma cJSON_Delete_fuel_chain fuel : forall s D pv p items,
  chain_rep (heap s) D pv p items ->
  (size D < fuel)%nat ->
  cJSON_Delete_fuel fuel p s = Ok tt (mkState (heap_minus (heap s) D) (ep s) (oracle s)).
Proof.
  induction fuel as [|fuel IH]; intros s D pv p items Hrep Hsz; [lia|].
  inversion Hrep as [pv0 | pv0 a c Dk Dr items0 Ha Hpv Hr Hk Hrest Hn Hd
                 | pv0 a c Dk Dv Dc Dr kids items0 Ha Hpv Hr Hk Hv Hkids Hrest Hn Hd1 Hd2 Hd3]; subst.
  - simpl. unfold ret. rewrite heap_minus_empty, state_eta. done.
  - assert (Hsz' : (size Dr < fuel)%nat).
    { rewrite !size_union in Hsz by set_solver. rewrite size_singleton in Hsz. lia. }
    cbn [cJSON_Delete_fuel].
    rewrite (bind_ok _ _ _ _ _ (load_ok _ _ _ Ha)).
    rewrite Hr. cbn [negb andb].
    rewrite (bind_ok _ _ s tt s) by reflexivity.
    rewrite (bind_ok _ _ _ _ _ (load_ok _ _ _ Ha)).
    rewrite Hr. cbn [negb].
    rewrite (bind_ok _ _ s tt s) by reflexivity.
    rewrite (bind_ok _ _ _ _ _ (load_ok _ _ _ Ha)).
    erewrite bind_ok; [| eapply free_str; [reflexivity | exact Hk]].
    erewrite bind_ok; [| apply free_ok; simpl; rewrite lookup_heap_minus;
                         case_decide; [exfalso; set_solver | eauto]].
    simpl. erewrite IH; [| simpl | exact Hsz'].
    + simpl. rewrite delete_heap_minus, !heap_minus_minus. do 3 f_equal. set_solver.
    + rewrite delete_heap_minus, heap_minus_minus. apply chain_rep_minus; [done | set_solver].
  - assert (Hsz1 : (size Dc < fuel)%nat /\ (size Dr < fuel)%nat).
    { rewrite !size_union in Hsz by set_solver. rewrite size_singleton in Hsz. lia. }
    destruct Hsz1 as [Hszc Hszr].
    cbn [cJSON_Delete_fuel].
    rewrite (bind_ok _ _ _ _ _ (load_ok _ _ _ Ha)).
    rewrite Hr. cbn [negb andb].
    erewrite (bind_ok _ _ s tt).
    2:{ transitivity (cJSON_Delete_fuel fuel (child c) s).
        - destruct (child c); [reflexivity | by rewrite Delete_fuel_None].
        - eapply IH; [exact Hkids | exact Hszc]. }
    erewrite bind_ok; [| apply load_ok; simpl; rewrite lookup_heap_minus;
                         case_decide; [exfalso; set_solver | exact Ha]].
    rewrite Hr. cbn [negb].
    erewrite bind_ok; [| eapply free_str; [reflexivity |];
                         simpl; apply str_rep_minus; [exact Hv | set_solver]].
    erewrite bind_ok; [| apply load_ok; simpl; rewrite heap_minus_minus, lookup_heap_minus;
                         case_decide; [exfalso; set_solver | exact Ha]].
    erewrite bind_ok; [| eapply free_str; [reflexivity |];
                         simpl; rewrite heap_minus_minus; apply str_rep_minus; [exact Hk | set_solver]].
    erewrite bind_ok; [| apply free_ok; simpl; rewrite !heap_minus_minus, lookup_heap_minus;
                         case_decide; [exfalso; set_solver | eauto]].
    simpl. erewrite IH; [| simpl | exact Hszr].
    + simpl. rewrite delete_heap_minus, !heap_minus_minus. do 3 f_equal. set_solver.
    + rewrite delete_heap_minus, !heap_minus_minus. apply chain_rep_minus; [done | set_solver].
Qed.

Lemma cJSON_Delete_chain s D pv p items :
  chain_rep (heap s) D pv p items ->
  cJSON_Delete p s = Ok tt (mkState (heap_minus (heap s) D) (ep s) (oracle s)).
Proof.
  intros H. unfold cJSON_Delete. eapply cJSON_Delete_fuel_chain; [exact H|].
  apply chain_rep_dom in H. apply subseteq_size in H. rewrite size_dom in H. lia.
Qed.

(** After a parse that returns a node, the node heads a well-formed tree made
    of fresh blocks; the same holds of the partial tree of a failed parse. *)
Lemma node_post_tree h h' item c :
  h !! item = Some (Node c) -> string c = None -> next c = None ->
  node_post h h' item ->
  exists D its,
    chain_rep h' ({[item]} ∪ D) (prev c) (Some item) its /\
    D ## dom h /\ dom h' = dom h ∪ D /\
    (forall a, a ∈ dom h -> a <> item -> h' !! a = h !! a).
Proof.
  intros Hi Hs Hn (c0 & c' & Dv & Dc & kids & H1 & H2 & H3 & H4 & H5 & H6 & H7 & H8 & H9 & H10).
  rewrite Hi in H1. injection H1 as <-.
  destruct H7 as (Hsame & Hdom & Hdisj).
  assert (item ∈ dom h) by (apply elem_of_dom; eauto).
  exists (Dv ∪ Dc), [(item, unlink c', ∅ ∪ Dv ∪ Dc)].
  split; [|done].
  replace ({[item]} ∪ (Dv ∪ Dc)) with ({[item]} ∪ (∅ ∪ Dv ∪ Dc) ∪ ∅) by set_solver.
  eapply chain_own; [exact H2 | done | done | | exact H9 | exact H10 | | | | |].
  - by rewrite H5, Hs.
  - rewrite H3, Hn. constructor.
  - set_solver.
  - set_solver.
  - set_solver.
  - set_solver.
Qed.

Lemma parse_with_length_failure pow mem value len s s' :
  cJSON_ParseWithLength pow mem value len s = Ok None s' -> heap s' = heap s.
Proof.
  unfold cJSON_ParseWithLength. intros H.
  destruct value as [p|]; [|by apply ret_inv in H as [_ ->]].
  destruct (len =? 0); [by apply ret_inv in H as [_ ->]|].
  apply bind_inv in H as (c & s1 & Hal & H). unfold cJSON_New_Item in Hal.
  apply malloc_inv in Hal as [[-> Hh1]|(a & -> & Hfresh & Hh1)].
  { apply ret_inv in H as [_ ->]. done. }
  apply bind_inv in H as (u & s2 & Hep & H). apply set_ep_inv in Hep.
  apply bind_inv in H as (v & s3 & Hsk & H). apply skip_inv in Hsk as ->.
  apply bind_inv in H as (e & s3 & Hpv & H).
  destruct e as [e|]; [apply ret_inv in H as [? _]; discriminate|].
  apply bind_inv in H as (u' & s4 & Hdel & H). apply ret_inv in H as [_ ->].
  assert (Ha : heap s2 !! a = Some (Node zero_node)).
  { rewrite Hep, Hh1. apply lookup_insert_eq. }
  pose proof (parse_value_spec _ _ _ _ _ _ _ _ _ Hpv Ha) as Hpost.
  eapply node_post_tree in Hpost; [| exact Ha | reflexivity | reflexivity | by repeat split].
  destruct Hpost as (D & its & Hrep & Hdisj & Hdom & Hsame).
  rewrite (cJSON_Delete_chain _ _ _ _ _ Hrep) in Hdel. injection Hdel as _ <-. simpl.
  assert (Hd2 : dom (heap s2) = {[a]} ∪ dom (heap s)) by (rewrite Hep, Hh1; apply dom_insert_L).
  apply map_eq. intros i. rewrite lookup_heap_minus. case_decide as Hi.
  - symmetry. apply not_elem_of_dom. rewrite Hd2 in Hdisj. set_solver.
  - destruct (decide (i ∈ dom (heap s))) as [Hin|Hnin].
    + rewrite Hsame; [| rewrite Hd2; set_solver | set_solver].
      rewrite Hep, Hh1. apply lookup_insert_ne. set_solver.
    + rewrite (proj1 (not_elem_of_dom _ _) Hnin). apply not_elem_of_dom.
      rewrite Hdom, Hd2. set_solver.
Qed.

Lemma strlen_loop_inv l : forall n s r s', strlen_loop l n s = Ok r s' -> s' = s.
Proof.
  induction l as [|c l IH]; intros n s r s' H; simpl in H; [discriminate|].
  destruct (c =? 0); [by apply ret_inv in H as [_ ->]|by eapply IH].
Qed.

(** C7.  Whenever an entry point of the parser, [cJSON_ParseWithLength] or
    [cJSON_Parse], returns [NULL] (the text is malformed, or an allocation
    fails on the way), the heap is what it was before the call: every node
    and every string allocated during the attempt has been released. *)
Theorem parse_failure_releases pow mem value len s s' :
  cJSON_ParseWithLength pow mem value len s = Ok None s' \/
  cJSON_Parse pow mem value s = Ok None s' ->
  heap s' = heap s.
Proof.
  intros [H|H]; [by eapply parse_with_length_failure|].
  unfold cJSON_Parse in H. apply bind_inv in H as (n & s1 & Hlen & H).
  assert (s1 = s) as ->.
  { destruct value; [by eapply strlen_loop_inv|by apply ret_inv in Hlen as [_ ->]]. }
  by eapply parse_with_length_failure.
Qed.

Lemma chain_rep_items h D pv p items :
  chain_rep h D pv p items ->
  forall b cb Db, (b, cb, Db) ∈ items -> b ∈ D /\ Db ⊆ D.
Proof.
  induction 1 as [pv | pv a c Dk Dr items Ha Hpv Hr Hk _ IH Hn Hd
                 | pv a c Dk Dv Dc Dr kids items Ha Hpv Hr Hk Hv _ IHc _ IHr Hn Hd1 Hd2 Hd3];
    intros b cb Db Hin.
  - by apply elem_of_nil in Hin.
  - apply elem_of_cons in Hin as [[= -> -> ->]|Hin]; [set_solver|].
    destruct (IH _ _ _ Hin). set_solver.
  - apply elem_of_cons in Hin as [[= -> -> ->]|Hin]; [set_solver|].
    destruct (IHr _ _ _ Hin). set_solver.
Qed.

(** C6.  [cJSON_Delete] called on a node that heads a chain of siblings
    releases that node with everything it owns (key, string, children) and,
    in the same call, every sibling that follows it with everything it owns:
    afterwards none of the addresses of the chain is allocated, and the rest
    of the heap is untouched. *)
Theorem delete_cascades_through_siblings s D pv a items :
  chain_rep (heap s) D pv (Some a) items ->
  exists s',
    cJSON_Delete (Some a) s = Ok tt s' /\
    ep s' = ep s /\ oracle s' = oracle s /\
    (forall b cb Db, (b, cb, Db) ∈ items ->
       heap s' !! b = None /\ forall x, x ∈ Db -> heap s' !! x = None) /\
    (forall x, x ∈ D -> heap s' !! x = None) /\
    (forall x, x ∉ D -> heap s' !! x = heap s !! x).
Proof.
  intros Hrep. eexists. split; [by eapply cJSON_Delete_chain|]. simpl.
  split; [done|]. split; [done|]. split; [|split].
  - intros b cb Db Hin. destruct (chain_rep_items _ _ _ _ _ Hrep _ _ _ Hin) as [Hb Hsub].
    split; [|intros x Hx]; rewrite lookup_heap_minus; case_decide; set_solver.
  - intros x Hx. rewrite lookup_heap_minus. by case_decide.
  - intros x Hx. rewrite lookup_heap_minus. by case_decide.
Qed.

Lemma unlink_fields c c' :
  unlink c = unlink c' ->
  child c = child c' /\ type c = type c' /\ valuestring c = valuestring c' /\
  string c = string c' /\ is_reference c = is_reference c'.
Proof.
  unfold unlink, set_next, set_prev, is_reference. simpl. intros [= H1 H2 H3 H4 H5 H6].
  rewrite H2. done.
Qed.

Lemma chain_cons_owns h a c Da Dr items :
  h !! a = Some (Node c) -> owns h Da c ->
  chain_rep h Dr (Some a) (next c) items ->
  a ∉ Da ∪ Dr -> Da ## Dr ->
  chain_rep h ({[a]} ∪ Da ∪ Dr) (prev c) (Some a) ((a, unlink c, Da) :: items).
Proof.
  intros Ha [[Hr Hk]|[Hr (Dk & Dv & Dc & kids & -> & Hk & Hv & Hc & Hd1 & Hd2)]] Hrest Hn Hd.
  - by apply chain_ref.
  - eapply chain_own; done.
Qed.

Lemma chain_cons_inv h D pv a it items :
  chain_rep h D pv (Some a) (it :: items) ->
  exists c Da Dr,
    it = (a, unlink c, Da) /\ D = {[a]} ∪ Da ∪ Dr /\
    h !! a = Some (Node c) /\ prev c = pv /\ owns h Da c /\
    chain_rep h Dr (Some a) (next c) items /\ (a ∉ Da ∪ Dr) /\ Da ## Dr.
Proof.
  inversion 1 as [| pv0 a0 c Dk Dr items0 Ha Hpv Hr Hk Hrest Hn Hd
                 | pv0 a0 c Dk Dv Dc Dr kids items0 Ha Hpv Hr Hk Hv Hkids Hrest Hn Hd1 Hd2 Hd3];
    subst.
  - exists c, Dk, Dr. repeat (split; [done|]). split; [by left|]. done.
  - exists c, (Dk ∪ Dv ∪ Dc), Dr. repeat (split; [done|]).
    split; [right; split; [done|]; by exists Dk, Dv, Dc, kids|].
    split; [set_solver | done].
Qed.

Lemma chain_nil_inv h D pv p : chain_rep h D pv p [] -> D = ∅ /\ p = None.
Proof. inversion 1. done. Qed.

Lemma owns_frame h h' Da c c' :
  owns h Da c -> (forall x, x ∈ Da -> h' !! x = h !! x) -> unlink c' = unlink c ->
  owns h' Da c'.
Proof.
  intros Ho Hag Hu. apply unlink_fields in Hu as (Hc & _ & Hv & Hs & Hr).
  destruct Ho as [[Hr' Hk]|[Hr' (Dk & Dv & Dc & kids & -> & Hk & Hvs & Hch & Hd1 & Hd2)]].
  - left. split; [congruence|]. rewrite Hs. by eapply str_rep_frame.
  - right. split; [congruence|]. exists Dk, Dv, Dc, kids. split; [done|].
    rewrite Hs, Hv, Hc. split; [|split; [|split; [|done]]].
    + eapply str_rep_frame; [done|]. intros; apply Hag; set_solver.
    + eapply str_rep_frame; [done|]. intros; apply Hag; set_solver.
    + eapply chain_rep_frame; [done|]. intros; apply Hag; set_solver.
Qed.

Lemma owns_dom h Da c : owns h Da c -> Da ⊆ dom h.
Proof.
  intros [[_ Hk]|[_ (Dk & Dv & Dc & kids & -> & Hk & Hvs & Hch & _)]].
  - by eapply str_rep_dom.
  - apply str_rep_dom in Hk, Hvs. apply chain_rep_dom in Hch. set_solver.
Qed.

Lemma chain_rep_head h D pv p items : chain_rep h D pv p items -> p = head_addr items.
Proof. by inversion 1. Qed.

Lemma unlink_set_prev v c : unlink (set_prev v c) = unlink c.
Proof. by destruct c. Qed.
Lemma unlink_set_next v c : unlink (set_next v c) = unlink c.
Proof. by destruct c. Qed.

(** Changing the [prev] link of the head of a chain. *)
Lemma chain_set_prev h h' D pv pv' p items :
  chain_rep h D pv p items ->
  (forall x, x ∈ D -> p <> Some x -> h' !! x = h !! x) ->
  (forall x cx, p = Some x -> h !! x = Some (Node cx) ->
                h' !! x = Some (Node (set_prev pv' cx))) ->
  chain_rep h' D pv' p items.
Proof.
  intros Hrep Hag Hhd. destruct items as [|it items].
  - apply chain_nil_inv in Hrep as [-> ->]. constructor.
  - pose proof (chain_rep_head _ _ _ _ _ Hrep) as Hp. destruct it as [[x cx0] Dx].
    simpl in Hp. subst p.
    apply chain_cons_inv in Hrep
      as (cx & Da & Dr & [= -> ->] & -> & Hx & Hpv & Ho & Hrest & Hn & Hd).
    rewrite <- (unlink_set_prev pv' cx).
    replace pv' with (prev (set_prev pv' cx)) at 1 by reflexivity.
    apply chain_cons_owns.
    + by apply Hhd.
    + eapply owns_frame; [exact Ho | | apply unlink_set_prev].
      intros y Hy. apply Hag; [set_solver|]. intros [= ->]. set_solver.
    + simpl. eapply chain_rep_frame; [exact Hrest|].
      intros y Hy. apply Hag; [set_solver|]. intros [= ->]. set_solver.
    + done.
    + done.
Qed.

Lemma chain_unlink l1 : forall h D pv p a ca Da l2,
  chain_rep h D pv p (l1 ++ (a, ca, Da) :: l2) ->
  exists c,
    h !! a = Some (Node c) /\ unlink c = ca /\ owns h Da c /\
    a ∈ D /\ Da ⊆ D /\ (a ∉ Da) /\
    prev c = last_addr pv l1 /\ next c = head_addr l2 /\
    (l1 <> [] -> exists q cq, prev c = Some q /\ h !! q = Some (Node cq) /\
                              q ∈ D /\ (q ∉ ({[a]} ∪ Da : gset addr))) /\
    (forall x, next c = Some x ->
       exists cx, h !! x = Some (Node cx) /\ x ∈ D /\ (x ∉ ({[a]} ∪ Da : gset addr)) /\
                  (l1 <> [] -> prev c <> Some x)) /\
    (forall h',
       (forall x, x ∈ D -> x ∉ ({[a]} ∪ Da : gset addr) ->
                  (l1 <> [] -> prev c <> Some x) -> next c <> Some x ->
                  h' !! x = h !! x) ->
       (l1 <> [] -> forall q cq, prev c = Some q -> h !! q = Some (Node cq) ->
                    h' !! q = Some (Node (set_next (next c) cq))) ->
       (forall x cx, next c = Some x -> h !! x = Some (Node cx) ->
                     h' !! x = Some (Node (set_prev (prev c) cx))) ->
       chain_rep h' (D ∖ ({[a]} ∪ Da)) pv (head_addr (l1 ++ l2)) (l1 ++ l2)).
Proof.
  induction l1 as [|it1 l1 IH]; intros h D pv p a ca Da l2 Hrep.
  - simpl in Hrep. pose proof (chain_rep_head _ _ _ _ _ Hrep) as Hp. simpl in Hp. subst p.
    apply chain_cons_inv in Hrep
      as (c & Da' & Dr & [= -> ->] & -> & Ha & Hpv & Ho & Hrest & Hn & Hd).
    pose proof (chain_rep_head _ _ _ _ _ Hrest) as Hnx.
    exists c. split; [done|]. split; [done|]. split; [done|].
    split; [set_solver|]. split; [set_solver|]. split; [set_solver|].
    split; [done|]. split; [done|]. split; [done|]. split.
    + intros x Hx. rewrite Hx in Hrest. destruct l2 as [|it2 l2]; [by inversion Hrest|].
      apply chain_cons_inv in Hrest as (cx & Dx & Dr2 & _ & -> & Hcx & _).
      exists cx. split; [done|]. split; [set_solver|]. split; [set_solver | done].
    + intros h' Hag _ Hsucc. simpl.
      replace (({[a]} ∪ Da' ∪ Dr) ∖ ({[a]} ∪ Da')) with Dr by set_solver.
      rewrite <- Hnx. rewrite <- Hpv.
      eapply chain_set_prev; [exact Hrest | |].
      * intros x Hx Hne. apply Hag; [set_solver | set_solver | done | done].
      * intros x cx Hx Hcx. by apply Hsucc.
  - simpl in Hrep. pose proof (chain_rep_head _ _ _ _ _ Hrep) as Hp.
    destruct it1 as [[b cb0] Db]. simpl in Hp. subst p.
    apply chain_cons_inv in Hrep
      as (cb & Db' & Dr & [= -> ->] & -> & Hb & Hpv & Ho & Hrest & Hn & Hd).
    destruct (IH _ _ _ _ _ _ _ _ Hrest)
      as (c & Ha & Hu & Hoa & HaD & HDa & HaDa & Hprev & Hnext & Hpred & Hsucc & Hfin).
    pose proof (chain_rep_head _ _ _ _ _ Hrest) as Hnb.
    assert (Hpb : exists q cq, prev c = Some q /\ h !! q = Some (Node cq) /\
                    q ∈ ({[b]} ∪ Dr : gset addr) /\ (q ∉ ({[a]} ∪ Da : gset addr)) /\
                    (l1 = [] -> q = b)).
    { destruct l1 as [|it l1].
      - simpl in Hprev. exists b, cb. split; [done|]. split; [done|].
        split; [set_solver|]. split; [set_solver | done].
      - destruct Hpred as (q & cq & H1 & H2 & H3 & H4); [done|].
        exists q, cq. split; [done|]. split; [done|]. split; [set_solver|]. split; [done|].
        intros [=]. }
    destruct Hpb as (q & cq & Hq1 & Hq2 & Hq3 & Hq4 & Hq5).
    exists c. split; [done|]. split; [done|]. split; [done|].
    split; [set_solver|]. split; [set_solver|]. split; [done|].
    split; [done|]. split; [done|]. split; [|split].
    + intros _. exists q, cq. split; [done|]. split; [done|]. split; [set_solver | done].
    + intros x Hx. destruct (Hsucc x Hx) as (cx & H1 & H2 & H3 & H4).
      exists cx. split; [done|]. split; [set_solver|]. split; [done|].
      intros _. destruct l1 as [|it l1]; [|by apply H4].
      rewrite Hq1, (Hq5 eq_refl). intros [= ->]. set_solver.
    + intros h' Hag Hpu Hsu.
      assert (Hrest' : chain_rep h' (Dr ∖ ({[a]} ∪ Da)) (Some b)
                         (head_addr (l1 ++ l2)) (l1 ++ l2)).
      { apply Hfin.
        - intros x Hx Hx' Hx1 Hx2. apply Hag; [set_solver | done | | done].
          intros _. destruct l1 as [|it l1]; [|by apply Hx1].
          rewrite Hq1, (Hq5 eq_refl). intros [= ->]. set_solver.
        - intros Hne. by apply Hpu.
        - done. }
      assert (Hqx : forall x, next c = Some x -> x ∈ Dr).
      { intros x Hx. destruct (Hsucc x Hx) as (cx & H1 & H2 & H3 & H4). done. }
      assert (Hb' : exists cb', h' !! b = Some (Node cb') /\ unlink cb' = unlink cb /\
                      prev cb' = pv /\ next cb' = head_addr (l1 ++ l2)).
      { destruct l1 as [|it l1].
        - exists (set_next (next c) cb). rewrite (Hq5 eq_refl) in Hq1.
          split; [apply Hpu; done|]. split; [apply unlink_set_next|].
          split; [done|]. simpl. done.
        - exists cb. split; [|split; [done|split; [done|]]].
          + rewrite <- Hb. apply Hag; [set_solver | set_solver | |].
            * intros _. rewrite Hq1. intros [= ->]. set_solver.
            * intros Hx. apply Hqx in Hx. set_solver.
          + rewrite Hnb. by destruct it as [[? ?] ?]. }
      destruct Hb' as (cb' & Hb1 & Hb2 & Hb3 & Hb4).
      simpl. rewrite <- Hb2. rewrite <- Hb3.
      replace (({[b]} ∪ Db' ∪ Dr) ∖ ({[a]} ∪ Da)) with ({[b]} ∪ Db' ∪ (Dr ∖ ({[a]} ∪ Da)))
        by set_solver.
      apply chain_cons_owns.
      * done.
      * eapply owns_frame; [exact Ho | | done].
        intros x Hx. apply Hag; [set_solver | set_solver | |].
        -- intros _. rewrite Hq1. intros [= ->]. set_solver.
        -- intros Hx'. apply Hqx in Hx'. set_solver.
      * by rewrite Hb4.
      * set_solver.
      * set_solver.
Qed.

Lemma modify_ok a f c s :
  heap s !! a = Some (Node c) ->
  modify a f s = Ok tt (mkState (<[a := Node (f c)]> (heap s)) (ep s) (oracle s)).
Proof.
  intros H. unfold modify. rewrite (bind_ok _ _ _ _ _ (load_ok _ _ _ H)).
  unfold store. by rewrite H.
Qed.

Lemma modify_opt o f s :
  (forall q, o = Some q -> exists cq, heap s !! q = Some (Node cq)) ->
  exists s1,
    match o with Some p => modify p f | None => ret tt end s = Ok tt s1 /\
    ep s1 = ep s /\ oracle s1 = oracle s /\ dom (heap s1) = dom (heap s) /\
    (forall x, o <> Some x -> heap s1 !! x = heap s !! x) /\
    (forall q cq, o = Some q -> heap s !! q = Some (Node cq) ->
                  heap s1 !! q = Some (Node (f cq))).
Proof.
  intros H. destruct o as [p|].
  - destruct (H p eq_refl) as [cq Hq]. eexists. split; [by apply modify_ok|]. simpl.
    split_and!; [done | done | | |].
    + rewrite dom_insert_L. assert (p ∈ dom (heap s)) by (apply elem_of_dom; eauto). set_solver.
    + intros x Hx. apply lookup_insert_ne. congruence.
    + intros q cq' [= <-] Hq'. rewrite Hq in Hq'. injection Hq' as <-. apply lookup_insert_eq.
  - exists s. split; [done|]. repeat split; try done.
Qed.

Lemma nth_sibling_chain n : forall items D pv p it s fuel,
  chain_rep (heap s) D pv p items -> items !! n = Some it -> (n < fuel)%nat ->
  nth_sibling fuel p (Z.of_nat n) s = Ok (Some it.1.1) s.
Proof.
  induction n as [|n IH]; intros items D pv p it s fuel Hrep Hit Hf.
  - destruct items as [|it0 items]; [done|]. injection Hit as ->.
    pose proof (chain_rep_head _ _ _ _ _ Hrep) as ->. destruct it as [[a ca] Da]. simpl.
    by destruct fuel.
  - destruct items as [|it0 items]; [done|]. simpl in Hit.
    pose proof (chain_rep_head _ _ _ _ _ Hrep) as Hp. destruct it0 as [[b cb0] Db].
    simpl in Hp. subst p.
    apply chain_cons_inv in Hrep as (cb & Db' & Dr & _ & _ & Hb & _ & _ & Hrest & _).
    destruct fuel as [|fuel]; [lia|].
    cbn [nth_sibling]. replace (0 <? Z.of_nat (S n)) with true by (symmetry; apply Z.ltb_lt; lia).
    rewrite (bind_ok _ _ _ _ _ (load_ok _ _ _ Hb)).
    replace (Z.of_nat (S n) - 1) with (Z.of_nat n) by lia.
    eapply IH; [exact Hrest | exact Hit | lia].
Qed.

Lemma chain_rep_length h D pv p items : chain_rep h D pv p items -> (length items <= size D)%nat.
Proof.
  induction 1; simpl.
  - lia.
  - rewrite !size_union, size_singleton by set_solver. lia.
  - rewrite size_union by set_solver. rewrite (size_union {[a]}) by set_solver.
    rewrite size_singleton. lia.
Qed.

Lemma last_addr_in l1 : forall pv, l1 <> [] ->
  exists it, it ∈ l1 /\ last_addr pv l1 = Some it.1.1.
Proof.
  induction l1 as [|[[b cb] Db] l1 IH]; intros pv Hne; [done|]. simpl.
  destruct l1 as [|it l1].
  - exists (b, cb, Db). split; [set_solver | done].
  - destruct (IH (Some b)) as (it' & Hin & Heq); [done|].
    exists it'. split; [set_solver | done].
Qed.

Lemma head_addr_in (l2 : list item) x :
  head_addr l2 = Some x -> exists it, it ∈ l2 /\ it.1.1 = x.
Proof.
  destruct l2 as [|[[b cb] Db] l2]; [done|]. intros [= <-].
  exists (b, cb, Db). split; [set_solver | done].
Qed.

Lemma set_child_id c : set_child (child c) c = c.
Proof. by destruct c. Qed.

Lemma get_heap_ok s : get_heap s = Ok (heap s) s.
Proof. done. Qed.

Lemma detach_chain s arr A D items n a ca Da :
  heap s !! arr = Some (Node A) ->
  chain_rep (heap s) D None (child A) items -> arr ∉ D ->
  items !! n = Some (a, ca, Da) ->
  exists s' c,
    cJSON_DetachItemFromArray (Some arr) (Z.of_nat n) s = Ok (Some a) s' /\
    ep s' = ep s /\ oracle s' = oracle s /\ dom (heap s') = dom (heap s) /\
    heap s !! a = Some (Node c) /\ unlink c = ca /\
    heap s' !! a = Some (Node (set_prev None (set_next None c))) /\
    owns (heap s') Da (set_prev None (set_next None c)) /\
    (a ∉ Da) /\ {[a]} ∪ Da ⊆ D /\
    heap s' !! arr = Some (Node (set_child (head_addr (delete n items)) A)) /\
    chain_rep (heap s') (D ∖ ({[a]} ∪ Da)) None
      (head_addr (delete n items)) (delete n items) /\
    (forall x, x <> arr -> (forall it, it ∈ items -> x <> it.1.1) ->
               heap s' !! x = heap s !! x).
Proof.
  intros Harr Hrep HarrD Hit. unfold item in *.
  pose proof (chain_rep_head _ _ _ _ _ Hrep) as Hhd.
  pose proof (take_drop_middle _ _ _ Hit) as Hmid.
  pose proof (chain_rep_length _ _ _ _ _ Hrep) as Hlen.
  pose proof (chain_rep_dom _ _ _ _ _ Hrep) as Hsub.
  pose proof (lookup_lt_Some _ _ _ Hit) as Hn.
  assert (Hfuel : (n < S (size (heap s)))%nat).
  { apply subseteq_size in Hsub. rewrite size_dom in Hsub. unfold item in *. lia. }
  pose proof (nth_sibling_chain _ _ _ _ _ _ _ _ Hrep Hit Hfuel) as Hnth. simpl in Hnth.
  rewrite delete_take_drop.
  generalize dependent (drop (S n) items). generalize dependent (take n items).
  intros l1 l2 Hmid.
  assert (Hitems : forall it, it ∈ l1 \/ it ∈ l2 -> it ∈ items).
  { intros it [H|H]; rewrite <- Hmid; set_solver. }
  rewrite <- Hmid in Hrep, Hhd.
  destruct (chain_unlink _ _ _ _ _ _ _ _ _ Hrep)
    as (c & Ha & Hu & Ho & HaD & HDa & HaDa & Hprev & Hnext & Hpred & Hsucc & Hfin).
  assert (Haarr : a <> arr) by (intros ->; done).
  assert (Hpa : forall q, prev c = Some q ->
            exists cq, heap s !! q = Some (Node cq) /\ q <> a /\ q <> arr /\
                       next c <> Some q /\ (exists it, it ∈ items /\ it.1.1 = q) /\
                       (q ∉ Da) /\ l1 <> []).
  { intros q Hq. destruct l1 as [|it0 l1']; [simpl in Hprev; congruence|].
    destruct Hpred as (q' & cq & H1 & H2 & H3 & H4); [done|].
    rewrite Hq in H1. injection H1 as <-.
    exists cq. split; [done|]. split; [set_solver|]. split; [set_solver|].
    split.
    { intros Hx. destruct (Hsucc _ Hx) as (cx & _ & _ & _ & H5). by apply H5. }
    split; [|split; [set_solver | done]].
    destruct (last_addr_in (it0 :: l1') None) as (it & Hin & Heq); [done|].
    exists it. split; [apply Hitems; by left|].
    rewrite <- Hprev, Hq in Heq. by injection Heq. }
  assert (Hxa : forall x, next c = Some x ->
            exists cx, heap s !! x = Some (Node cx) /\ x <> a /\ x <> arr /\
                       prev c <> Some x /\ (exists it, it ∈ items /\ it.1.1 = x) /\
                       (x ∉ Da)).
  { intros x Hx. destruct (Hsucc _ Hx) as (cx & H1 & H2 & H3 & H4).
    exists cx. split; [done|]. split; [set_solver|]. split; [set_solver|].
    split.
    { intros Hq. destruct (Hpa _ Hq) as (_ & _ & _ & _ & H5 & _). done. }
    split; [|set_solver].
    rewrite Hnext in Hx. destruct (head_addr_in _ _ Hx) as (it & Hin & Heq).
    exists it. split; [apply Hitems; by right | done]. }
  (* the run of the code *)
  destruct (modify_opt (prev c) (set_next (next c)) s)
    as (s1 & E1 & Hep1 & Hor1 & Hd1 & Hne1 & Heq1).
  { intros q Hq. destruct (Hpa _ Hq) as (cq & ? & _). eauto. }
  assert (Ha1 : heap s1 !! a = Some (Node c)).
  { rewrite Hne1; [done|]. intros Hq. destruct (Hpa _ Hq) as (_ & _ & ? & _). done. }
  destruct (modify_opt (next c) (set_prev (prev c)) s1)
    as (s2 & E2 & Hep2 & Hor2 & Hd2 & Hne2 & Heq2).
  { intros x Hx. destruct (Hxa _ Hx) as (cx & ? & _ & _ & ? & _).
    exists cx. by rewrite Hne1. }
  assert (Ha2 : heap s2 !! a = Some (Node c)).
  { rewrite Hne2; [done|]. intros Hx. destruct (Hxa _ Hx) as (_ & _ & ? & _). done. }
  assert (Harr2 : heap s2 !! arr = Some (Node A)).
  { rewrite Hne2, Hne1; [done | |].
    - intros Hq. destruct (Hpa _ Hq) as (_ & _ & _ & ? & _). done.
    - intros Hx. destruct (Hxa _ Hx) as (_ & _ & _ & ? & _). done. }
  set (A' := if bool_decide (child A = Some a) then set_child (next c) A else A).
  set (s3 := mkState (<[arr := Node A']> (heap s2)) (ep s2) (oracle s2)).
  assert (E3 : (if bool_decide (child A = Some a)
                then modify arr (set_child (next c)) else ret tt) s2 = Ok tt s3).
  { unfold s3, A'. case_bool_decide.
    - by apply modify_ok.
    - unfold ret. rewrite insert_id by done. by rewrite state_eta. }
  assert (Ha3 : heap s3 !! a = Some (Node c)).
  { unfold s3. simpl. by rewrite lookup_insert_ne. }
  pose proof (modify_ok a (set_next None) c s3 Ha3) as E4.
  set (s4 := mkState (<[a := Node (set_next None c)]> (heap s3)) (ep s3) (oracle s3)) in E4.
  assert (Ha4 : heap s4 !! a = Some (Node (set_next None c))) by apply lookup_insert_eq.
  pose proof (modify_ok a (set_prev None) _ s4 Ha4) as E5.
  set (s5 := mkState _ (ep s4) (oracle s4)) in E5.
  assert (Hl5 : forall x, x <> a -> x <> arr -> heap s5 !! x = heap s2 !! x).
  { intros x H1 H2. unfold s5, s4, s3. simpl. by rewrite !lookup_insert_ne. }
  exists s5, c. split.
  { cbn [cJSON_DetachItemFromArray].
    rewrite (bind_ok _ _ _ _ _ (load_ok _ _ _ Harr)).
    rewrite (bind_ok _ _ _ _ _ (get_heap_ok s)).
    rewrite (bind_ok _ _ _ _ _ Hnth).
    rewrite (bind_ok _ _ _ _ _ (load_ok _ _ _ Ha)).
    rewrite (bind_ok _ _ _ _ _ E1).
    rewrite (bind_ok _ _ _ _ _ (load_ok _ _ _ Ha1)).
    rewrite (bind_ok _ _ _ _ _ E2).
    rewrite (bind_ok _ _ _ _ _ (load_ok _ _ _ Harr2)).
    rewrite (bind_ok _ _ _ _ _ (load_ok _ _ _ Ha2)).
    rewrite (bind_ok _ _ _ _ _ E3).
    rewrite (bind_ok _ _ _ _ _ E4).
    rewrite (bind_ok _ _ _ _ _ E5). reflexivity. }
  assert (Hframe : forall x, x <> arr -> (forall it, it ∈ items -> x <> it.1.1) ->
                     heap s5 !! x = heap s !! x).
  { intros x Hx Hni.
    assert (x <> a) by (apply (Hni (a, ca, Da)); by eapply list_elem_of_lookup_2).
    rewrite Hl5, Hne2, Hne1; [done | | | done | done].
    - intros Hq. destruct (Hpa _ Hq) as (_ & _ & _ & _ & _ & (it & Hin & Heq) & _).
      by apply (Hni it).
    - intros Hq. destruct (Hxa _ Hq) as (_ & _ & _ & _ & _ & (it & Hin & Heq) & _).
      by apply (Hni it). }
  assert (Hag : forall x, x <> a -> x <> arr -> prev c <> Some x -> next c <> Some x ->
                  heap s5 !! x = heap s !! x).
  { intros x H1 H2 H3 H4. by rewrite Hl5, Hne2, Hne1. }
  split_and!; try done.
  - simpl. congruence.
  - simpl. congruence.
  - unfold s5, s4, s3. simpl. rewrite !dom_insert_L, Hd2, Hd1.
    assert (arr ∈ dom (heap s)) by (apply elem_of_dom; eauto).
    assert (a ∈ dom (heap s)) by (apply elem_of_dom; eauto). set_solver.
  - apply lookup_insert_eq.
  - eapply owns_frame; [exact Ho | | by destruct c].
    intros x Hx. apply Hag.
    + intros ->. done.
    + intros ->. set_solver.
    + intros Hq. destruct (Hpa _ Hq) as (_ & _ & _ & _ & _ & _ & ? & _). done.
    + intros Hq. destruct (Hxa _ Hq) as (_ & _ & _ & _ & _ & _ & ?). done.
  - set_solver.
  - unfold s5, s4. simpl. rewrite !lookup_insert_ne by done. unfold s3. simpl.
    rewrite lookup_insert_eq. do 2 f_equal. unfold A'.
    destruct l1 as [|[[b cb] Db] l1'].
    + simpl in Hhd. rewrite bool_decide_eq_true_2 by done. simpl. by rewrite Hnext.
    + simpl in Hhd. rewrite bool_decide_eq_false_2.
      * simpl. rewrite <- Hhd. by rewrite set_child_id.
      * assert (Hrep' := Hrep). rewrite Hhd in Hrep'. simpl in Hrep'.
        apply chain_cons_inv in Hrep' as (? & ? & Dr & _ & _ & _ & _ & _ & Hrest & Hnn & _).
        assert ((a, ca, Da) ∈ l1' ++ (a, ca, Da) :: l2) as Hin by set_solver.
        destruct (chain_rep_items _ _ _ _ _ Hrest _ _ _ Hin).
        rewrite Hhd. intros [= ->]. set_solver.
  - apply Hfin.
    + intros x Hx Hx' Hp Hnx. apply Hag; [set_solver | set_solver | | done].
      intros Hq. destruct (Hpa _ Hq) as (_ & _ & _ & _ & _ & _ & _ & Hne). by apply Hp.
    + intros Hne q cq Hq Hcq. destruct (Hpa _ Hq) as (cq' & H1 & H2 & H3 & H4 & _).
      rewrite Hl5, Hne2 by done. by apply Heq1.
    + intros x cx Hx Hcx. destruct (Hxa _ Hx) as (cx' & H1 & H2 & H3 & H4 & _).
      rewrite Hl5 by done. apply Heq2; [done|]. by rewrite Hne1.
Qed.

(** C10.  [cJSON_DeleteItemFromArray] at an index within the list of
    children releases exactly the child at that index and what it owns: the
    other children stay in the container, in their order, with consistent
    [prev] and [next] links, and no other block of the heap changes. *)
Theorem delete_item_frees_exactly_one s arr A D items which a ca Da :
  heap s !! arr = Some (Node A) ->
  chain_rep (heap s) D None (child A) items -> arr ∉ D ->
  0 <= which -> items !! Z.to_nat which = Some (a, ca, Da) ->
  exists s',
    cJSON_DeleteItemFromArray (Some arr) which s = Ok tt s' /\
    ep s' = ep s /\ oracle s' = oracle s /\
    dom (heap s') = dom (heap s) ∖ ({[a]} ∪ Da) /\
    heap s' !! arr = Some (Node (set_child (head_addr (delete (Z.to_nat which) items)) A)) /\
    chain_rep (heap s') (D ∖ ({[a]} ∪ Da)) None
      (head_addr (delete (Z.to_nat which) items)) (delete (Z.to_nat which) items) /\
    (forall x, x <> arr -> (forall it, it ∈ items -> x <> it.1.1) -> x ∉ Da ->
               heap s' !! x = heap s !! x).
Proof.
  intros Harr Hrep HarrD Hw Hit.
  destruct (detach_chain _ _ _ _ _ _ _ _ _ Harr Hrep HarrD Hit)
    as (s1 & c & E & Hep & Hor & Hdom & Ha & Hu & Ha1 & Ho & HaDa & Hsub & Harr1 & Hrep1 & Hfr).
  rewrite Z2Nat.id in E by done.
  assert (Hone : chain_rep (heap s1) ({[a]} ∪ Da ∪ ∅) None (Some a)
                   [(a, unlink (set_prev None (set_next None c)), Da)]).
  { apply (chain_cons_owns _ _ (set_prev None (set_next None c))); [done | done | | |].
    - constructor.
    - set_solver.
    - set_solver. }
  pose proof (cJSON_Delete_chain _ _ _ _ _ Hone) as Hdel.
  eexists. split.
  { unfold cJSON_DeleteItemFromArray. rewrite (bind_ok _ _ _ _ _ E). exact Hdel. }
  simpl. split_and!; try done.
  - apply set_eq. intros x. rewrite elem_of_dom, lookup_heap_minus, elem_of_difference.
    rewrite <- Hdom, elem_of_dom. case_decide as Hx.
    + split; [by intros [? ?] | intros [_ Hn]; set_solver].
    + split; [intros ?; split; [done | set_solver] | by intros [? _]].
  - rewrite lookup_heap_minus. case_decide as Hx; [|done]. set_solver.
  - apply chain_rep_minus; [done | set_solver].
  - intros x Hx Hni HxDa. rewrite lookup_heap_minus. case_decide as Hx'.
    + exfalso. assert (x = a) as -> by set_solver.
      apply (Hni (a, ca, Da)); [by eapply list_elem_of_lookup_2 | done].
    + by apply Hfr.
Qed.

Section Nested.
Variable pow : double -> double -> double.
Variable mem : list Z.

Lemma peek_ok p c s : mem !! p = Some c -> peek mem p s = Ok c s.
Proof. unfold peek. intros ->. done. Qed.

Lemma skip_stop p c s :
  mem !! p = Some c -> (c =? 0) || (32 <? c) = true -> skip mem (Some p) s = Ok (Some p) s.
Proof.
  intros Hp Hc. unfold skip. rewrite (drop_S _ _ _ Hp). cbn [skip_loop].
  replace (negb (c =? 0) && (c <=? 32)) with false; [done|].
  symmetry. apply orb_true_iff in Hc as [Hc|Hc].
  - by rewrite Hc.
  - apply Z.ltb_lt in Hc. apply andb_false_iff. right. apply Z.leb_gt. lia.
Qed.

Lemma match_lit_mismatch x lit p c s :
  mem !! p = Some c -> c <> x -> match_lit mem (x :: lit) p s = Ok false s.
Proof.
  intros Hp Hc. cbn [match_lit]. rewrite (bind_ok _ _ _ _ _ (peek_ok _ _ _ Hp)).
  by apply Z.eqb_neq in Hc as ->.
Qed.

Lemma literals_mismatch p s :
  mem !! p = Some ch_lbracket ->
  match_lit mem lit_null p s = Ok false s /\
  match_lit mem lit_false p s = Ok false s /\
  match_lit mem lit_true p s = Ok false s.
Proof. intros Hp. split_and!; by eapply match_lit_mismatch. Qed.

Lemma New_Item_ok s :
  oracle s = [] ->
  exists a, (a ∉ dom (heap s)) /\
    cJSON_New_Item s = Ok (Some a) (mkState (<[a := Node zero_node]> (heap s)) (ep s) []).
Proof.
  intros Ho. exists (fresh (dom (heap s))). split; [apply is_fresh|].
  unfold cJSON_New_Item, cJSON_malloc. by rewrite Ho.
Qed.

Lemma parse_nested n : forall fuel p item c s,
  (forall i, (i <= n)%nat -> mem !! (p + i)%nat = Some ch_lbracket) ->
  (forall i, (i <= n)%nat -> mem !! (p + S n + i)%nat = Some ch_rbracket) ->
  heap s !! item = Some (Node c) -> oracle s = [] -> (n < fuel)%nat ->
  exists s', parse_value pow mem fuel item (Some p) s = Ok (Some (p + 2 * S n)%nat) s'.
Proof.
  induction n as [|n IH]; intros fuel p item c s Hl Hr Hitem Hor Hfuel.
  all: destruct fuel as [|fuel]; [lia|].
  all: pose proof (Hl O ltac:(lia)) as Hp; rewrite Nat.add_0_r in Hp.
  all: cbn [parse_value].
  all: destruct (literals_mismatch p s Hp) as (E1 & E2 & E3).
  all: rewrite (bind_ok _ _ _ _ _ E1), (bind_ok _ _ _ _ _ E2), (bind_ok _ _ _ _ _ E3).
  all: rewrite (bind_ok _ _ _ _ _ (peek_ok _ _ _ Hp)).
  all: cbn [Z.eqb ch_lbracket ch_quote ch_minus is_digit ch_0 ch_9 Z.leb Z.compare
            Pos.compare Pos.compare_cont orb andb Pos.eqb].
  all: unfold parse_array.
  all: rewrite (bind_ok _ _ _ _ _ (peek_ok _ _ _ Hp)).
  all: cbn [Z.eqb ch_lbracket Pos.eqb negb].
  all: rewrite (bind_ok _ _ _ _ _ (modify_ok _ _ _ _ Hitem)).
  all: set (s1 := mkState _ (ep s) (oracle s)).
  - pose proof (Hr O ltac:(lia)) as Hq. replace (p + 1 + 0)%nat with (S p) in Hq by lia.
    rewrite (bind_ok _ _ _ _ _ (skip_stop _ _ s1 Hq ltac:(done))).
    cbn [deref]. rewrite (bind_ok _ _ s1 _ s1) by done.
    rewrite (bind_ok _ _ _ _ _ (peek_ok _ _ _ Hq)).
    cbn [Z.eqb ch_rbracket Pos.eqb]. exists s1. unfold ret. do 2 f_equal. lia.
  - pose proof (Hl 1%nat ltac:(lia)) as Hq. replace (p + 1)%nat with (S p) in Hq by lia.
    rewrite (bind_ok _ _ _ _ _ (skip_stop _ _ s1 Hq ltac:(done))).
    cbn [deref]. rewrite (bind_ok _ _ s1 _ s1) by done.
    rewrite (bind_ok _ _ _ _ _ (peek_ok _ _ _ Hq)).
    cbn [Z.eqb ch_rbracket ch_lbracket Pos.eqb].
    destruct (New_Item_ok s1 Hor) as (a & Ha & Ealloc).
    rewrite (bind_ok _ _ _ _ _ Ealloc).
    set (s2 := mkState _ (ep s1) []) in *.
    assert (Hia : item <> a).
    { intros ->. apply Ha. unfold s1. simpl. rewrite dom_insert_L. set_solver. }
    assert (Hi2 : heap s2 !! item = Some (Node (set_type cJSON_Array c))).
    { unfold s2, s1. simpl. rewrite lookup_insert_ne by done. apply lookup_insert_eq. }
    rewrite (bind_ok _ _ _ _ _ (modify_ok _ _ _ _ Hi2)).
    set (s3 := mkState _ (ep s2) (oracle s2)).
    rewrite (bind_ok _ _ _ _ _ (skip_stop _ _ s3 Hq ltac:(done))).
    destruct (IH fuel (S p) a zero_node s3) as (s4 & E4).
    { intros i Hi. replace (S p + i)%nat with (p + S i)%nat by lia. apply Hl. lia. }
    { intros i Hi. replace (S p + S n + i)%nat with (p + S (S n) + i)%nat by lia.
      apply Hr. lia. }
    { unfold s3, s2. simpl. rewrite lookup_insert_ne by done. apply lookup_insert_eq. }
    { done. }
    { lia. }
    rewrite (bind_ok _ _ _ _ _ E4).
    pose proof (Hr (S n) ltac:(lia)) as Hend.
    replace (p + S (S n) + S n)%nat with (S p + 2 * S n)%nat in Hend by lia.
    rewrite (bind_ok _ _ _ _ _ (skip_stop _ _ s4 Hend ltac:(done))).
    assert (Eloop : parse_array_loop mem (parse_value pow mem fuel) (S (length mem)) a
                      (S p + 2 * S n) s4 = Ok (Some (S p + 2 * S n)%nat) s4).
    { cbn [parse_array_loop]. rewrite (bind_ok _ _ _ _ _ (peek_ok _ _ _ Hend)). done. }
    rewrite (bind_ok _ _ _ _ _ Eloop).
    rewrite (bind_ok _ _ _ _ _ (peek_ok _ _ _ Hend)).
    cbn [Z.eqb ch_rbracket Pos.eqb]. exists s4. unfold ret. do 2 f_equal. lia.
Qed.
End Nested.

Lemma strlen_loop_ok l1 : forall l2 n s,
  Forall (fun c => c <> 0) l1 ->
  strlen_loop (l1 ++ 0 :: l2) n s = Ok (n + Z.of_nat (length l1)) s.
Proof.
  induction l1 as [|c l1 IH]; intros l2 n s Hall; simpl.
  - unfold ret. f_equal. lia.
  - inversion Hall as [|? ? Hc Hall']; subst. apply Z.eqb_neq in Hc as ->.
    rewrite IH by done. f_equal. lia.
Qed.

Lemma nested_lookup_l n i : (i < n)%nat -> nested n !! i = Some ch_lbracket.
Proof.
  intros Hi. unfold nested. rewrite lookup_app_l by (rewrite length_replicate; lia).
  by apply lookup_replicate_2.
Qed.

Lemma nested_lookup_r n i : (i < n)%nat -> nested n !! (n + i)%nat = Some ch_rbracket.
Proof.
  intros Hi. unfold nested. rewrite lookup_app_r by (rewrite length_replicate; lia).
  rewrite length_replicate. replace (n + i - n)%nat with i by lia.
  rewrite lookup_app_l by (rewrite length_replicate; lia).
  by apply lookup_replicate_2.
Qed.

(** C1.  No bound on the nesting depth is enforced: for every [n], the
    array nested [n + 1] levels deep is parsed to a tree by [cJSON_Parse];
    the parse fails neither at [CJSON_NESTING_LIMIT] nor at any other
    depth. *)
Theorem parse_nested_unbounded pow n :
  exists c s', cJSON_Parse pow (nested (S n)) (Some O) empty_state = Ok (Some c) s'.
Proof.
  unfold cJSON_Parse.
  assert (Elen : strlen_loop (drop 0 (nested (S n))) 0 empty_state
                 = Ok (Z.of_nat (2 * S n)) empty_state).
  { rewrite drop_0. unfold nested. rewrite app_assoc.
    rewrite strlen_loop_ok.
    - f_equal. rewrite length_app, !length_replicate. lia.
    - apply Forall_app. split; apply Forall_forall; intros x Hx;
        apply elem_of_replicate in Hx as [-> _]; done. }
  rewrite (bind_ok _ _ _ _ _ Elen).
  unfold cJSON_ParseWithLength.
  replace (Z.of_nat (2 * S n) =? 0) with false by (symmetry; apply Z.eqb_neq; lia).
  destruct (New_Item_ok empty_state eq_refl) as (a & Ha & Ealloc).
  rewrite (bind_ok _ _ _ _ _ Ealloc).
  set (s1 := mkState _ _ _).
  rewrite (bind_ok (set_ep None) _ s1 tt (mkState (heap s1) None (oracle s1))) by done.
  set (s2 := mkState _ _ _).
  assert (H0 : nested (S n) !! O = Some ch_lbracket) by (apply nested_lookup_l; lia).
  rewrite (bind_ok _ _ _ _ _ (skip_stop _ _ _ s2 H0 ltac:(done))).
  destruct (parse_nested pow (nested (S n)) n (S (length (nested (S n)))) O a zero_node s2)
    as (s3 & E).
  - intros i Hi. apply nested_lookup_l. lia.
  - intros i Hi. replace (0 + S n + i)%nat with (S n + i)%nat by lia.
    apply nested_lookup_r. lia.
  - apply lookup_insert_eq.
  - done.
  - unfold nested. rewrite !length_app, !length_replicate. simpl. lia.
  - rewrite (bind_ok _ _ _ _ _ E). by exists a, s3.
Qed.

Lemma digits2_size p : digits2_pos p = Pos.size p.
Proof. induction p; simpl; congruence. Qed.

Lemma iter_xO_Z m k : Z.pos (Pos.iter xO m k) = Z.pos m * 2 ^ Z.pos k.
Proof.
  revert m. induction k using Pos.peano_ind; intros m.
  - simpl. lia.
  - rewrite Pos.iter_succ. rewrite Pos2Z.inj_xO, IHk.
    rewrite Pos2Z.inj_succ, Z.pow_succ_r by lia. lia.
Qed.

Lemma digits_bounds m : 2 ^ (Z.pos (digits2_pos m) - 1) <= Z.pos m < 2 ^ Z.pos (digits2_pos m).
Proof.
  rewrite digits2_size. split.
  - pose proof (Pos.size_le m) as H.
    assert (Z.pos (2 ^ Pos.size m) <= Z.pos m~0) by (apply Pos2Z.pos_le_pos; exact H).
    rewrite Pos2Z.inj_pow in H0.
    replace (Z.pos (Pos.size m)) with (Z.succ (Z.pos (Pos.size m) - 1)) in H0 by lia.
    rewrite Z.pow_succ_r in H0 by lia.
    change (Z.pos m~0) with (2 * Z.pos m) in H0. change (Z.pos 2) with 2 in H0. lia.
  - pose proof (Pos.size_gt m) as H.
    assert (Z.pos m < Z.pos (2 ^ Pos.size m)) by (apply Pos2Z.pos_lt_pos; exact H).
    by rewrite Pos2Z.inj_pow in H0.
Qed.

(** The number of digits is determined by the two bounds. *)
Lemma digits_unique m d : 0 < d -> 2 ^ (d - 1) <= Z.pos m < 2 ^ d -> Z.pos (digits2_pos m) = d.
Proof.
  intros Hd [Hl Hu]. destruct (digits_bounds m) as [Hl' Hu'].
  assert (Hlt : forall a b, 0 <= a -> 0 <= b -> 2 ^ a < 2 ^ b -> a < b).
  { intros a b Ha Hb H. apply Z.pow_lt_mono_r_iff in H; lia. }
  assert (d - 1 < Z.pos (digits2_pos m)) by (apply Hlt; lia).
  assert (Z.pos (digits2_pos m) - 1 < d) by (apply Hlt; lia).
  lia.
Qed.

Lemma digits_shift m k : digits2_pos (Pos.iter xO m k) = (digits2_pos m + k)%positive.
Proof.
  apply Pos2Z.inj. apply digits_unique; [lia|].
  rewrite iter_xO_Z. destruct (digits_bounds m) as [Hl Hu].
  rewrite Pos2Z.inj_add.
  replace (Z.pos (digits2_pos m) + Z.pos k - 1) with (Z.pos (digits2_pos m) - 1 + Z.pos k) by lia.
  rewrite !Z.pow_add_r by lia. split; nia.
Qed.

Lemma iter_pos_iter {A : Type} (f : A -> A) (n : positive) :
  forall x : A, @SpecFloat.iter_pos A f n x = @Pos.iter A f x n.
Proof.
  induction n as [n IH|n IH|]; intros x; simpl.
  - rewrite !IH. by rewrite !Pos.iter_swap.
  - by rewrite !IH.
  - done.
Qed.

Lemma shr_exact k : forall q,
  SpecFloat.iter_pos shr_1 k (Build_shr_record (Z.pos (Pos.iter xO q k)) false false)
  = Build_shr_record (Z.pos q) false false.
Proof.
  intros q. rewrite (iter_pos_iter shr_1 k). revert q.
  induction k using Pos.peano_ind; intros q.
  - reflexivity.
  - rewrite Pos.iter_succ, Pos.iter_succ_r, IHk. reflexivity.
Qed.

Lemma Z_max_fexp e : -1021 <= e -> fexp dprec demax e = e - 53.
Proof. intros H. unfold fexp, emin, dprec, demax. change IntDef.Z.max with Z.max. lia. Qed.

(** Rounding a mantissa that is a 53-digit number followed by [k] zero bits
    is exact. *)
Lemma round_aux_shifted s q k e :
  Z.pos (digits2_pos q) = 53 -> -1074 <= e + Z.pos k -> e + Z.pos k <= 971 ->
  binary_round_aux dprec demax s (Z.pos (Pos.iter xO q k)) e loc_Exact
  = S754_finite s q (e + Z.pos k).
Proof.
  intros Hq Hlo Hhi. unfold binary_round_aux, shr_fexp.
  cbn [Zdigits2 shr_record_of_loc]. rewrite digits_shift, Pos2Z.inj_add, Hq.
  rewrite Z_max_fexp by lia.
  replace (53 + Z.pos k + e - 53 - e) with (Z.pos k) by lia.
  cbn [shr]. rewrite shr_exact. cbn [shr_m loc_of_shr_record round_nearest_even Zdigits2 shr_record_of_loc].
  rewrite Hq, Z_max_fexp by lia.
  replace (53 + (e + Z.pos k) - 53 - (e + Z.pos k)) with 0 by lia.
  cbn [shr shr_m]. unfold dprec, demax.
  destruct (Z.leb_spec (e + Z.pos k) (1024 - 53)); [done|lia].
Qed.

Lemma round_aux_exact s q e :
  Z.pos (digits2_pos q) = 53 -> -1074 <= e -> e <= 971 ->
  binary_round_aux dprec demax s (Z.pos q) e loc_Exact = S754_finite s q e.
Proof.
  intros Hq Hlo Hhi. unfold binary_round_aux, shr_fexp.
  cbn [Zdigits2 shr_record_of_loc]. rewrite Hq.
  rewrite Z_max_fexp by lia.
  replace (53 + e - 53 - e) with 0 by lia.
  cbn [shr shr_m loc_of_shr_record round_nearest_even Zdigits2 shr_record_of_loc].
  rewrite Hq, Z_max_fexp by lia.
  replace (53 + e - 53 - e) with 0 by lia.
  cbn [shr shr_m]. unfold dprec, demax.
  destruct (Z.leb_spec e (1024 - 53)); [done|lia].
Qed.


Lemma digits_small m : Z.pos m < 2 ^ 52 -> Z.pos (digits2_pos m) <= 52.
Proof.
  intros H. destruct (digits_bounds m) as [Hl _].
  assert (2 ^ (Z.pos (digits2_pos m) - 1) < 2 ^ 52) as Hp by lia.
  apply Z.pow_lt_mono_r_iff in Hp; lia.
Qed.

Lemma digits_mono a b : Z.pos a <= Z.pos b -> Z.pos (digits2_pos a) <= Z.pos (digits2_pos b).
Proof.
  intros H. destruct (digits_bounds a) as [Hl _]. destruct (digits_bounds b) as [_ Hu].
  assert (2 ^ (Z.pos (digits2_pos a) - 1) < 2 ^ Z.pos (digits2_pos b)) as Hp by lia.
  apply Z.pow_lt_mono_r_iff in Hp; lia.
Qed.

Lemma digits_mul a b :
  Z.pos (digits2_pos a) + Z.pos (digits2_pos b) - 1 <= Z.pos (digits2_pos (a * b)).
Proof.
  destruct (digits_bounds a) as [Ha _]. destruct (digits_bounds b) as [Hb _].
  destruct (digits_bounds (a * b)) as [_ Hu].
  assert (2 ^ (Z.pos (digits2_pos a) - 1 + (Z.pos (digits2_pos b) - 1))
          < 2 ^ Z.pos (digits2_pos (a * b))) as Hp.
  { rewrite Z.pow_add_r by lia. rewrite Pos2Z.inj_mul in Hu.
    assert (0 < 2 ^ (Z.pos (digits2_pos a) - 1)) by (apply Z.pow_pos_nonneg; lia).
    assert (0 < 2 ^ (Z.pos (digits2_pos b) - 1)) by (apply Z.pow_pos_nonneg; lia).
    nia. }
  apply Z.pow_lt_mono_r_iff in Hp; lia.
Qed.

(** A mantissa [P] with exponent [e <= 0] whose value [P * 2^e] is the
    integer [c], and which has at least 53 digits, rounds to the canonical
    double of [c]. *)
Lemma round_to_int s P e c :
  Z.pos c < 2 ^ 52 -> e <= 0 -> Z.pos P = Z.pos c * 2 ^ (- e) ->
  53 - Z.pos (digits2_pos c) <= - e ->
  binary_round_aux dprec demax s (Z.pos P) e loc_Exact = int_double s c.
Proof.
  intros Hc He HP Hk. pose proof (digits_small c Hc) as Hd.
  set (kc := Z.to_pos (53 - Z.pos (digits2_pos c))).
  assert (Hkc : Z.pos kc = 53 - Z.pos (digits2_pos c)) by (unfold kc; lia).
  set (q := Pos.iter xO c kc).
  assert (Hq : Z.pos (digits2_pos q) = 53).
  { unfold q. rewrite digits_shift, Pos2Z.inj_add. lia. }
  unfold int_double. fold kc. fold q.
  destruct (Z.eq_dec (- e) (Z.pos kc)) as [E|E].
  - assert (P = q) as ->.
    { apply Pos2Z.inj. unfold q. rewrite iter_xO_Z, HP, E. done. }
    rewrite round_aux_exact by lia. f_equal. lia.
  - set (k := Z.to_pos (- e - Z.pos kc)).
    assert (Hk' : Z.pos k = - e - Z.pos kc) by (unfold k; lia).
    assert (P = Pos.iter xO q k) as ->.
    { apply Pos2Z.inj. unfold q. rewrite !iter_xO_Z, HP, Hk'.
      rewrite <- Z.mul_assoc, <- Z.pow_add_r by lia. f_equal. f_equal. lia. }
    rewrite round_aux_shifted by lia. f_equal. lia.
Qed.

Lemma double_of_int_pos m : Z.pos m < 2 ^ 52 -> double_of_int (Z.pos m) = int_double false m.
Proof.
  intros Hm. pose proof (digits_small m Hm) as Hd.
  unfold double_of_int, binary_normalize, binary_round.
  rewrite Z_max_fexp by lia. unfold shl_align.
  destruct (Z.pos (digits2_pos m) + 0 - 53 - 0) as [|p|p] eqn:E; try lia.
  apply round_to_int; try lia.
  rewrite iter_xO_Z. f_equal. f_equal. lia.
Qed.

Lemma double_of_int_neg m : Z.pos m < 2 ^ 52 -> double_of_int (Z.neg m) = int_double true m.
Proof.
  intros Hm. pose proof (digits_small m Hm) as Hd.
  unfold double_of_int, binary_normalize, binary_round.
  rewrite Z_max_fexp by lia. unfold shl_align.
  destruct (Z.pos (digits2_pos m) + 0 - 53 - 0) as [|p|p] eqn:E; try lia.
  apply round_to_int; try lia.
  rewrite iter_xO_Z. f_equal. f_equal. lia.
Qed.

Lemma int_double_value s m : Z.pos m < 2 ^ 52 ->
  exists P e, int_double s m = S754_finite s P e /\ e = Z.pos (digits2_pos m) - 53 /\
    e < 0 /\ Z.pos P = Z.pos m * 2 ^ (- e).
Proof.
  intros Hm. pose proof (digits_small m Hm) as Hd.
  eexists _, _. split; [reflexivity|]. split_and!; try lia.
  rewrite iter_xO_Z. f_equal. f_equal. lia.
Qed.

Lemma dmul_int sa sb a b : Z.pos (a * b) < 2 ^ 52 ->
  dmul (int_double sa a) (int_double sb b) = int_double (xorb sa sb) (a * b).
Proof.
  intros Hab.
  assert (Ha : Z.pos a < 2 ^ 52) by (rewrite Pos2Z.inj_mul in Hab; nia).
  assert (Hb : Z.pos b < 2 ^ 52) by (rewrite Pos2Z.inj_mul in Hab; nia).
  destruct (int_double_value sa a Ha) as (Pa & ea & -> & Eea & Hea & HPa).
  destruct (int_double_value sb b Hb) as (Pb & eb & -> & Eeb & Heb & HPb).
  unfold dmul, SFmul. pose proof (digits_mul a b).
  apply round_to_int; try lia.
  rewrite !Pos2Z.inj_mul, HPa, HPb.
  replace (- (ea + eb)) with (- ea + - eb) by lia.
  rewrite Z.pow_add_r by lia. ring.
Qed.

Lemma shl_align_Z mx ex ez : ez <= ex ->
  Z.pos (fst (shl_align mx ex ez)) = Z.pos mx * 2 ^ (ex - ez).
Proof.
  intros H. unfold shl_align. destruct (ez - ex) as [|p|p] eqn:E; try lia.
  - replace (ex - ez) with 0 by lia. simpl. lia.
  - simpl. rewrite iter_xO_Z. f_equal. f_equal. lia.
Qed.

Lemma dadd_int a b : Z.pos (a + b) < 2 ^ 52 ->
  dadd (int_double false a) (int_double false b) = int_double false (a + b).
Proof.
  intros Hab.
  assert (Ha : Z.pos a < 2 ^ 52) by lia.
  assert (Hb : Z.pos b < 2 ^ 52) by lia.
  destruct (int_double_value false a Ha) as (Pa & ea & -> & Eea & Hea & HPa).
  destruct (int_double_value false b Hb) as (Pb & eb & -> & Eeb & Heb & HPb).
  unfold dadd, SFadd. change IntDef.Z.min with Z.min. cbn [cond_Zopp].
  set (ez := Z.min ea eb).
  assert (Hza : ez <= ea) by (unfold ez; lia).
  assert (Hzb : ez <= eb) by (unfold ez; lia).
  pose proof (shl_align_Z Pa ea ez Hza) as Sa.
  pose proof (shl_align_Z Pb eb ez Hzb) as Sb.
  set (xa := fst (shl_align Pa ea ez)) in *. set (xb := fst (shl_align Pb eb ez)) in *.
  change (Z.pos xa + Z.pos xb) with (Z.pos (xa + xb)).
  assert (HS : Z.pos (xa + xb) = Z.pos (a + b) * 2 ^ (- ez)).
  { rewrite !Pos2Z.inj_add, Sa, Sb, HPa, HPb.
    rewrite <- !Z.mul_assoc, <- !Z.pow_add_r by lia.
    replace (- ea + (ea - ez)) with (- ez) by lia.
    replace (- eb + (eb - ez)) with (- ez) by lia. ring. }
  pose proof (digits_mono a (a + b) ltac:(lia)) as Ma.
  pose proof (digits_mono b (a + b) ltac:(lia)) as Mb.
  assert (Hdig : Z.pos (digits2_pos (xa + xb)) = Z.pos (digits2_pos (a + b)) + - ez).
  { assert (xa + xb = Pos.iter xO (a + b) (Z.to_pos (- ez)))%positive as ->.
    { apply Pos2Z.inj. rewrite HS, iter_xO_Z. f_equal. f_equal. lia. }
    rewrite digits_shift, Pos2Z.inj_add. lia. }
  unfold binary_normalize, binary_round. rewrite Hdig.
  rewrite Z_max_fexp by lia. unfold shl_align.
  destruct (Z.pos (digits2_pos (a + b)) + - ez + ez - 53 - ez) as [|p|p] eqn:E; try lia.
  - apply round_to_int; try lia.
  - apply round_to_int; try lia.
Qed.

Lemma double_to_int_int (s : bool) (m : positive) :
  in_int_range (if s then Z.neg m else Z.pos m) = true ->
  double_to_int (int_double s m) = Some (if s then Z.neg m else Z.pos m).
Proof.
  intros Hr.
  assert (Hm' : Z.pos m < 2 ^ 52).
  { unfold in_int_range, INT_MIN, INT_MAX in Hr. apply andb_true_iff in Hr as [H1 H2].
    apply Z.leb_le in H1. apply Z.leb_le in H2. destruct s; lia. }
  destruct (int_double_value s m Hm') as (P & e & -> & Ee & He & HP).
  unfold double_to_int.
  assert (Z.shiftl (Z.pos P) e = Z.pos m) as ->.
  { rewrite <- (Z.opp_involutive e) at 1. rewrite Z.shiftl_opp_r.
    rewrite Z.shiftr_div_pow2 by lia. rewrite HP.
    apply Z.div_mul. apply Z.pow_nonzero; lia. }
  destruct s; change (- Z.pos m) with (Z.neg m); by rewrite Hr.
Qed.

Lemma double_of_int_mul a b :
  0 <= a < 2 ^ 52 -> 0 <= b < 2 ^ 52 -> a * b < 2 ^ 52 ->
  dmul (double_of_int a) (double_of_int b) = double_of_int (a * b).
Proof.
  intros Ha Hb Hab. destruct a as [|a|a], b as [|b|b]; try lia; try reflexivity.
  - rewrite (double_of_int_pos b) by lia. reflexivity.
  - rewrite (double_of_int_pos a) by lia. reflexivity.
  - change (Z.pos a * Z.pos b) with (Z.pos (a * b)) in *.
    rewrite !double_of_int_pos by lia. by apply dmul_int.
Qed.

Lemma double_of_int_add a b :
  0 <= a -> 0 <= b -> a + b < 2 ^ 52 ->
  dadd (double_of_int a) (double_of_int b) = double_of_int (a + b).
Proof.
  intros Ha Hb Hab. destruct a as [|a|a], b as [|b|b]; try lia; try reflexivity.
  - rewrite Z.add_0_l. rewrite (double_of_int_pos b) by lia. reflexivity.
  - rewrite Z.add_0_r. rewrite (double_of_int_pos a) by lia. reflexivity.
  - change (Z.pos a + Z.pos b) with (Z.pos (a + b)) in *.
    rewrite !double_of_int_pos by lia. by apply dadd_int.
Qed.

Lemma decimal_ge ds : forall acc,
  Forall (fun d => 0 <= d <= 9) ds -> 0 <= acc -> acc <= decimal acc ds.
Proof.
  induction ds as [|d ds IH]; intros acc Hall Hacc; [simpl; lia|].
  inversion Hall as [|? ? Hd Hall']; subst.
  change (decimal acc (d :: ds)) with (decimal (acc * 10 + d) ds).
  specialize (IH (acc * 10 + d) Hall' ltac:(lia)). lia.
Qed.

Lemma number_digits_int ds : forall acc num scale rest t s,
  Forall (fun d => 0 <= d <= 9) ds -> 0 <= acc -> decimal acc ds < 2 ^ 52 ->
  is_digit t = false ->
  number_digits false (digit_chars ds ++ t :: rest) num (double_of_int acc) scale s
  = Ok (double_of_int (decimal acc ds), scale, (num + length ds)%nat) s.
Proof.
  induction ds as [|d ds IH]; intros acc num scale rest t s Hall Hacc Hv Ht.
  - simpl. rewrite Ht. unfold ret. do 2 f_equal. lia.
  - inversion Hall as [|? ? Hd Hall']; subst. cbn [digit_chars map app number_digits].
    assert (is_digit (ch_0 + d) = true) as ->.
    { unfold is_digit, ch_0, ch_9. apply andb_true_iff. split; apply Z.leb_le; lia. }
    replace (ch_0 + d - ch_0) with d by lia.
    pose proof (decimal_ge ds (acc * 10 + d) Hall' ltac:(lia)) as Hge.
    change (decimal acc (d :: ds)) with (decimal (acc * 10 + d) ds) in *.
    unfold d_ten. rewrite double_of_int_mul by lia. rewrite double_of_int_add by lia.
    rewrite (bind_ok _ _ s scale s) by done.
    fold (digit_chars ds). rewrite IH by (done || lia).
    do 2 f_equal. simpl. lia.
Qed.

Lemma is_decimal_inv ds : is_decimal ds = true ->
  Forall (fun d => 0 <= d <= 9) ds /\
  exists d ds', ds = d :: ds' /\ (ds' = [] \/ 1 <= d).
Proof.
  unfold is_decimal. intros H. apply andb_true_iff in H as [Hall Hhd]. split.
  - apply Forall_forall. intros x Hx. rewrite forallb_forall in Hall.
    apply list_elem_of_In in Hx. apply Hall in Hx. lia.
  - destruct ds as [|d [|d' ds']]; [done| |]; eexists _, _; split; try done.
    + by left.
    + right. lia.
Qed.

Lemma signed_value (neg : bool) v :
  0 <= v -> in_int_range (if neg then - v else v) = true ->
  let x := dmul (dmul (double_of_int (if neg then -1 else 1)) (double_of_int v))
             (double_of_int 1) in
  double_to_int x = Some (if neg then - v else v) /\
  (v <> 0 -> x = double_of_int (if neg then - v else v)).
Proof.
  intros Hv Hr x. subst x. destruct v as [|p|p]; [| |lia].
  - destruct neg; split; done.
  - assert (Hp : Z.pos p < 2 ^ 52).
    { unfold in_int_range, INT_MIN, INT_MAX in Hr. apply andb_true_iff in Hr as [H1 H2].
      apply Z.leb_le in H1. apply Z.leb_le in H2. destruct neg; lia. }
    rewrite (double_of_int_pos p Hp), (double_of_int_pos 1) by done.
    assert (double_of_int (if neg then -1 else 1) = int_double neg 1) as ->.
    { destruct neg; [by apply double_of_int_neg | by apply double_of_int_pos]. }
    rewrite dmul_int by (rewrite Pos.mul_1_l; done). rewrite Pos.mul_1_l.
    rewrite dmul_int by (rewrite Pos.mul_1_r; done). rewrite Pos.mul_1_r, xorb_false_r.
    split.
    + destruct neg; by apply double_to_int_int.
    + intros _. destruct neg.
      * change (- Z.pos p) with (Z.neg p). by rewrite double_of_int_neg.
      * by rewrite double_of_int_pos.
Qed.

Lemma double_to_int_of_int (s : bool) (m : positive) :
  Z.pos m < 2 ^ 52 ->
  double_to_int (int_double s m)
  = if in_int_range (if s then Z.neg m else Z.pos m)
    then Some (if s then Z.neg m else Z.pos m) else None.
Proof.
  intros Hm. destruct (int_double_value s m Hm) as (P & e & -> & Ee & He & HP).
  unfold double_to_int.
  assert (Z.shiftl (Z.pos P) e = Z.pos m) as ->.
  { rewrite <- (Z.opp_involutive e) at 1. rewrite Z.shiftl_opp_r.
    rewrite Z.shiftr_div_pow2 by lia. rewrite HP.
    apply Z.div_mul. apply Z.pow_nonzero; lia. }
  by destruct s.
Qed.

(** [sign * n * 1.0] for an integer [n] that binary64 holds exactly. *)
Lemma signed_double (neg : bool) v :
  0 <= v < 2 ^ 52 ->
  dmul (dmul (double_of_int (if neg then -1 else 1)) (double_of_int v)) (double_of_int 1)
  = if neg && (v =? 0) then S754_zero true else double_of_int (if neg then - v else v).
Proof.
  intros Hv. destruct v as [|p|p]; [| |lia].
  - by destruct neg.
  - rewrite andb_false_r.
    rewrite (double_of_int_pos p), (double_of_int_pos 1) by (done || lia).
    assert (double_of_int (if neg then -1 else 1) = int_double neg 1) as ->.
    { destruct neg; [by apply double_of_int_neg | by apply double_of_int_pos]. }
    rewrite dmul_int by (rewrite Pos.mul_1_l; lia). rewrite Pos.mul_1_l.
    rewrite dmul_int by (rewrite Pos.mul_1_r; lia). rewrite Pos.mul_1_r, xorb_false_r.
    destruct neg.
    + change (- Z.pos p) with (Z.neg p). rewrite double_of_int_neg; [done|lia].
    + rewrite double_of_int_pos; [done|lia].
Qed.

Lemma literal_double_to_int (neg : bool) v :
  0 <= v < 2 ^ 52 ->
  double_to_int (if neg && (v =? 0) then S754_zero true
                 else double_of_int (if neg then - v else v))
  = if in_int_range (if neg then - v else v)
    then Some (if neg then - v else v) else None.
Proof.
  intros Hv. destruct v as [|p|p]; [| |lia].
  - by destruct neg.
  - rewrite andb_false_r. destruct neg.
    + change (- Z.pos p) with (Z.neg p). rewrite double_of_int_neg by lia.
      apply (double_to_int_of_int true). lia.
    + rewrite double_of_int_pos by lia. apply (double_to_int_of_int false). lia.
Qed.

Section IntLiteral.
Variable pow : double -> double -> double.
Variable mem : list Z.
Hypothesis pow_zero : pow d_ten (double_of_int 0) = double_of_int 1.

Lemma drop_lookup {A} (l l' : list A) n i : drop n l = l' -> l !! (n + i)%nat = l' !! i.
Proof. intros <-. by rewrite lookup_drop. Qed.

Lemma not_digit_not_nonzero t : is_digit t = false -> (ch_1 <=? t) && (t <=? ch_9) = false.
Proof.
  unfold is_digit, ch_0, ch_1, ch_9. intros H. apply andb_false_iff in H.
  apply andb_false_iff. destruct H as [H|H]; apply Z.leb_gt in H; [left|right]; apply Z.leb_gt; lia.
Qed.

Lemma modify_insert a f c h e o :
  modify a f (mkState (<[a := Node c]> h) e o) = Ok tt (mkState (<[a := Node (f c)]> h) e o).
Proof.
  rewrite (modify_ok a f c) by apply lookup_insert_eq. cbn [heap ep oracle].
  by rewrite insert_insert_eq.
Qed.

(** What [parse_number] does on an integer literal that binary64 holds
    exactly. *)
Lemma parse_number_literal item num neg ds t rest c s :
  drop num mem = int_literal neg ds ++ t :: rest ->
  is_decimal ds = true -> is_digit t = false -> t <> ch_dot -> t <> 101 -> t <> 69 ->
  decimal 0 ds < 2 ^ 52 ->
  heap s !! item = Some (Node c) ->
  parse_number pow mem item num s
  = if in_int_range (int_value neg ds)
    then Ok (Some (num + length (int_literal neg ds))%nat)
           (mkState
              (<[item := Node (set_type cJSON_Number
                                 (set_valueint (int_value neg ds)
                                    (set_valuedouble
                                       (if neg && (int_value neg ds =? 0) then S754_zero true
                                        else double_of_int (int_value neg ds)) c)))]>
                 (heap s)) (ep s) (oracle s))
    else Fault BadCast.
Proof.
  intros Hmem Hdec Ht Hdot He HE Hbound Hitem.
  destruct (is_decimal_inv ds Hdec) as (Hall & d & ds' & -> & Hshape).
  inversion Hall as [|? ? Hd Hall']; subst.
  set (k := if neg then 1%nat else 0%nat).
  set (v := decimal 0 (d :: ds')) in *.
  assert (Hv0 : 0 <= v) by (unfold v; by apply decimal_ge).
  assert (Hlen : length (int_literal neg (d :: ds')) = (k + S (length ds'))%nat).
  { unfold int_literal, digit_chars, k. destruct neg; simpl; rewrite length_map; lia. }
  assert (Hdig : drop (num + k) mem = digit_chars (d :: ds') ++ t :: rest).
  { rewrite <- drop_drop, Hmem. unfold int_literal, k. by destruct neg. }
  assert (Hfirst : mem !! (num + k)%nat = Some (ch_0 + d)).
  { rewrite <- (Nat.add_0_r (num + k)). by rewrite (drop_lookup _ _ _ _ Hdig). }
  assert (Hterm : mem !! (num + k + S (length ds'))%nat = Some t).
  { rewrite (drop_lookup _ _ _ _ Hdig). rewrite lookup_app_r;
      unfold digit_chars; rewrite length_map; simpl; [|lia].
    by rewrite Nat.sub_diag. }
  assert (Hiv : int_value neg (d :: ds') = if neg then - v else v) by done.
  assert (Hz : (int_value neg (d :: ds') =? 0) = (v =? 0)).
  { rewrite Hiv. destruct neg; [|done]. destruct (Z.eqb_spec v 0), (Z.eqb_spec (- v) 0); lia. }
  rewrite Hz, Hiv.
  pose proof (signed_double neg v ltac:(lia)) as Hx.
  pose proof (literal_double_to_int neg v ltac:(lia)) as Hx1.
  set (x := if neg && (v =? 0) then S754_zero true
            else double_of_int (if neg then - v else v)) in *.
  (* the sign *)
  assert (Hsign : exists c0, peek mem num s = Ok c0 s /\
            (if c0 =? ch_minus then -1 else 1) = (if neg then -1 else 1) /\
            (if c0 =? ch_minus then S num else num) = (num + k)%nat).
  { destruct neg; unfold k.
    - exists ch_minus. split_and!; [|done|simpl; lia].
      apply peek_ok. rewrite <- (Nat.add_0_r num). by rewrite (drop_lookup _ _ _ _ Hmem).
    - exists (ch_0 + d). rewrite Nat.add_0_r in *. split_and!; [by apply peek_ok| |].
      all: unfold ch_0, ch_minus; destruct (Z.eqb_spec (48 + d) 45); (lia || done). }
  destruct Hsign as (c0 & E0 & Es & En).
  unfold parse_number. rewrite (bind_ok _ _ _ _ _ E0). rewrite Es, En. clear Es En E0 c0.
  rewrite (bind_ok _ _ _ _ _ (peek_ok _ _ _ s Hfirst)). cbv zeta.
  (* the digits *)
  destruct (Z.eqb_spec (ch_0 + d) ch_0) as [E|E].
  1: assert (d = 0) as -> by (unfold ch_0 in E; lia).
  1: destruct Hshape as [->|?]; [|lia].
  1: replace (S (num + k)) with (num + k + S (length (@nil Z)))%nat by (simpl; lia).
  1: rewrite (bind_ok _ _ _ _ _ (peek_ok _ _ _ s Hterm)).
  1: rewrite not_digit_not_nonzero by done.
  1: change d_zero with (double_of_int v).
  2: rewrite (bind_ok _ _ _ _ _ (peek_ok _ _ _ s Hfirst)).
  2: replace ((ch_1 <=? ch_0 + d) && (ch_0 + d <=? ch_9)) with true
       by (symmetry; unfold ch_0, ch_1, ch_9 in *; apply andb_true_iff; split; apply Z.leb_le; lia).
  2: rewrite Hdig; change d_zero with (double_of_int 0).
  2: rewrite (bind_ok _ _ _ _ _ (number_digits_int (d :: ds') 0 (num + k) 0 rest t s
                                   Hall ltac:(lia) Hbound Ht)).
  2: fold v; replace (num + k + length (d :: ds'))%nat with (num + k + S (length ds'))%nat
       by (simpl; lia).
  1: rewrite (bind_ok _ _ s (double_of_int v, 0, (num + k + S (length (@nil Z)))%nat) s) by done.
  all: rewrite (bind_ok _ _ _ _ _ (peek_ok _ _ _ s Hterm)).
  all: apply Z.eqb_neq in Hdot as ->.
  all: rewrite (bind_ok _ _ s (double_of_int v, 0, _) s) by done.
  all: rewrite (bind_ok _ _ _ _ _ (peek_ok _ _ _ s Hterm)).
  all: apply Z.eqb_neq in He as ->; apply Z.eqb_neq in HE as ->; cbn [orb].
  all: rewrite (bind_ok _ _ s (0, 1, _) s) by done.
  all: rewrite (bind_ok _ _ s 0 s) by done.
  all: rewrite (bind_ok _ _ s 0 s) by done.
  all: rewrite pow_zero, Hx.
  all: rewrite (bind_ok _ _ _ _ _ (modify_ok _ _ _ _ Hitem)).
  all: rewrite Hx1.
  all: destruct (in_int_range (if neg then - v else v)); [|reflexivity].
  all: rewrite (bind_ok _ _ _ _ _ (modify_insert _ _ _ _ _ _)).
  all: rewrite (bind_ok _ _ _ _ _ (modify_insert _ _ _ _ _ _)).
  all: unfold ret; rewrite Hlen, Nat.add_assoc; reflexivity.
Qed.

Lemma int_range_exact neg ds :
  is_decimal ds = true -> in_int_range (int_value neg ds) = true -> decimal 0 ds < 2 ^ 52.
Proof.
  intros Hdec Hr. destruct (is_decimal_inv ds Hdec) as (Hall & _).
  pose proof (decimal_ge ds 0 Hall ltac:(lia)).
  unfold in_int_range, INT_MIN, INT_MAX, int_value in Hr.
  apply andb_true_iff in Hr as [H1 H2]. apply Z.leb_le in H1. apply Z.leb_le in H2.
  destruct neg; lia.
Qed.

(** What [parse_number] does after the digits of an integer literal. *)
Lemma parse_number_int item num neg ds t rest c s :
  drop num mem = int_literal neg ds ++ t :: rest ->
  is_decimal ds = true -> is_digit t = false -> t <> ch_dot -> t <> 101 -> t <> 69 ->
  in_int_range (int_value neg ds) = true ->
  heap s !! item = Some (Node c) ->
  exists x,
    parse_number pow mem item num s
    = Ok (Some (num + length (int_literal neg ds))%nat)
         (mkState (<[item := Node (set_type cJSON_Number
                                     (set_valueint (int_value neg ds) (set_valuedouble x c)))]>
                     (heap s)) (ep s) (oracle s)) /\
    double_to_int x = Some (int_value neg ds) /\
    (int_value neg ds <> 0 -> x = double_of_int (int_value neg ds)).
Proof.
  intros Hmem Hdec Ht Hdot He HE Hr Hitem.
  pose proof (int_range_exact neg ds Hdec Hr) as Hbound.
  pose proof (parse_number_literal item num neg ds t rest c s Hmem Hdec Ht Hdot He HE
                Hbound Hitem) as E.
  rewrite Hr in E. eexists. split; [exact E|].
  destruct (is_decimal_inv ds Hdec) as (Hall & _).
  pose proof (decimal_ge ds 0 Hall ltac:(lia)) as Hge.
  pose proof (literal_double_to_int neg (decimal 0 ds) ltac:(lia)) as Hc.
  fold (int_value neg ds) in Hc. rewrite Hr in Hc.
  assert (Hz : (int_value neg ds =? 0) = (decimal 0 ds =? 0)).
  { unfold int_value. destruct neg; [|done].
    destruct (Z.eqb_spec (decimal 0 ds) 0), (Z.eqb_spec (- decimal 0 ds) 0); lia. }
  rewrite Hz. split; [exact Hc|].
  intros Hnz. apply Z.eqb_neq in Hnz. rewrite Hz in Hnz. rewrite Hnz.
  by rewrite andb_false_r.
Qed.
End IntLiteral.

Lemma int_literal_first neg ds rest : is_decimal ds = true ->
  exists c0, (int_literal neg ds ++ 0 :: rest) !! O = Some c0 /\ 45 <= c0 <= 57.
Proof.
  intros Hdec. destruct (is_decimal_inv ds Hdec) as (Hall & d & ds' & -> & _).
  inversion Hall as [|? ? Hd _]; subst. destruct neg.
  - exists ch_minus. split; [done|]. unfold ch_minus. lia.
  - exists (ch_0 + d). split; [done|]. unfold ch_0. lia.
Qed.

Lemma int_literal_nonzero neg ds : is_decimal ds = true ->
  Forall (fun c => c <> 0) (int_literal neg ds) /\ (0 < length (int_literal neg ds))%nat.
Proof.
  intros Hdec. destruct (is_decimal_inv ds Hdec) as (Hall & d & ds' & -> & _). split.
  - unfold int_literal. apply Forall_app. split; [destruct neg; repeat constructor; done|].
    unfold digit_chars. apply Forall_map. eapply Forall_impl; [exact Hall|].
    intros x Hx. cbv beta in *. unfold ch_0. lia.
  - unfold int_literal. rewrite length_app. simpl. lia.
Qed.


Lemma bind_ext {A B} (m m' : M A) (k k' : A -> M B) s :
  m s = m' s -> (forall a s', k a s' = k' a s') -> bind m k s = bind m' k' s.
Proof. intros Hm Hk. unfold bind. rewrite Hm. destruct (m' s); [apply Hk|done]. Qed.

Lemma double_eqb_eq x y : double_eqb x y = true -> x = y.
Proof.
  destruct x, y; simpl; try done.
  - intros H. apply Bool.eqb_prop in H. by subst.
  - intros H. apply Bool.eqb_prop in H. by subst.
  - intros H. apply andb_true_iff in H as [H He]. apply andb_true_iff in H as [Hs Hm].
    apply Bool.eqb_prop in Hs. apply Pos.eqb_eq in Hm. apply Z.eqb_eq in He. by subst.
Qed.

Section PowExt.
Variables pow pow' : double -> double -> double.
Variable mem : list Z.
Hypothesis pow_agree : forall e, pow d_ten (double_of_int e) = pow' d_ten (double_of_int e).

Ltac ext_step :=
  lazymatch goal with
  | |- context [pow d_ten (double_of_int ?e)] => rewrite (pow_agree e)
  | |- bind _ _ _ = bind _ _ _ => simple apply bind_ext; [ | intros ? ?]
  | |- (if ?b then _ else _) _ = _ => destruct b
  | |- (match ?x with _ => _ end) _ = _ => destruct x
  | |- (let _ := _ in _) _ = _ => cbv zeta
  end.
Ltac ext_close :=
  lazymatch goal with
  | |- ?x = ?x => reflexivity
  | _ => match goal with H : forall _, _ |- _ => simple apply H end
  end.
Ltac ext := repeat first [ ext_close | ext_step ].

Lemma parse_number_ext item num s :
  parse_number pow mem item num s = parse_number pow' mem item num s.
Proof. unfold parse_number. ext. Qed.

Section DescentExt.
Variables pv pv' : addr -> cptr -> M cptr.
Hypothesis pv_agree : forall item v s, pv item v s = pv' item v s.

Lemma parse_array_loop_ext n : forall child value s,
  parse_array_loop mem pv n child value s = parse_array_loop mem pv' n child value s.
Proof. induction n as [|n IH]; intros; [done|]. cbn [parse_array_loop]. ext. Qed.

Lemma parse_member_ext child value s :
  parse_member mem pv child value s = parse_member mem pv' child value s.
Proof. unfold parse_member. ext. Qed.

Lemma parse_object_loop_ext n : forall child value s,
  parse_object_loop mem pv n child value s = parse_object_loop mem pv' n child value s.
Proof.
  induction n as [|n IH]; intros; [done|]. cbn [parse_object_loop].
  pose proof parse_member_ext. ext.
Qed.

Lemma parse_array_ext item value s :
  parse_array mem pv item value s = parse_array mem pv' item value s.
Proof. unfold parse_array. pose proof parse_array_loop_ext. ext. Qed.

Lemma parse_object_ext item value s :
  parse_object mem pv item value s = parse_object mem pv' item value s.
Proof.
  unfold parse_object. pose proof parse_object_loop_ext. pose proof parse_member_ext. ext.
Qed.
End DescentExt.

Lemma parse_value_ext fuel : forall item v s,
  parse_value pow mem fuel item v s = parse_value pow' mem fuel item v s.
Proof.
  induction fuel as [|fuel IH]; intros; [done|]. cbn [parse_value].
  pose proof parse_number_ext.
  pose proof (parse_array_ext _ _ IH). pose proof (parse_object_ext _ _ IH). ext.
Qed.

Lemma cJSON_ParseWithLength_ext value len s :
  cJSON_ParseWithLength pow mem value len s = cJSON_ParseWithLength pow' mem value len s.
Proof. unfold cJSON_ParseWithLength. pose proof parse_value_ext. ext. Qed.

Lemma cJSON_Parse_ext value s : cJSON_Parse pow mem value s = cJSON_Parse pow' mem value s.
Proof. unfold cJSON_Parse. pose proof cJSON_ParseWithLength_ext. ext. Qed.
End PowExt.

Lemma pow_patch_agree pow :
  pow d_ten (double_of_int 0) = double_of_int 1 ->
  pow d_ten (double_of_int (-1)) = d_tenth ->
  forall e, pow d_ten (double_of_int e) = pow_at_0_and_minus_1 pow d_ten (double_of_int e).
Proof.
  intros H0 H1 e. unfold pow_at_0_and_minus_1.
  destruct (double_eqb (double_of_int e) (double_of_int 0)) eqn:E0.
  { apply double_eqb_eq in E0. by rewrite E0. }
  destruct (double_eqb (double_of_int e) (double_of_int (-1))) eqn:E1.
  { apply double_eqb_eq in E1. by rewrite E1. }
  done.
Qed.

(** C9.  Given [pow (10, 0) = 1] and [pow (10, -1) = 0.1], parsing the
    text 3 and parsing the text 3.0 each yield a number node whose integer
    field is 3, and printing either node gives exactly the text 3, without
    fractional digits. *)
Theorem three_prints_as_3 pow sprintf_f :
  pow d_ten (double_of_int 0) = double_of_int 1 ->
  pow d_ten (double_of_int (-1)) = d_tenth ->
  number_round_trip pow sprintf_f (cstring "3") = Some (cJSON_Number, 3, bytes_of_string "3") /\
  number_round_trip pow sprintf_f (cstring "3.0") = Some (cJSON_Number, 3, bytes_of_string "3").
Proof.
  intros H0 H1. unfold number_round_trip.
  rewrite !(cJSON_Parse_ext pow _ _ (pow_patch_agree pow H0 H1)).
  split; vm_compute; reflexivity.
Qed.

Lemma parse_123 :
  cJSON_Parse pow_ref (cstring "[1,2,3]") (Some O) empty_state
  = Ok (Some 1%positive) array_of_three.
Proof. vm_compute. reflexivity. Qed.

(** C2.  [cJSON_ParseWithLength] reads past the declared length: on a
    buffer that holds the single byte 1 and is declared to have length 1,
    it reads the byte at offset 1, outside the buffer. *)
Theorem parse_with_length_reads_past_length pow :
  cJSON_ParseWithLength pow [ch_1] (Some O) 1 empty_state = Fault OverRead.
Proof. vm_compute. reflexivity. Qed.

(** C3.  A high surrogate followed by an escape that is not a low
    surrogate is accepted: the escapes d83d and 0041 parse to one string,
    the UTF-8 encoding of the code point U+1F441 that the surrogate formula
    gives for them. *)
Theorem high_surrogate_then_any_escape_accepted pow :
  string_of_result
    (cJSON_Parse pow (string_literal (unicode_escape "d83d" ++ unicode_escape "0041"))
       (Some O) empty_state)
  = Some (utf8_bytes 128065).
Proof. vm_compute. reflexivity. Qed.

(** C4.  [cJSON_Delete] frees a key stored by [cJSON_AddItemToObjectCS]:
    after the object is deleted, the buffer in which the caller keeps the
    key is no longer allocated; and when the key is not in the heap (a
    string constant), deleting the object frees a pointer that was never
    allocated. *)
Theorem delete_frees_borrowed_key :
  (exists s', borrowed_key_scenario 100%positive key_heap = Ok tt s' /\
              heap key_heap !! 100%positive = Some (Chars 2 [107]) /\
              heap s' !! 100%positive = None) /\
  borrowed_key_scenario 100%positive empty_state = Fault InvalidFree.
Proof. split; [eexists; split_and!|]; vm_compute; reflexivity. Qed.



(** C8.  The escapes d83d and de00, a surrogate pair, decode to the
    single code point U+1F600, which the UTF-16 formula gives for them, and
    the string holds its UTF-8 encoding in four bytes. *)
Theorem surrogate_pair_decodes pow :
  string_of_result
    (cJSON_Parse pow (string_literal (unicode_escape "d83d" ++ unicode_escape "de00"))
       (Some O) empty_state)
  = Some [240; 159; 152; 128] /\
  65536 + Z.lor (Z.shiftl (Z.land 55357 1023) 10) (Z.land 56832 1023) = 128512 /\
  utf8_bytes 128512 = [240; 159; 152; 128].
Proof. split_and!; vm_compute; reflexivity. Qed.

Lemma three_prints_as_3_witness :
  number_round_trip pow_ref (fun _ => []) (cstring "3")
    = Some (cJSON_Number, 3, bytes_of_string "3") /\
  number_round_trip pow_ref (fun _ => []) (cstring "3.0")
    = Some (cJSON_Number, 3, bytes_of_string "3").
Proof. apply (three_prints_as_3 pow_ref (fun _ => [])); reflexivity. Defined.

Lemma parse_failure_releases_witness :
  cJSON_ParseWithLength pow_ref (cstring "[1,") (Some O) 3 empty_state
    = Ok None (mkState ∅ (Some 3%nat) []) /\
  heap (mkState ∅ (Some 3%nat) []) = heap empty_state.
Proof.
  assert (H : cJSON_ParseWithLength pow_ref (cstring "[1,") (Some O) 3 empty_state
              = Ok None (mkState ∅ (Some 3%nat) [])) by (vm_compute; reflexivity).
  split; [exact H|].
  exact (parse_failure_releases pow_ref (cstring "[1,") (Some O) 3 empty_state _
           (or_introl H)).
Defined.

Lemma three_items_chain :
  chain_rep (heap array_of_three) {[2%positive; 3%positive; 4%positive]} None
    (Some 2%positive) three_items.
Proof.
  replace ({[2%positive; 3%positive; 4%positive]} : gset addr)
    with ({[2%positive]} ∪ (∅ ∪ ∅ ∪ ∅) ∪
          ({[3%positive]} ∪ (∅ ∪ ∅ ∪ ∅) ∪ ({[4%positive]} ∪ (∅ ∪ ∅ ∪ ∅) ∪ ∅)) : gset addr)
    by set_solver.
  unfold three_items.
  eapply (chain_own _ None 2%positive (num_node (Some 3%positive) None 1));
    [reflexivity|reflexivity|reflexivity|reflexivity|reflexivity|apply chain_nil| |
     set_solver|set_solver|set_solver|set_solver].
  eapply (chain_own _ (Some 2%positive) 3%positive (num_node (Some 4%positive) (Some 2%positive) 2));
    [reflexivity|reflexivity|reflexivity|reflexivity|reflexivity|apply chain_nil| |
     set_solver|set_solver|set_solver|set_solver].
  eapply (chain_own _ (Some 3%positive) 4%positive (num_node None (Some 3%positive) 3));
    [reflexivity|reflexivity|reflexivity|reflexivity|reflexivity|apply chain_nil|apply chain_nil|
     set_solver|set_solver|set_solver|set_solver].
Qed.

Lemma delete_cascades_witness :
  chain_rep (heap array_of_three) {[2%positive; 3%positive; 4%positive]} None
    (Some 2%positive) three_items /\
  exists s',
    cJSON_Delete (Some 2%positive) array_of_three = Ok tt s' /\
    ep s' = ep array_of_three /\ oracle s' = oracle array_of_three /\
    (forall b cb Db, (b, cb, Db) ∈ three_items ->
       heap s' !! b = None /\ forall x, x ∈ Db -> heap s' !! x = None) /\
    (forall x, x ∈ ({[2%positive; 3%positive; 4%positive]} : gset addr) -> heap s' !! x = None) /\
    (forall x, x ∉ ({[2%positive; 3%positive; 4%positive]} : gset addr) ->
       heap s' !! x = heap array_of_three !! x).
Proof.
  split; [exact three_items_chain|].
  exact (delete_cascades_through_siblings array_of_three _ None 2%positive three_items
           three_items_chain).
Defined.

Lemma delete_item_witness :
  exists s',
    cJSON_DeleteItemFromArray (Some 1%positive) 1 array_of_three = Ok tt s' /\
    ep s' = ep array_of_three /\ oracle s' = oracle array_of_three /\
    dom (heap s') = dom (heap array_of_three) ∖ ({[3%positive]} ∪ ∅) /\
    heap s' !! 1%positive
      = Some (Node (set_child (head_addr (delete 1%nat three_items))
                      (mkJSON None None (Some 2%positive) cJSON_Array None 0 d_zero None))) /\
    chain_rep (heap s') ({[2%positive; 3%positive; 4%positive]} ∖ ({[3%positive]} ∪ ∅)) None
      (head_addr (delete 1%nat three_items)) (delete 1%nat three_items) /\
    (forall x, x <> 1%positive -> (forall it, it ∈ three_items -> x <> it.1.1) -> x ∉ (∅ : gset addr) ->
       heap s' !! x = heap array_of_three !! x).
Proof.
  apply (delete_item_frees_exactly_one array_of_three 1%positive
           (mkJSON None None (Some 2%positive) cJSON_Array None 0 d_zero None)
           {[2%positive; 3%positive; 4%positive]} three_items 1 3%positive
           (num_node None None 2) ∅).
  - reflexivity.
  - exact three_items_chain.
  - set_solver.
  - lia.
  - reflexivity.
Defined.

(** ** The tree that a successful parse returns *)

Lemma parse_with_length_tree pow mem value len s a s' :
  cJSON_ParseWithLength pow mem value len s = Ok (Some a) s' ->
  exists D items,
    (a ∉ dom (heap s)) /\
    chain_rep (heap s') ({[a]} ∪ D) None (Some a) items /\
    D ## dom (heap s) /\
    dom (heap s') = dom (heap s) ∪ ({[a]} ∪ D) /\
    (forall x, x ∈ dom (heap s) -> heap s' !! x = heap s !! x).
Proof.
  unfold cJSON_ParseWithLength. intros H.
  destruct value as [p|]; [|by apply ret_inv in H as [? _]].
  destruct (len =? 0); [by apply ret_inv in H as [? _]|].
  apply bind_inv in H as (c & s1 & Hal & H). unfold cJSON_New_Item in Hal.
  apply malloc_inv in Hal as [[-> Hh1]|(a0 & -> & Hfresh & Hh1)].
  { by apply ret_inv in H as [? _]. }
  apply bind_inv in H as (u & s2 & Hep & H). apply set_ep_inv in Hep.
  apply bind_inv in H as (v & s3 & Hsk & H). apply skip_inv in Hsk as ->.
  apply bind_inv in H as (e & s3 & Hpv & H).
  destruct e as [e|]; cycle 1.
  { apply bind_inv in H as (u' & s4 & _ & H). by apply ret_inv in H as [? _]. }
  apply ret_inv in H as [[= <-] ->].
  assert (Ha : heap s2 !! a = Some (Node zero_node)).
  { rewrite Hep, Hh1. apply lookup_insert_eq. }
  pose proof (parse_value_spec _ _ _ _ _ _ _ _ _ Hpv Ha) as Hpost.
  eapply node_post_tree in Hpost; [| exact Ha | reflexivity | reflexivity | by repeat split].
  destruct Hpost as (D & its & Hrep & Hdisj & Hdom & Hsame).
  assert (Hd2 : dom (heap s2) = {[a]} ∪ dom (heap s)) by (rewrite Hep, Hh1; apply dom_insert_L).
  exists D, its. split_and!.
  - exact Hfresh.
  - exact Hrep.
  - rewrite Hd2 in Hdisj. set_solver.
  - rewrite Hdom, Hd2. set_solver.
  - intros x Hx. assert (x <> a) by (intros ->; done).
    rewrite Hsame; [| rewrite Hd2; set_solver | done].
    rewrite Hep, Hh1. by apply lookup_insert_ne.
Qed.

(** X1.  A successful parse returns a well-formed tree made of fresh
    blocks: the root is not an address of the old heap, it heads a chain
    whose footprint is exactly what the call added to the heap, and every
    block of the old heap is unchanged. *)
Theorem parse_builds_owned_tree pow mem value len s a s' :
  cJSON_ParseWithLength pow mem value len s = Ok (Some a) s' ->
  exists D items,
    (a ∉ dom (heap s)) /\
    chain_rep (heap s') ({[a]} ∪ D) None (Some a) items /\
    D ## dom (heap s) /\
    dom (heap s') = dom (heap s) ∪ ({[a]} ∪ D) /\
    (forall x, x ∈ dom (heap s) -> heap s' !! x = heap s !! x).
Proof. apply parse_with_length_tree. Qed.

Lemma parse_123_with_length :
  cJSON_ParseWithLength pow_ref (cstring "[1,2,3]") (Some O) 7 empty_state
  = Ok (Some 1%positive) array_of_three.
Proof. vm_compute. reflexivity. Qed.

Lemma parse_builds_owned_tree_witness :
  exists D items,
    (1%positive ∉ dom (heap empty_state)) /\
    chain_rep (heap array_of_three) ({[1%positive]} ∪ D) None (Some 1%positive) items /\
    D ## dom (heap empty_state) /\
    dom (heap array_of_three) = dom (heap empty_state) ∪ ({[1%positive]} ∪ D) /\
    (forall x, x ∈ dom (heap empty_state) -> heap array_of_three !! x = heap empty_state !! x).
Proof.
  exact (parse_builds_owned_tree pow_ref (cstring "[1,2,3]") (Some O) 7 empty_state
           1%positive array_of_three parse_123_with_length).
Defined.

Lemma parse_delete_heap pow mem value len s a s' :
  cJSON_ParseWithLength pow mem value len s = Ok (Some a) s' ->
  exists s'', cJSON_Delete (Some a) s' = Ok tt s'' /\ heap s'' = heap s.
Proof.
  intros H. destruct (parse_with_length_tree _ _ _ _ _ _ _ H)
    as (D & items & Ha & Hrep & Hdisj & Hdom & Hsame).
  eexists. split; [by eapply cJSON_Delete_chain|]. simpl.
  apply map_eq. intros i. rewrite lookup_heap_minus. case_decide as Hi.
  - symmetry. apply not_elem_of_dom. set_solver.
  - destruct (decide (i ∈ dom (heap s))) as [Hin|Hnin].
    + by apply Hsame.
    + rewrite (proj1 (not_elem_of_dom _ _) Hnin). apply not_elem_of_dom.
      rewrite Hdom. set_solver.
Qed.

(** X2.  Parsing and then deleting the result restores the heap: nothing
    that the parser allocated survives [cJSON_Delete] of the root, and
    nothing else is released. *)
Theorem parse_then_delete_restores_heap pow mem value len s a s' :
  cJSON_ParseWithLength pow mem value len s = Ok (Some a) s' ->
  exists s'', cJSON_Delete (Some a) s' = Ok tt s'' /\ heap s'' = heap s.
Proof. apply parse_delete_heap. Qed.

Lemma parse_then_delete_witness :
  exists s'', cJSON_Delete (Some 1%positive) array_of_three = Ok tt s'' /\
              heap s'' = heap empty_state.
Proof.
  exact (parse_then_delete_restores_heap pow_ref (cstring "[1,2,3]") (Some O) 7 empty_state
           1%positive array_of_three parse_123_with_length).
Defined.

(** ** Indexing the children of a container *)

Lemma chain_fuel h D pv p items :
  chain_rep h D pv p items -> (length items < S (size h))%nat.
Proof.
  intros H. pose proof (chain_rep_length _ _ _ _ _ H).
  apply chain_rep_dom in H. apply subseteq_size in H. rewrite size_dom in H. lia.
Qed.

Lemma nth_sibling_drop items : forall D pv p s fuel i,
  chain_rep (heap s) D pv p items -> (length items < fuel)%nat ->
  nth_sibling fuel p i s = Ok (head_addr (drop (Z.to_nat i) items)) s.
Proof.
  induction items as [|it items IH]; intros D pv p s fuel i Hrep Hf.
  - apply chain_nil_inv in Hrep as [_ ->]. rewrite drop_nil. by destruct fuel.
  - pose proof (chain_rep_head _ _ _ _ _ Hrep) as Hp. destruct it as [[a ca] Da].
    simpl in Hp. subst p.
    apply chain_cons_inv in Hrep as (c & Da' & Dr & [= -> ->] & -> & Ha & Hpv & Ho & Hrest & _).
    destruct fuel as [|fuel]; [simpl in Hf; lia|].
    cbn [nth_sibling]. destruct (Z.ltb_spec 0 i) as [Hi|Hi].
    + rewrite (bind_ok _ _ _ _ _ (load_ok _ _ _ Ha)).
      rewrite (IH _ _ _ _ fuel (i - 1) Hrest) by (simpl in Hf; lia).
      replace (Z.to_nat i) with (S (Z.to_nat (i - 1))) by lia. done.
    + replace (Z.to_nat i) with O by lia. done.
Qed.

(** X3.  [cJSON_GetArrayItem] returns the child at the given index: the
    head of the list of children once [index] of them are dropped, hence
    [NULL] for an index at or past the end, and the first child for a
    negative index. *)
Theorem get_array_item_by_index s arr A D items i :
  heap s !! arr = Some (Node A) ->
  chain_rep (heap s) D None (child A) items ->
  cJSON_GetArrayItem (Some arr) i s = Ok (head_addr (drop (Z.to_nat i) items)) s.
Proof.
  intros Harr Hrep. unfold cJSON_GetArrayItem.
  rewrite (bind_ok _ _ _ _ _ (load_ok _ _ _ Harr)).
  rewrite (bind_ok get_heap _ s (heap s) s) by done.
  eapply nth_sibling_drop; [exact Hrep|]. by eapply chain_fuel.
Qed.

Lemma get_array_item_witness :
  cJSON_GetArrayItem (Some 1%positive) 2 array_of_three
  = Ok (head_addr (drop (Z.to_nat 2) three_items)) array_of_three.
Proof.
  apply (get_array_item_by_index array_of_three 1%positive
           (mkJSON None None (Some 2%positive) cJSON_Array None 0 d_zero None)
           {[2%positive; 3%positive; 4%positive]} three_items 2).
  - reflexivity.
  - exact three_items_chain.
Defined.

Lemma count_siblings_chain items : forall D pv p s fuel n,
  chain_rep (heap s) D pv p items -> (length items < fuel)%nat ->
  n + Z.of_nat (length items) <= INT_MAX -> INT_MIN <= n ->
  count_siblings fuel p n s = Ok (n + Z.of_nat (length items)) s.
Proof.
  induction items as [|it items IH]; intros D pv p s fuel n Hrep Hf Hmax Hmin.
  - apply chain_nil_inv in Hrep as [_ ->]. destruct fuel; simpl; unfold ret; f_equal; lia.
  - pose proof (chain_rep_head _ _ _ _ _ Hrep) as Hp. destruct it as [[a ca] Da].
    simpl in Hp. subst p.
    apply chain_cons_inv in Hrep as (c & Da' & Dr & [= -> ->] & -> & Ha & Hpv & Ho & Hrest & _).
    destruct fuel as [|fuel]; [simpl in Hf; lia|]. cbn [count_siblings].
    simpl length in Hmax.
    assert (Hchk : int_chk (n + 1) s = Ok (n + 1) s).
    { unfold int_chk, in_int_range.
      destruct (Z.leb_spec INT_MIN (n + 1)), (Z.leb_spec (n + 1) INT_MAX); try done; lia. }
    rewrite (bind_ok _ _ _ _ _ Hchk), (bind_ok _ _ _ _ _ (load_ok _ _ _ Ha)).
    rewrite (IH _ _ _ _ fuel (n + 1) Hrest) by (simpl in Hf; lia).
    f_equal. simpl length. lia.
Qed.

(** X4.  [cJSON_GetArraySize] returns the number of children, and reads
    only. *)
Theorem get_array_size_counts_children s arr A D items :
  heap s !! arr = Some (Node A) ->
  chain_rep (heap s) D None (child A) items ->
  Z.of_nat (length items) <= INT_MAX ->
  cJSON_GetArraySize (Some arr) s = Ok (Z.of_nat (length items)) s.
Proof.
  intros Harr Hrep Hmax. unfold cJSON_GetArraySize.
  rewrite (bind_ok _ _ _ _ _ (load_ok _ _ _ Harr)).
  rewrite (bind_ok get_heap _ s (heap s) s) by done.
  rewrite (count_siblings_chain items D None (child A) s _ 0 Hrep); try done.
  - by eapply chain_fuel.
Qed.

Lemma get_array_size_witness :
  cJSON_GetArraySize (Some 1%positive) array_of_three
  = Ok (Z.of_nat (length three_items)) array_of_three.
Proof.
  apply (get_array_size_counts_children array_of_three 1%positive
           (mkJSON None None (Some 2%positive) cJSON_Array None 0 d_zero None)
           {[2%positive; 3%positive; 4%positive]} three_items).
  - reflexivity.
  - exact three_items_chain.
  - vm_compute. intros H. discriminate H.
Defined.

(** X5.  An index at or past the end changes nothing:
    [cJSON_DetachItemFromArray] returns [NULL] and
    [cJSON_DeleteItemFromArray] returns, both with the state they were
    called in. *)
Theorem index_past_the_end_changes_nothing s arr A D items which :
  heap s !! arr = Some (Node A) ->
  chain_rep (heap s) D None (child A) items ->
  Z.of_nat (length items) <= which ->
  cJSON_DetachItemFromArray (Some arr) which s = Ok None s /\
  cJSON_DeleteItemFromArray (Some arr) which s = Ok tt s.
Proof.
  intros Harr Hrep Hw.
  assert (E : cJSON_DetachItemFromArray (Some arr) which s = Ok None s).
  { unfold cJSON_DetachItemFromArray.
    rewrite (bind_ok _ _ _ _ _ (load_ok _ _ _ Harr)).
    rewrite (bind_ok get_heap _ s (heap s) s) by done.
    rewrite (bind_ok _ _ _ _ _ (nth_sibling_drop items D None (child A) s _ which Hrep
                                  (chain_fuel _ _ _ _ _ Hrep))).
    rewrite drop_ge by lia. done. }
  split; [exact E|]. unfold cJSON_DeleteItemFromArray.
  by rewrite (bind_ok _ _ _ _ _ E).
Qed.

Lemma index_past_the_end_witness :
  cJSON_DetachItemFromArray (Some 1%positive) 3 array_of_three = Ok None array_of_three /\
  cJSON_DeleteItemFromArray (Some 1%positive) 3 array_of_three = Ok tt array_of_three.
Proof.
  apply (index_past_the_end_changes_nothing array_of_three 1%positive
           (mkJSON None None (Some 2%positive) cJSON_Array None 0 d_zero None)
           {[2%positive; 3%positive; 4%positive]} three_items 3).
  - reflexivity.
  - exact three_items_chain.
  - vm_compute. intros H. discriminate H.
Defined.

(** X6.  [cJSON_DetachItemFromArray] unlinks the child without freeing
    anything: the heap keeps its addresses, the detached node has neither
    [next] nor [prev] and still owns what it owned, and the other children
    form a well-linked chain in their order. *)
Theorem detach_unlinks_without_freeing s arr A D items n a ca Da :
  heap s !! arr = Some (Node A) ->
  chain_rep (heap s) D None (child A) items -> arr ∉ D ->
  items !! n = Some (a, ca, Da) ->
  exists s' c,
    cJSON_DetachItemFromArray (Some arr) (Z.of_nat n) s = Ok (Some a) s' /\
    dom (heap s') = dom (heap s) /\
    heap s !! a = Some (Node c) /\
    heap s' !! a = Some (Node (set_prev None (set_next None c))) /\
    owns (heap s') Da (set_prev None (set_next None c)) /\
    heap s' !! arr = Some (Node (set_child (head_addr (delete n items)) A)) /\
    chain_rep (heap s') (D ∖ ({[a]} ∪ Da)) None
      (head_addr (delete n items)) (delete n items) /\
    (forall x, x <> arr -> (forall it, it ∈ items -> x <> it.1.1) ->
               heap s' !! x = heap s !! x).
Proof.
  intros Harr Hrep HarrD Hit.
  destruct (detach_chain s arr A D items n a ca Da Harr Hrep HarrD Hit)
    as (s' & c & H1 & _ & _ & H2 & H3 & _ & H4 & H5 & _ & _ & H6 & H7 & H8).
  exists s', c. split_and!; done.
Qed.

Lemma detach_witness :
  exists s' c,
    cJSON_DetachItemFromArray (Some 1%positive) (Z.of_nat 0) array_of_three = Ok (Some 2%positive) s' /\
    dom (heap s') = dom (heap array_of_three) /\
    heap array_of_three !! 2%positive = Some (Node c) /\
    heap s' !! 2%positive = Some (Node (set_prev None (set_next None c))) /\
    owns (heap s') ∅ (set_prev None (set_next None c)) /\
    heap s' !! 1%positive
      = Some (Node (set_child (head_addr (delete O three_items))
                      (mkJSON None None (Some 2%positive) cJSON_Array None 0 d_zero None))) /\
    chain_rep (heap s') ({[2%positive; 3%positive; 4%positive]} ∖ ({[2%positive]} ∪ ∅)) None
      (head_addr (delete O three_items)) (delete O three_items) /\
    (forall x, x <> 1%positive -> (forall it, it ∈ three_items -> x <> it.1.1) ->
               heap s' !! x = heap array_of_three !! x).
Proof.
  apply (detach_unlinks_without_freeing array_of_three 1%positive
           (mkJSON None None (Some 2%positive) cJSON_Array None 0 d_zero None)
           {[2%positive; 3%positive; 4%positive]} three_items O 2%positive
           (num_node None None 1) ∅).
  - reflexivity.
  - exact three_items_chain.
  - set_solver.
  - reflexivity.
Defined.

(** X7.  Deleting a node marked [cJSON_IsReference] releases the node and
    its key only: the string and the children it points to stay
    allocated and unchanged. *)
Theorem delete_reference_keeps_payload s a c Dk :
  heap s !! a = Some (Node c) -> is_reference c = true -> next c = None ->
  str_rep (heap s) Dk (string c) -> a ∉ Dk ->
  exists s',
    cJSON_Delete (Some a) s = Ok tt s' /\
    dom (heap s') = dom (heap s) ∖ ({[a]} ∪ Dk) /\
    (forall x, x <> a -> x ∉ Dk -> heap s' !! x = heap s !! x).
Proof.
  intros Ha Hr Hn Hk HaD.
  assert (Hrep : chain_rep (heap s) ({[a]} ∪ Dk ∪ ∅) (prev c) (Some a) [(a, unlink c, Dk)]).
  { eapply chain_ref; try done.
    - rewrite Hn. apply chain_nil.
    - set_solver. }
  eexists. split; [by eapply cJSON_Delete_chain|]. simpl. split.
  - apply set_eq. intros x. rewrite elem_of_difference, !elem_of_dom.
    rewrite lookup_heap_minus. case_decide; [|set_solver].
    split; [intros [? ?]; done|]. intros [_ Hx]. exfalso. apply Hx. set_solver.
  - intros x Hx HxD. rewrite lookup_heap_minus. case_decide; [set_solver|done].
Qed.

Lemma delete_reference_witness :
  exists s',
    cJSON_Delete (Some 5%positive) reference_state = Ok tt s' /\
    dom (heap s') = dom (heap reference_state) ∖ ({[5%positive]} ∪ ∅) /\
    (forall x, x <> 5%positive -> x ∉ (∅ : gset addr) ->
               heap s' !! x = heap reference_state !! x).
Proof.
  apply (delete_reference_keeps_payload reference_state 5%positive
           (mkJSON None None (Some 2%positive) (Z.lor cJSON_Array cJSON_IsReference)
              None 0 d_zero None) ∅).
  - reflexivity.
  - reflexivity.
  - reflexivity.
  - reflexivity.
  - set_solver.
Defined.

(** ** The configuration loader *)

Lemma cstr_app_nul l r : Forall (fun c => c <> 0) l -> cstr (l ++ 0 :: r) = l.
Proof.
  induction 1 as [|c l Hc _ IH]; [done|]. simpl.
  apply Z.eqb_neq in Hc as ->. by rewrite IH.
Qed.

Lemma cstr_no_nul l : Forall (fun c => c <> 0) l -> cstr l = l.
Proof.
  induction 1 as [|c l Hc _ IH]; [done|]. simpl.
  apply Z.eqb_neq in Hc as ->. by rewrite IH.
Qed.

Lemma strncpy_length dest src n :
  (n <= length dest)%nat -> length (strncpy dest src n) = length dest.
Proof.
  intros H. unfold strncpy.
  rewrite length_app, length_take, length_app, length_take, repeat_length, length_drop. lia.
Qed.

(** X8.  [copy_string] never writes outside the destination: the array
    keeps its size, and afterwards it holds the source cut to [cap - 1]
    characters, followed by a NUL. *)
Theorem copy_string_truncates dest cap src :
  length dest = cap -> (0 < cap)%nat -> Forall (fun c => c <> 0) src ->
  length (copy_string dest cap (Some src)) = cap /\
  cstr (copy_string dest cap (Some src)) = take (cap - 1) src.
Proof.
  intros Hlen Hcap Hsrc. destruct cap as [|n]; [lia|]. cbn [copy_string].
  replace (S n - 1)%nat with n by lia. split.
  - rewrite length_insert, strncpy_length; lia.
  - unfold strncpy.
    assert (Hpre : take n (take n src ++ repeat 0 (n - length src))
                   = take n src ++ repeat 0 (n - length src)).
    { apply take_ge. rewrite length_app, length_take, repeat_length. lia. }
    rewrite Hpre.
    assert (Hn : length (take n src ++ repeat 0 (n - length src)) = n).
    { rewrite length_app, length_take, repeat_length. lia. }
    rewrite insert_app_r_alt by lia. rewrite Hn, Nat.sub_diag.
    destruct (drop n dest) as [|d rest] eqn:Hd.
    { apply (f_equal length) in Hd. rewrite length_drop in Hd. simpl in Hd. lia. }
    cbn [insert list_insert]. rewrite <- app_assoc.
    destruct (n - length src)%nat as [|k]; cbn [repeat app];
      apply cstr_app_nul; by apply Forall_take.
Qed.

Lemma copy_string_witness :
  length (copy_string [1; 2; 3; 4] 4 (Some [65; 66; 67; 68; 69])) = 4%nat /\
  cstr (copy_string [1; 2; 3; 4] 4 (Some [65; 66; 67; 68; 69]))
    = take (4 - 1) [65; 66; 67; 68; 69].
Proof.
  apply (copy_string_truncates [1; 2; 3; 4] 4 [65; 66; 67; 68; 69]).
  - reflexivity.
  - lia.
  - repeat constructor; discriminate.
Defined.

Lemma copy_string_length dest cap src :
  (cap <= length dest)%nat -> length (copy_string dest cap src) = length dest.
Proof.
  intros H. destruct src as [src|]; [|done]. destruct cap as [|n]; [done|]. cbn [copy_string].
  rewrite length_insert, strncpy_length; lia.
Qed.

Ltac ro_inv :=
  repeat match goal with
  | H : bind _ _ _ = Ok _ _ |- _ =>
      let a := fresh "a" in let s := fresh "s" in let H1 := fresh "H" in
      apply bind_inv in H as (a & s & H1 & H)
  | H : ret _ _ = Ok _ _ |- _ => apply ret_inv in H as [? ?]; subst
  | H : raise _ _ = Ok _ _ |- _ => discriminate H
  | H : load _ _ = Ok _ _ |- _ => apply load_inv in H as [? ?]; subst
  | H : get_heap _ = Ok _ _ |- _ => apply ret_inv in H as [? ?]; subst
  | H : (match ?x with _ => _ end) _ = Ok _ _ |- _ => destruct x eqn:?
  end.

Lemma load_cstr_inv p s r s' : load_cstr p s = Ok r s' -> s' = s.
Proof.
  destruct p as [a|]; simpl; [|by intros [= _ ->]].
  destruct (heap s !! a) as [[| |]|]; try discriminate. by intros [= _ ->].
Qed.

Lemma find_member_cs_inv fuel : forall c str s r s',
  find_member_cs fuel c str s = Ok r s' -> s' = s.
Proof.
  induction fuel as [|fuel IH]; intros c str s r s' H.
  - destruct c; [discriminate|]. by apply ret_inv in H as [_ ->].
  - destruct c as [a|]; [|by apply ret_inv in H as [_ ->]]. cbn [find_member_cs] in H.
    apply bind_inv in H as (n & s1 & Hl & H). apply load_inv in Hl as [-> _].
    apply bind_inv in H as (k & s1 & Hk & H). apply load_cstr_inv in Hk as ->.
    destruct k as [k|]; [|discriminate]. destruct str as [str|]; [|discriminate].
    destruct (strcmp k str =? 0); [by apply ret_inv in H as [_ ->]|by eapply IH].
Qed.

Lemma get_object_item_cs_inv o str s r s' :
  cJSON_GetObjectItemCaseSensitive o str s = Ok r s' -> s' = s.
Proof.
  unfold cJSON_GetObjectItemCaseSensitive. intros H.
  destruct o as [a|]; [|by apply ret_inv in H as [_ ->]].
  apply bind_inv in H as (n & s1 & Hl & H). apply load_inv in Hl as [-> _].
  apply bind_inv in H as (h & s1 & Hh & H). apply ret_inv in Hh as [_ ->].
  by eapply find_member_cs_inv.
Qed.

Lemma is_kind_inv k p s r s' : is_kind k p s = Ok r s' -> s' = s.
Proof. unfold is_kind. intros H. ro_inv; done. Qed.

Lemma copy_field_inv field dest cap s r s' :
  copy_field field dest cap s = Ok r s' ->
  s' = s /\ ((cap <= length dest)%nat -> length r = length dest).
Proof.
  unfold copy_field, cJSON_IsString. intros H.
  apply bind_inv in H as (b & s1 & Hb & H). apply is_kind_inv in Hb as ->.
  destruct b; [|by apply ret_inv in H as [-> ->]].
  apply bind_inv in H as (a & s1 & Ha & H).
  assert (s1 = s) as ->.
  { destruct field; [by apply ret_inv in Ha as [_ ->]|discriminate]. }
  apply bind_inv in H as (n & s1 & Hl & H). apply load_inv in Hl as [-> _].
  apply bind_inv in H as (v & s1 & Hv & H). apply load_cstr_inv in Hv as ->.
  destruct v; apply ret_inv in H as [-> ->]; split; try done.
  intros Hc. by apply copy_string_length.
Qed.

Lemma apply_server_object_inv o cfg s cfg' s' :
  apply_server_object o cfg s = Ok cfg' s' ->
  s' = s /\ verbose cfg' = verbose cfg /\ show_response cfg' = show_response cfg /\
  (length (url cfg) = URL_SIZE -> length (url cfg') = URL_SIZE) /\
  (length (token cfg) = TOKEN_SIZE -> length (token cfg') = TOKEN_SIZE).
Proof.
  unfold apply_server_object. intros H.
  apply bind_inv in H as (u & s1 & Hu & H). apply get_object_item_cs_inv in Hu as ->.
  apply bind_inv in H as (t & s1 & Ht & H). apply get_object_item_cs_inv in Ht as ->.
  apply bind_inv in H as (url' & s1 & Hcu & H). apply copy_field_inv in Hcu as [-> Lu].
  apply bind_inv in H as (tok' & s1 & Hct & H). apply copy_field_inv in Hct as [-> Lt].
  apply ret_inv in H as [-> ->]. simpl. split_and!; try done.
  - intros E. rewrite Lu; [done|]. rewrite E. done.
  - intros E. rewrite Lt; [done|]. rewrite E. done.
Qed.

(** X9.  Whatever the file holds, when [parse_config] returns, the tree
    it parsed has been released (the heap is as before the call), the two
    flags of the configuration are untouched and the two character arrays
    have kept their sizes. *)
Theorem parse_config_releases_tree pow file cfg server_name s cfg' s' :
  parse_config pow file cfg server_name s = Ok cfg' s' ->
  heap s' = heap s /\
  verbose cfg' = verbose cfg /\ show_response cfg' = show_response cfg /\
  (length (url cfg) = URL_SIZE -> length (url cfg') = URL_SIZE) /\
  (length (token cfg) = TOKEN_SIZE -> length (token cfg') = TOKEN_SIZE).
Proof.
  unfold parse_config. intros H.
  destruct file as [content|]; [|by apply ret_inv in H as [-> ->]].
  apply bind_inv in H as (root & s1 & Hp & H).
  destruct root as [root|]; cycle 1.
  { apply ret_inv in H as [-> ->]. split; [by eapply parse_with_length_failure|done]. }
  apply bind_inv in H as (cfg1 & s2 & Hc & H).
  apply bind_inv in H as (u & s3 & Hd & H). apply ret_inv in H as [-> ->].
  assert (Hcfg : s2 = s1 /\ verbose cfg1 = verbose cfg /\ show_response cfg1 = show_response cfg /\
                 (length (url cfg) = URL_SIZE -> length (url cfg1) = URL_SIZE) /\
                 (length (token cfg) = TOKEN_SIZE -> length (token cfg1) = TOKEN_SIZE)).
  { destruct server_name as [name|].
    - apply bind_inv in Hc as (servers & s4 & H1 & Hc). apply get_object_item_cs_inv in H1 as ->.
      apply bind_inv in Hc as (b & s4 & H1 & Hc). apply is_kind_inv in H1 as ->.
      apply bind_inv in Hc as (server & s4 & H1 & Hc).
      assert (s4 = s1) as ->.
      { destruct b; [by apply get_object_item_cs_inv in H1|by apply ret_inv in H1 as [_ ->]]. }
      apply bind_inv in Hc as (b' & s4 & H2 & Hc). apply is_kind_inv in H2 as ->.
      destruct b'; [by apply apply_server_object_inv in Hc|].
      apply ret_inv in Hc as [-> ->]. done.
    - apply bind_inv in Hc as (u0 & s4 & Hu & Hc). apply get_object_item_cs_inv in Hu as ->.
      apply bind_inv in Hc as (t & s4 & Ht & Hc). apply get_object_item_cs_inv in Ht as ->.
      apply bind_inv in Hc as (url' & s4 & Hcu & Hc). apply copy_field_inv in Hcu as [-> Lu].
      apply bind_inv in Hc as (tok' & s4 & Hct & Hc). apply copy_field_inv in Hct as [-> Lt].
      apply ret_inv in Hc as [-> ->]. simpl. split_and!; try done.
      + intros E. rewrite Lu; [done|]. rewrite E. done.
      + intros E. rewrite Lt; [done|]. rewrite E. done. }
  destruct Hcfg as (-> & Hrest). split; [|exact Hrest].
  destruct (parse_delete_heap _ _ _ _ _ _ _ Hp) as (s'' & Hdel & Hheap).
  rewrite Hdel in Hd. injection Hd as _ <-. exact Hheap.
Qed.

Lemma parse_config_witness :
  parse_config pow_ref (Some config_text) blank_config None empty_state
  = Ok (mkConfig (copy_string (repeat 0 URL_SIZE) URL_SIZE (Some [117]))
          (repeat 0 TOKEN_SIZE) 0 0) empty_state /\
  (heap empty_state = heap empty_state /\
   verbose (mkConfig (copy_string (repeat 0 URL_SIZE) URL_SIZE (Some [117]))
              (repeat 0 TOKEN_SIZE) 0 0) = verbose blank_config /\
   show_response (mkConfig (copy_string (repeat 0 URL_SIZE) URL_SIZE (Some [117]))
                    (repeat 0 TOKEN_SIZE) 0 0) = show_response blank_config /\
   (length (url blank_config) = URL_SIZE ->
    length (url (mkConfig (copy_string (repeat 0 URL_SIZE) URL_SIZE (Some [117]))
                   (repeat 0 TOKEN_SIZE) 0 0)) = URL_SIZE) /\
   (length (token blank_config) = TOKEN_SIZE ->
    length (token (mkConfig (copy_string (repeat 0 URL_SIZE) URL_SIZE (Some [117]))
                     (repeat 0 TOKEN_SIZE) 0 0)) = TOKEN_SIZE)).
Proof.
  assert (H : parse_config pow_ref (Some config_text) blank_config None empty_state
              = Ok (mkConfig (copy_string (repeat 0 URL_SIZE) URL_SIZE (Some [117]))
                      (repeat 0 TOKEN_SIZE) 0 0) empty_state)
    by (vm_compute; reflexivity).
  split; [exact H|].
  exact (parse_config_releases_tree pow_ref (Some config_text) blank_config None empty_state
           _ _ H).
Defined.

(** ** The declared length, [pow], blanks *)

(** X10.  The declared length does not bound the parse: any two lengths
    other than zero give the same result. *)
Theorem parse_with_length_ignores_length pow mem value len len' s :
  len <> 0 -> len' <> 0 ->
  cJSON_ParseWithLength pow mem value len s = cJSON_ParseWithLength pow mem value len' s.
Proof.
  intros H H'. unfold cJSON_ParseWithLength.
  apply Z.eqb_neq in H as ->. apply Z.eqb_neq in H' as ->. reflexivity.
Qed.

Lemma parse_with_length_ignores_length_witness :
  cJSON_ParseWithLength pow_ref (cstring "12") (Some O) 1 empty_state
  = cJSON_ParseWithLength pow_ref (cstring "12") (Some O) 2 empty_state.
Proof.
  apply (parse_with_length_ignores_length pow_ref (cstring "12") (Some O) 1 2 empty_state); lia.
Defined.

(** X11.  The parser uses [pow] with base ten and an integer exponent
    only: two implementations of [pow] that agree there give the same
    parse. *)
Theorem parser_calls_pow_at_base_ten pow pow' mem value s :
  (forall e, pow d_ten (double_of_int e) = pow' d_ten (double_of_int e)) ->
  cJSON_Parse pow mem value s = cJSON_Parse pow' mem value s.
Proof. intros H. by apply cJSON_Parse_ext. Qed.

Lemma pow_ref_agrees e :
  pow_ref d_ten (double_of_int e) = pow_at_0_and_minus_1 pow_ref d_ten (double_of_int e).
Proof. apply pow_patch_agree; reflexivity. Qed.

Lemma parser_calls_pow_witness :
  cJSON_Parse pow_ref (cstring "1.5") (Some O) empty_state
  = cJSON_Parse (pow_at_0_and_minus_1 pow_ref) (cstring "1.5") (Some O) empty_state.
Proof.
  apply (parser_calls_pow_at_base_ten pow_ref (pow_at_0_and_minus_1 pow_ref)
           (cstring "1.5") (Some O) empty_state).
  exact pow_ref_agrees.
Defined.

Lemma skip_loop_blanks k : forall mem p c s,
  (forall i, (i < k)%nat -> exists b, mem !! (p + i)%nat = Some b /\ b <> 0 /\ b <= 32) ->
  mem !! (p + k)%nat = Some c -> c = 0 \/ 32 < c ->
  skip_loop (drop p mem) p s = Ok (p + k)%nat s.
Proof.
  induction k as [|k IH]; intros mem p c s Hb Hc Hstop.
  - rewrite Nat.add_0_r in *. rewrite (drop_S _ _ _ Hc). cbn [skip_loop].
    replace (negb (c =? 0) && (c <=? 32)) with false; [done|].
    symmetry. destruct Hstop as [->|Hgt]; [done|].
    apply andb_false_iff. right. apply Z.leb_gt. lia.
  - destruct (Hb O ltac:(lia)) as (b & Hl & Hnz & Hle). rewrite Nat.add_0_r in Hl.
    rewrite (drop_S _ _ _ Hl). cbn [skip_loop].
    replace (negb (b =? 0) && (b <=? 32)) with true; cycle 1.
    { symmetry. apply andb_true_iff. split; [apply negb_true_iff, Z.eqb_neq; lia|].
      apply Z.leb_le. lia. }
    rewrite (IH mem (S p) c s).
    + f_equal. lia.
    + intros i Hi. destruct (Hb (S i) ltac:(lia)) as (b' & Hl' & ?).
      exists b'. split; [|done]. rewrite <- Hl'. f_equal. lia.
    + rewrite <- Hc. f_equal. lia.
    + done.
Qed.

(** X12.  [skip] returns the position of the first character that is not
    a blank (a character from 1 to 32), be it the terminating NUL. *)
Theorem skip_finds_first_non_blank mem p k c s :
  (forall i, (i < k)%nat -> exists b, mem !! (p + i)%nat = Some b /\ b <> 0 /\ b <= 32) ->
  mem !! (p + k)%nat = Some c -> c = 0 \/ 32 < c ->
  skip mem (Some p) s = Ok (Some (p + k)%nat) s.
Proof.
  intros Hb Hc Hstop. unfold skip.
  by rewrite (bind_ok _ _ _ _ _ (skip_loop_blanks k mem p c s Hb Hc Hstop)).
Qed.

Lemma skip_witness :
  skip [32; 9; 120; 0] (Some O) empty_state = Ok (Some (0 + 2)%nat) empty_state.
Proof.
  apply (skip_finds_first_non_blank [32; 9; 120; 0] O 2 120 empty_state).
  - intros i Hi. destruct i as [|[|i]]; [exists 32|exists 9|lia]; split_and!; (reflexivity || lia).
  - reflexivity.
  - right. lia.
Defined.

(** X13.  On the array of the string made of the one escape of the unit
    0041 and of the number 123456789, [parse_string] writes past its
    buffer: after the four digits of the escape the pointer is moved once
    more, over the closing quote, so the text that follows the string is
    copied into a buffer that was measured for the string alone. *)
Theorem unicode_escape_overruns_buffer pow :
  cJSON_Parse pow
    ([ch_lbracket; ch_quote] ++ unicode_escape "0041" ++ [ch_quote; ch_comma] ++
     bytes_of_string "123456789" ++ [ch_rbracket; 0])
    (Some O) empty_state
  = Fault BufferOverflow.
Proof. vm_compute. reflexivity. Qed.

(** X14.  [cJSON_GetObjectItemCaseSensitive] hands the key of the first
    member to [strcmp] without testing it: on a container whose first child
    has no key, such as an array, this dereferences [NULL]. *)
Theorem member_without_key_is_dereferenced s o n a c str :
  heap s !! o = Some (Node n) -> child n = Some a ->
  heap s !! a = Some (Node c) -> string c = None ->
  cJSON_GetObjectItemCaseSensitive (Some o) str s = Fault BadPointer.
Proof.
  intros Ho Hch Ha Hs. unfold cJSON_GetObjectItemCaseSensitive.
  rewrite (bind_ok _ _ _ _ _ (load_ok _ _ _ Ho)).
  rewrite (bind_ok get_heap _ s (heap s) s) by done.
  rewrite Hch. cbn [find_member_cs].
  rewrite (bind_ok _ _ _ _ _ (load_ok _ _ _ Ha)). rewrite Hs. reflexivity.
Qed.

Lemma member_without_key_witness :
  cJSON_GetObjectItemCaseSensitive (Some 1%positive) (Some lit_servers) array_of_three
  = Fault BadPointer.
Proof.
  apply (member_without_key_is_dereferenced array_of_three 1%positive
           (mkJSON None None (Some 2%positive) cJSON_Array None 0 d_zero None)
           2%positive (num_node (Some 3%positive) None 1) (Some lit_servers)); reflexivity.
Defined.

Lemma tolower_zero c : 0 <= c -> tolower c = 0 -> c = 0.
Proof.
  unfold tolower. destruct ((65 <=? c) && (c <=? 90)) eqn:E; [|done].
  apply andb_true_iff in E as [E1 E2]. apply Z.leb_le in E1. lia.
Qed.

(** When [cJSON_strcasecmp] returns zero. *)
Lemma strcasecmp_zero s1 s2 :
  Forall (fun c => 0 < c) s1 -> Forall (fun c => 0 < c) s2 ->
  cJSON_strcasecmp (Some s1) (Some s2) = 0 <-> map tolower s1 = map tolower s2.
Proof.
  cbn [cJSON_strcasecmp]. revert s2.
  induction s1 as [|c1 s1 IH]; intros s2 H1 H2.
  - destruct s2 as [|c2 s2]; [done|]. simpl. inversion H2; subst. split; [|done].
    intros E. change (tolower 0) with 0 in E. assert (tolower c2 = 0) as E' by lia.
    apply tolower_zero in E'; lia.
  - inversion H1 as [|? ? Hc1 H1']; subst. destruct s2 as [|c2 s2]; simpl.
    + split; [|done]. intros E.
      change (tolower 0) with 0 in E. assert (tolower c1 = 0) as E' by lia.
      apply tolower_zero in E'; lia.
    + inversion H2 as [|? ? Hc2 H2']; subst.
      destruct (Z.eqb_spec (tolower c1) (tolower c2)) as [E|E].
      * rewrite IH by done. split; [by intros ->; rewrite E|by intros [= _ ->]].
      * split; [lia|by intros [= ? _]].
Qed.

(** X15.  [cJSON_strcasecmp] returns zero exactly for two strings that
    are equal once their upper-case letters are lowered. *)
Theorem strcasecmp_zero_iff_equal_up_to_case s1 s2 :
  Forall (fun c => 0 < c) s1 -> Forall (fun c => 0 < c) s2 ->
  cJSON_strcasecmp (Some s1) (Some s2) = 0 <-> map tolower s1 = map tolower s2.
Proof. apply strcasecmp_zero. Qed.

Lemma strcasecmp_witness :
  cJSON_strcasecmp (Some [85; 114; 108]) (Some [117; 82; 76]) = 0
  <-> map tolower [85; 114; 108] = map tolower [117; 82; 76].
Proof.
  apply (strcasecmp_zero_iff_equal_up_to_case [85; 114; 108] [117; 82; 76]);
    repeat constructor.
Defined.

(** ** Printing a string *)

Lemma emit_ok cap done bs s :
  Z.of_nat (length done + length bs) <= cap -> emit cap done bs s = Ok (done ++ bs) s.
Proof. unfold emit. intros H. apply Z.leb_le in H as ->. reflexivity. Qed.

Lemma emit1 cap done (x : Z) s :
  Z.of_nat (length done) + 1 <= cap -> emit cap done [x] s = Ok (done ++ [x]) s.
Proof. intros H. apply emit_ok. simpl. lia. Qed.

Lemma emit_overflow cap done bs s :
  cap < Z.of_nat (length done + length bs) -> emit cap done bs s = Fault BufferOverflow.
Proof. unfold emit. intros H. apply Z.leb_gt in H as ->. reflexivity. Qed.

Lemma escaped_len_nonneg l : 0 <= escaped_len l.
Proof. induction l as [|c l IH]; simpl; [lia|]. destruct (needs_escape c); lia. Qed.

Lemma escape_char_length c :
  wide_escape c = false ->
  Z.of_nat (length (escape_char c)) = if needs_escape c then 2 else 1.
Proof.
  unfold wide_escape, escape_char, needs_escape. intros Hw.
  destruct (c <? 32) eqn:E1; simpl in *.
  - apply negb_false_iff in Hw.
    destruct (c =? 92), (c =? 34), (c =? 8), (c =? 12), (c =? 10), (c =? 13), (c =? 9);
      simpl in *; try done.
  - destruct (c =? 34) eqn:E2; simpl.
    + destruct (c =? 92); done.
    + destruct (c =? 92) eqn:E3; simpl; [done|]. done.
Qed.

Lemma print_string_loop_escapes cap l : forall done s,
  Forall (fun c => wide_escape c = false) l ->
  Z.of_nat (length done) + escaped_len l <= cap ->
  print_string_loop cap l done s = Ok (done ++ escape_text l) s.
Proof.
  induction l as [|c l IH]; intros done s Hall Hfit.
  - simpl. by rewrite app_nil_r.
  - inversion Hall as [|? ? Hc Hall']; subst.
    pose proof (escaped_len_nonneg l) as Hnn.
    pose proof (escape_char_length c Hc) as Hlen.
    cbn [print_string_loop escaped_len] in *.
    unfold escape_text. cbn [map concat]. fold (escape_text l).
    unfold escape_char in *. destruct (needs_escape c) eqn:En;
      rewrite ?En in Hfit, Hlen.
    + rewrite (bind_ok _ _ _ _ _ (emit1 cap done ch_backslash s ltac:(lia))).
      unfold wide_escape in Hc. unfold needs_escape in En.
      assert (Hstep : forall x,
        (done' <- emit cap (done ++ [ch_backslash]) [x] ;; print_string_loop cap l done') s
        = Ok (done ++ (ch_backslash :: [x]) ++ escape_text l) s).
      { intros x. rewrite (bind_ok _ _ _ _ _ (emit1 cap (done ++ [ch_backslash]) x s
                             ltac:(rewrite length_app; simpl; lia))).
        rewrite IH; [|done|rewrite !length_app; simpl; lia].
        by rewrite <- !app_assoc. }
      destruct (c =? 92); [apply Hstep|].
      destruct (c =? 34); [apply Hstep|].
      destruct (c =? 8); [apply Hstep|].
      destruct (c =? 12); [apply Hstep|].
      destruct (c =? 10); [apply Hstep|].
      destruct (c =? 13); [apply Hstep|].
      destruct (c =? 9); [apply Hstep|].
      destruct (c <? 32); simpl in En, Hc; done.
    + rewrite (bind_ok _ _ _ _ _ (emit1 cap done c s ltac:(lia))).
      rewrite IH; [|done|rewrite length_app; simpl; lia].
      by rewrite <- app_assoc.
Qed.

Lemma escape_text_length l :
  Forall (fun c => wide_escape c = false) l ->
  Z.of_nat (length (escape_text l)) = escaped_len l.
Proof.
  induction 1 as [|c l Hc _ IH]; [done|].
  unfold escape_text in *. cbn [map concat escaped_len]. rewrite length_app, Nat2Z.inj_add, IH.
  by rewrite escape_char_length.
Qed.

Lemma load_cstr_ok v cap chars s :
  heap s !! v = Some (Chars cap chars) -> load_cstr (Some v) s = Ok (Some (cstr chars)) s.
Proof. simpl. by intros ->. Qed.

(** X16.  For a string without control characters other than backspace,
    form feed, newline, carriage return and tab, [print_string_ptr] returns
    a fresh buffer holding the quoted, escaped text, which fills the buffer
    exactly. *)
Theorem print_string_escapes s v capv chars :
  heap s !! v = Some (Chars capv chars) ->
  Forall (fun c => wide_escape c = false) (cstr chars) ->
  oracle s = [] ->
  exists o,
    (o ∉ dom (heap s)) /\
    print_string_ptr (Some v) s
    = Ok (Some o)
        (mkState (<[o := Chars (escaped_len (cstr chars) + 3)
                            ([ch_quote] ++ escape_text (cstr chars) ++ [ch_quote])]> (heap s))
           (ep s) []) /\
    Z.of_nat (length ([ch_quote] ++ escape_text (cstr chars) ++ [ch_quote])) + 1
    = escaped_len (cstr chars) + 3.
Proof.
  intros Hv Hall Ho. set (t := cstr chars) in *.
  pose proof (escape_text_length t Hall) as Hlen.
  exists (fresh (dom (heap s))). split; [apply is_fresh|]. split.
  - unfold print_string_ptr. rewrite (bind_ok _ _ _ _ _ (load_cstr_ok _ _ _ _ Hv)).
    fold t. cbv zeta.
    assert (Em : cJSON_malloc (Chars (escaped_len t + 3) []) s
                 = Ok (Some (fresh (dom (heap s))))
                     (mkState (<[fresh (dom (heap s)) := Chars (escaped_len t + 3) []]> (heap s))
                        (ep s) [])).
    { unfold cJSON_malloc. by rewrite Ho. }
    rewrite (bind_ok _ _ _ _ _ Em). set (s1 := mkState _ _ _).
    pose proof (escaped_len_nonneg t).
    set (cap := escaped_len t + 3).
    rewrite (bind_ok _ _ _ _ _ (emit1 cap [] ch_quote s1 ltac:(unfold cap; simpl; lia))).
    rewrite (bind_ok _ _ _ _ _ (print_string_loop_escapes cap t ([] ++ [ch_quote]) s1 Hall
                                  ltac:(unfold cap; simpl; lia))).
    rewrite (bind_ok _ _ _ _ _ (emit1 cap (([] ++ [ch_quote]) ++ escape_text t) ch_quote s1
                                  ltac:(unfold cap; rewrite !length_app; simpl; lia))).
    assert (Efill : fill (fresh (dom (heap s))) cap
                      ((([] ++ [ch_quote]) ++ escape_text t) ++ [ch_quote]) s1
                    = Ok tt (mkState (<[fresh (dom (heap s))
                                        := Chars cap ([ch_quote] ++ escape_text t ++ [ch_quote])]>
                                        (heap s)) (ep s) [])).
    { unfold fill.
      rewrite (bind_ok _ _ _ _ _
                 (emit1 cap ((([] ++ [ch_quote]) ++ escape_text t) ++ [ch_quote]) 0 s1
                    ltac:(unfold cap; rewrite !length_app; simpl; lia))).
      unfold store_chars, s1. cbn [heap ep oracle]. rewrite lookup_insert_eq.
      rewrite insert_insert_eq. by rewrite <- app_assoc. }
    rewrite (bind_ok _ _ _ _ _ Efill). reflexivity.
  - rewrite !length_app. simpl. lia.
Qed.

Lemma print_string_witness :
  exists o,
    (o ∉ dom (heap (mkState {[1%positive := Chars 4 [97; 10; 98]]} None []))) /\
    print_string_ptr (Some 1%positive) (mkState {[1%positive := Chars 4 [97; 10; 98]]} None [])
    = Ok (Some o)
        (mkState (<[o := Chars (escaped_len (cstr [97; 10; 98]) + 3)
                            ([ch_quote] ++ escape_text (cstr [97; 10; 98]) ++ [ch_quote])]>
                    (heap (mkState {[1%positive := Chars 4 [97; 10; 98]]} None [])))
           (ep (mkState {[1%positive := Chars 4 [97; 10; 98]]} None [])) []) /\
    Z.of_nat (length ([ch_quote] ++ escape_text (cstr [97; 10; 98]) ++ [ch_quote])) + 1
    = escaped_len (cstr [97; 10; 98]) + 3.
Proof.
  apply (print_string_escapes (mkState {[1%positive := Chars 4 [97; 10; 98]]} None [])
           1%positive 4 [97; 10; 98]).
  - reflexivity.
  - repeat constructor.
  - reflexivity.
Defined.

Lemma emit_result cap done bs s r s' :
  emit cap done bs s = Ok r s' -> s' = s /\ r = done ++ bs /\
  Z.of_nat (length done + length bs) <= cap.
Proof.
  unfold emit. destruct (Z.leb_spec (Z.of_nat (length done + length bs)) cap); [|done].
  intros [= <- <-]. done.
Qed.

Lemma emit_fault cap done bs s f : emit cap done bs s = Fault f -> f = BufferOverflow.
Proof. unfold emit. destruct (_ <=? _); [done|]. by intros [= <-]. Qed.

Lemma bind_fault {A B} (m : M A) (k : A -> M B) s f :
  bind m k s = Fault f ->
  m s = Fault f \/ exists a s1, m s = Ok a s1 /\ k a s1 = Fault f.
Proof. unfold bind. destruct (m s) as [a s1|f']; [eauto|]. intros [= ->]. by left. Qed.

Lemma print_string_loop_result cap l : forall acc s r s',
  print_string_loop cap l acc s = Ok r s' -> s' = s /\ r = acc ++ escape_text l.
Proof.
  induction l as [|c l IH]; intros acc s r s' H.
  - apply ret_inv in H as [-> ->]. by rewrite app_nil_r.
  - cbn [print_string_loop] in H. unfold escape_text. cbn [map concat]. fold (escape_text l).
    unfold escape_char. destruct (needs_escape c).
    + apply bind_inv in H as (d1 & s1 & H1 & H). apply emit_result in H1 as (-> & -> & _).
      apply bind_inv in H as (d2 & s2 & H2 & H).
      assert (s2 = s /\ d2 = acc ++ ch_backslash ::
                (if c =? 92 then [92] else if c =? 34 then [34] else if c =? 8 then [98]
                 else if c =? 12 then [102] else if c =? 10 then [110]
                 else if c =? 13 then [114] else if c =? 9 then [116]
                 else [117; 48; 48; hex_char (c / 16); hex_char (c mod 16)])) as [-> ->].
      { destruct (c =? 92); [apply emit_result in H2 as (-> & -> & _); by rewrite <- app_assoc|].
        destruct (c =? 34); [apply emit_result in H2 as (-> & -> & _); by rewrite <- app_assoc|].
        destruct (c =? 8); [apply emit_result in H2 as (-> & -> & _); by rewrite <- app_assoc|].
        destruct (c =? 12); [apply emit_result in H2 as (-> & -> & _); by rewrite <- app_assoc|].
        destruct (c =? 10); [apply emit_result in H2 as (-> & -> & _); by rewrite <- app_assoc|].
        destruct (c =? 13); [apply emit_result in H2 as (-> & -> & _); by rewrite <- app_assoc|].
        destruct (c =? 9); [apply emit_result in H2 as (-> & -> & _); by rewrite <- app_assoc|].
        apply bind_inv in H2 as (d3 & s3 & H3 & H2). apply emit_result in H3 as (-> & _ & _).
        apply ret_inv in H2 as [-> ->]. by rewrite <- app_assoc. }
      apply IH in H as [-> ->]. split; [done|]. by rewrite <- app_assoc.
    + apply bind_inv in H as (d1 & s1 & H1 & H). apply emit_result in H1 as (-> & -> & _).
      apply IH in H as [-> ->]. split; [done|]. by rewrite <- app_assoc.
Qed.

Lemma print_string_loop_fault cap l : forall acc s f,
  print_string_loop cap l acc s = Fault f -> f = BufferOverflow.
Proof.
  induction l as [|c l IH]; intros acc s f H; [done|].
  cbn [print_string_loop] in H. destruct (needs_escape c).
  - apply bind_fault in H as [H|(d1 & s1 & _ & H)]; [by eapply emit_fault|].
    apply bind_fault in H as [H|(d2 & s2 & _ & H)]; [|by eapply IH].
    destruct (c =? 92); [by eapply emit_fault|].
    destruct (c =? 34); [by eapply emit_fault|].
    destruct (c =? 8); [by eapply emit_fault|].
    destruct (c =? 12); [by eapply emit_fault|].
    destruct (c =? 10); [by eapply emit_fault|].
    destruct (c =? 13); [by eapply emit_fault|].
    destruct (c =? 9); [by eapply emit_fault|].
    apply bind_fault in H as [H|(d3 & s3 & _ & H)]; [by eapply emit_fault|done].
  - apply bind_fault in H as [H|(d1 & s1 & _ & H)]; [by eapply emit_fault|by eapply IH].
Qed.

Lemma escape_char_wide c :
  Z.of_nat (length (escape_char c)) =
  if wide_escape c then 6 else if needs_escape c then 2 else 1.
Proof.
  destruct (wide_escape c) eqn:Hw; [|by apply escape_char_length].
  unfold wide_escape in Hw. apply andb_true_iff in Hw as [H32 Hn].
  apply negb_true_iff in Hn. unfold escape_char, needs_escape. rewrite H32. cbn [orb].
  apply Z.ltb_lt in H32.
  destruct (Z.eqb_spec c 92); [lia|]. destruct (Z.eqb_spec c 34); [lia|].
  destruct (c =? 8), (c =? 12), (c =? 10), (c =? 13), (c =? 9); try done.
Qed.

Lemma escape_text_lower l : escaped_len l <= Z.of_nat (length (escape_text l)).
Proof.
  induction l as [|c l IH]; [done|].
  unfold escape_text in *. cbn [map concat escaped_len]. rewrite length_app, Nat2Z.inj_add.
  rewrite escape_char_wide. destruct (wide_escape c), (needs_escape c); lia.
Qed.

Lemma escape_text_wide l :
  Exists (fun c => wide_escape c = true) l ->
  escaped_len l + 4 <= Z.of_nat (length (escape_text l)).
Proof.
  induction 1 as [c l Hc|c l _ IH].
  - pose proof (escape_text_lower l).
    unfold escape_text in *. cbn [map concat escaped_len]. rewrite length_app, Nat2Z.inj_add.
    rewrite escape_char_wide, Hc. destruct (needs_escape c); lia.
  - unfold escape_text in *. cbn [map concat escaped_len]. rewrite length_app, Nat2Z.inj_add.
    rewrite escape_char_wide. destruct (wide_escape c), (needs_escape c); lia.
Qed.

(** X17.  For a string with any other control character,
    [print_string_ptr] writes past its buffer: it counts two bytes for the
    character and writes six. *)
Theorem print_string_overruns_on_control_character s v capv chars :
  heap s !! v = Some (Chars capv chars) ->
  Exists (fun c => wide_escape c = true) (cstr chars) ->
  oracle s = [] ->
  print_string_ptr (Some v) s = Fault BufferOverflow.
Proof.
  intros Hv Hex Ho. set (t := cstr chars) in *.
  pose proof (escape_text_wide t Hex) as Hwide. pose proof (escaped_len_nonneg t) as Hnn.
  unfold print_string_ptr. rewrite (bind_ok _ _ _ _ _ (load_cstr_ok _ _ _ _ Hv)).
  fold t. cbv zeta. set (cap := escaped_len t + 3).
  assert (Em : cJSON_malloc (Chars cap []) s
               = Ok (Some (fresh (dom (heap s))))
                   (mkState (<[fresh (dom (heap s)) := Chars cap []]> (heap s)) (ep s) [])).
  { unfold cJSON_malloc. by rewrite Ho. }
  rewrite (bind_ok _ _ _ _ _ Em). set (s1 := mkState _ _ _).
  rewrite (bind_ok _ _ _ _ _ (emit1 cap [] ch_quote s1 ltac:(unfold cap; simpl; lia))).
  destruct (print_string_loop cap t ([] ++ [ch_quote]) s1) as [r s2|f] eqn:El; cycle 1.
  { pose proof (print_string_loop_fault _ _ _ _ _ El) as ->. unfold bind. by rewrite El. }
  pose proof El as El'. apply print_string_loop_result in El' as [-> ->].
  rewrite (bind_ok _ _ _ _ _ El).
  destruct (emit cap (([] ++ [ch_quote]) ++ escape_text t) [ch_quote] s1) as [r s2|f] eqn:Eq;
    cycle 1.
  { pose proof (emit_fault _ _ _ _ _ Eq) as ->. unfold bind. by rewrite Eq. }
  pose proof Eq as Eq'. apply emit_result in Eq' as (-> & -> & _).
  rewrite (bind_ok _ _ _ _ _ Eq). unfold fill.
  assert (Eo : emit cap ((([] ++ [ch_quote]) ++ escape_text t) ++ [ch_quote]) [0] s1
               = Fault BufferOverflow).
  { apply emit_overflow. unfold cap. rewrite !length_app. simpl. lia. }
  unfold bind at 1 2. by rewrite Eo.
Qed.

Lemma print_string_overruns_witness :
  print_string_ptr (Some 1%positive) (mkState {[1%positive := Chars 2 [27]]} None [])
  = Fault BufferOverflow.
Proof.
  apply (print_string_overruns_on_control_character
           (mkState {[1%positive := Chars 2 [27]]} None []) 1%positive 2 [27]).
  - reflexivity.
  - constructor. reflexivity.
  - reflexivity.
Defined.

(** ** Printing a number *)

Lemma dsub_diag (x : double) :
  (exists s m e, x = S754_finite s m e) \/ x = S754_zero false ->
  dsub x x = S754_zero false.
Proof.
  intros [(sg & m & e & ->)| ->]; [|reflexivity].
  unfold dsub, SFsub. cbv zeta. by rewrite Z.sub_diag.
Qed.

Lemma double_of_int_shape z :
  - 2 ^ 52 < z < 2 ^ 52 ->
  (exists s m e, double_of_int z = S754_finite s m e /\ e < 0) \/
  double_of_int z = S754_zero false.
Proof.
  intros Hz. destruct z as [|p|p].
  - by right.
  - left. rewrite double_of_int_pos by lia.
    destruct (int_double_value false p ltac:(lia)) as (P & e & -> & _ & He & _). eauto.
  - left. rewrite double_of_int_neg by lia.
    destruct (int_double_value true p ltac:(lia)) as (P & e & -> & _ & He & _). eauto.
Qed.

Lemma integral_test v :
  in_int_range v = true ->
  dleb (dabs (dsub (double_of_int v) (double_of_int v))) DBL_EPSILON
  && dltb (dabs (double_of_int v)) d_1e60 = true.
Proof.
  intros Hr. unfold in_int_range, INT_MIN, INT_MAX in Hr.
  apply andb_true_iff in Hr as [H1 H2]. apply Z.leb_le in H1. apply Z.leb_le in H2.
  destruct (double_of_int_shape v ltac:(lia)) as [(sg & m & e & E & He)|E]; rewrite E.
  - rewrite dsub_diag by eauto. apply andb_true_iff. split; [reflexivity|].
    unfold dltb, dabs, SFabs, SFltb, d_1e60, SFcompare.
    destruct (Z.compare_spec e 147); try lia.
  - reflexivity.
Qed.

(** The integer branch of [print_number]. *)
Lemma print_number_integral sprintf_f s item n :
  heap s !! item = Some (Node n) ->
  valuedouble n = double_of_int (valueint n) ->
  in_int_range (valueint n) = true ->
  Z.of_nat (length (sprintf_d (valueint n))) < 32 ->
  oracle s = [] ->
  exists o,
    (o ∉ dom (heap s)) /\
    print_number sprintf_f item s
    = Ok (Some o) (mkState (<[o := Chars 32 (sprintf_d (valueint n))]> (heap s)) (ep s) []).
Proof.
  intros Hitem Hd Hr Hlen Ho.
  exists (fresh (dom (heap s))). split; [apply is_fresh|].
  unfold print_number.
  assert (Em : cJSON_malloc (Chars 32 []) s
               = Ok (Some (fresh (dom (heap s))))
                   (mkState (<[fresh (dom (heap s)) := Chars 32 []]> (heap s)) (ep s) [])).
  { unfold cJSON_malloc. by rewrite Ho. }
  rewrite (bind_ok _ _ _ _ _ Em). set (s1 := mkState _ _ _).
  assert (Hne : item <> fresh (dom (heap s))).
  { intros E. apply (is_fresh (dom (heap s))). rewrite <- E. apply elem_of_dom. eauto. }
  assert (Hi1 : heap s1 !! item = Some (Node n)).
  { unfold s1. cbn [heap]. by rewrite lookup_insert_ne. }
  rewrite (bind_ok _ _ _ _ _ (load_ok _ _ _ Hi1)).
  rewrite Hd, (integral_test _ Hr).
  assert (Efill : fill (fresh (dom (heap s))) 32 (sprintf_d (valueint n)) s1
                  = Ok tt (mkState (<[fresh (dom (heap s)) := Chars 32 (sprintf_d (valueint n))]>
                                      (heap s)) (ep s) [])).
  { unfold fill. rewrite (bind_ok _ _ _ _ _ (emit1 32 (sprintf_d (valueint n)) 0 s1 ltac:(lia))).
    unfold store_chars, s1. cbn [heap ep oracle]. rewrite lookup_insert_eq.
    by rewrite insert_insert_eq. }
  rewrite (bind_ok _ _ _ _ _ Efill). reflexivity.
Qed.

(** X18.  A number whose double is the exact conversion of its integer
    field is printed from the integer field, with [%d], into a fresh
    buffer of 32 bytes; [%f] is not used. *)
Theorem integral_number_prints_as_integer sprintf_f s item n :
  heap s !! item = Some (Node n) ->
  valuedouble n = double_of_int (valueint n) ->
  in_int_range (valueint n) = true ->
  Z.of_nat (length (sprintf_d (valueint n))) < 32 ->
  oracle s = [] ->
  exists o,
    (o ∉ dom (heap s)) /\
    print_number sprintf_f item s
    = Ok (Some o) (mkState (<[o := Chars 32 (sprintf_d (valueint n))]> (heap s)) (ep s) []).
Proof. apply print_number_integral. Qed.

Lemma integral_number_witness :
  exists o,
    (o ∉ dom (heap array_of_three)) /\
    print_number (fun _ => []) 3%positive array_of_three
    = Ok (Some o)
        (mkState (<[o := Chars 32 (sprintf_d (valueint (num_node (Some 4%positive)
                                                          (Some 2%positive) 2)))]>
                    (heap array_of_three)) (ep array_of_three) []).
Proof.
  apply (integral_number_prints_as_integer (fun _ => []) array_of_three 3%positive
           (num_node (Some 4%positive) (Some 2%positive) 2)); reflexivity.
Defined.

(** ** Appending to a container *)

Lemma last_sibling_chain items : forall D pv a s fuel,
  chain_rep (heap s) D pv (Some a) items -> (length items <= fuel)%nat ->
  exists l cl,
    last_sibling fuel a s = Ok l s /\ last_addr pv items = Some l /\
    heap s !! l = Some (Node cl) /\ next cl = None /\ l ∈ D.
Proof.
  induction items as [|it items IH]; intros D pv a s fuel Hrep Hf.
  - by apply chain_nil_inv in Hrep as [_ ?].
  - destruct it as [[a0 ca0] Da0].
    pose proof (chain_rep_head _ _ _ _ _ Hrep) as Hp. simpl in Hp. injection Hp as <-.
    apply chain_cons_inv in Hrep
      as (c & Da & Dr & [= -> ->] & -> & Ha & Hpv & Ho & Hrest & Hn & Hd).
    destruct fuel as [|fuel]; [simpl in Hf; lia|]. cbn [last_sibling].
    rewrite (bind_ok _ _ _ _ _ (load_ok _ _ _ Ha)).
    destruct (next c) as [b|] eqn:Hnx.
    + destruct (IH Dr (Some a) b s fuel Hrest ltac:(simpl in Hf; lia))
        as (l & cl & E & Hl & Hcl & Hnl & HlD).
      exists l, cl. split; [done|]. split; [done|]. split; [done|]. split; [done|].
      set_solver.
    + apply chain_rep_None in Hrest as [-> ->]. exists a, c.
      split; [done|]. split; [done|]. split; [done|]. split; [done|]. set_solver.
Qed.

Lemma chain_snoc items : forall (h h' : gmap addr block) D pv a l cl it c Di,
  chain_rep h D pv (Some a) items ->
  last_addr pv items = Some l -> h !! l = Some (Node cl) ->
  h !! it = Some (Node c) -> next c = None -> owns h Di c ->
  it ∉ D -> it ∉ Di -> Di ## D ->
  h' !! l = Some (Node (set_next (Some it) cl)) ->
  h' !! it = Some (Node (set_prev (Some l) c)) ->
  (forall x, x <> l -> x <> it -> h' !! x = h !! x) ->
  chain_rep h' (D ∪ ({[it]} ∪ Di)) pv (Some a) (items ++ [(it, unlink c, Di)]).
Proof.
  induction items as [|i0 items IH];
    intros h h' D pv a l cl it c Di Hrep Hlast Hl Hit Hnc Hoc HitD HitDi HDi Hl' Hit' Hfr.
  - by apply chain_nil_inv in Hrep as [_ ?].
  - destruct i0 as [[a0 ca0] Da0].
    pose proof (chain_rep_head _ _ _ _ _ Hrep) as Hp. simpl in Hp. injection Hp as <-.
    apply chain_cons_inv in Hrep
      as (ca & Da & Dr & [= -> ->] & -> & Ha & Hpv & Ho & Hrest & Hn & Hd).
    assert (Hnew : forall q, q ∈ ({[a]} ∪ Da ∪ Dr : gset addr) ->
              h' !! q = Some (Node (set_next (Some it) cl)) -> q = l ->
              chain_rep h' ({[it]} ∪ Di ∪ ∅) (Some l) (Some it) [(it, unlink c, Di)]).
    { intros q Hq _ _. rewrite <- (unlink_set_prev (Some l) c).
      replace (Some l) with (prev (set_prev (Some l) c)) at 1 by (by destruct c).
      apply chain_cons_owns.
      - done.
      - eapply owns_frame; [exact Hoc| |apply unlink_set_prev].
        intros x Hx. apply Hfr; [|set_solver].
        intros ->. cbn [last_addr] in Hlast.
        destruct items as [|i1 items].
        + simpl in Hlast. injection Hlast as <-. set_solver.
        + destruct (last_addr_in (i1 :: items) (Some a) ltac:(done)) as (i & Hin & Hla).
          rewrite Hla in Hlast. injection Hlast as Hlast. destruct i as [[b cb] Db].
          destruct (chain_rep_items _ _ _ _ _ Hrest _ _ _ Hin) as [Hb _].
          simpl in Hlast. subst b. set_solver.
      - replace (next (set_prev (Some l) c)) with (@None addr) by (by destruct c).
        apply chain_nil.
      - set_solver.
      - set_solver. }
    cbn [app]. destruct items as [|i1 items].
    + cbn [last_addr] in Hlast. injection Hlast as <-.
      pose proof (chain_nil_inv _ _ _ _ Hrest) as [-> Hnca].
      rewrite Ha in Hl. injection Hl as <-.
      replace ({[a]} ∪ Da ∪ ∅ ∪ ({[it]} ∪ Di)) with ({[a]} ∪ Da ∪ ({[it]} ∪ Di ∪ ∅))
        by set_solver.
      rewrite <- (unlink_set_next (Some it) ca). rewrite <- Hpv.
      replace (prev ca) with (prev (set_next (Some it) ca)) by (by destruct ca).
      apply chain_cons_owns.
      * done.
      * eapply owns_frame; [exact Ho| |apply unlink_set_next].
        intros x Hx. apply Hfr; set_solver.
      * replace (next (set_next (Some it) ca)) with (Some it) by (by destruct ca).
        apply (Hnew a); [set_solver|done|done].
      * set_solver.
      * set_solver.
    + pose proof (chain_rep_head _ _ _ _ _ Hrest) as Hnx. destruct i1 as [[b cb] Db].
      simpl in Hnx. cbn [last_addr] in Hlast.
      destruct (last_addr_in ((b, cb, Db) :: items) (Some a) ltac:(done)) as (i & Hin & Hla).
      simpl in Hla. rewrite Hla in Hlast. injection Hlast as Hlast.
      destruct i as [[bl cbl] Dbl]. simpl in Hlast. subst bl.
      destruct (chain_rep_items _ _ _ _ _ Hrest _ _ _ Hin) as [HlDr _].
      assert (Hal : a <> l) by set_solver.
      assert (Hait : a <> it) by set_solver.
      rewrite Hnx in Hrest.
      assert (Htail : chain_rep h' (Dr ∪ ({[it]} ∪ Di)) (Some a) (Some b)
                        (((b, cb, Db) :: items) ++ [(it, unlink c, Di)])).
      { apply (IH h h' Dr (Some a) b l cl it c Di);
          [exact Hrest|exact Hla|exact Hl|exact Hit|exact Hnc|exact Hoc|
           set_solver|exact HitDi|set_solver|exact Hl'|exact Hit'|exact Hfr]. }
      replace ({[a]} ∪ Da ∪ Dr ∪ ({[it]} ∪ Di)) with ({[a]} ∪ Da ∪ (Dr ∪ ({[it]} ∪ Di)))
        by set_solver.
      rewrite <- Hpv. apply chain_cons_owns.
      * rewrite Hfr; done.
      * eapply owns_frame; [exact Ho| |done].
        intros x Hx. apply Hfr; set_solver.
      * rewrite Hnx. exact Htail.
      * set_solver.
      * set_solver.
Qed.

(** What [cJSON_AddItemToArray] does to a chain of children. *)
Lemma add_item_chain s arr A D items it c Di :
  heap s !! arr = Some (Node A) ->
  chain_rep (heap s) D None (child A) items -> arr ∉ D ->
  heap s !! it = Some (Node c) -> next c = None -> prev c = None ->
  owns (heap s) Di c ->
  it <> arr -> it ∉ D -> it ∉ Di -> arr ∉ Di -> Di ## D ->
  exists s' first,
    cJSON_AddItemToArray arr it s = Ok tt s' /\
    ep s' = ep s /\ oracle s' = oracle s /\ dom (heap s') = dom (heap s) /\
    heap s' !! arr = Some (Node (set_child (Some first) A)) /\
    chain_rep (heap s') (D ∪ ({[it]} ∪ Di)) None (Some first)
      (items ++ [(it, unlink c, Di)]).
Proof.
  intros Harr Hrep HarrD Hit Hnc Hpc Hoc Hne HitD HitDi HarrDi HDi.
  unfold cJSON_AddItemToArray. rewrite (bind_ok _ _ _ _ _ (load_ok _ _ _ Harr)).
  destruct (child A) as [a|] eqn:Hch.
  - rewrite (bind_ok get_heap _ s (heap s) s) by done.
    destruct (last_sibling_chain items D None a s (S (size (heap s))) Hrep)
      as (l & cl & El & Hlast & Hl & Hnl & HlD).
    { pose proof (chain_fuel _ _ _ _ _ Hrep). lia. }
    rewrite (bind_ok _ _ _ _ _ El).
    rewrite (bind_ok _ _ _ _ _ (modify_ok _ _ _ _ Hl)).
    set (s1 := mkState _ _ _).
    assert (Hlit : l <> it) by set_solver.
    assert (Hit1 : heap s1 !! it = Some (Node c)).
    { unfold s1. cbn [heap]. by rewrite lookup_insert_ne. }
    rewrite (modify_ok _ _ _ _ Hit1).
    eexists _, a. split; [reflexivity|]. unfold s1. cbn [heap ep oracle].
    split; [done|]. split; [done|].
    assert (Hlarr : l <> arr) by set_solver.
    split; [|split].
    + rewrite !dom_insert_L.
      assert (l ∈ dom (heap s)) by (apply elem_of_dom; eauto).
      assert (it ∈ dom (heap s)) by (apply elem_of_dom; eauto).
      set_solver.
    + rewrite !lookup_insert_ne by done. rewrite Harr. by rewrite <- Hch, set_child_id.
    + eapply (chain_snoc items (heap s) _ D None a l cl it c Di); try done.
      * rewrite lookup_insert_ne by done. apply lookup_insert_eq.
      * apply lookup_insert_eq.
      * intros x Hx1 Hx2. by rewrite !lookup_insert_ne.
  - apply chain_rep_None in Hrep as [-> ->].
    rewrite (modify_ok _ _ _ _ Harr).
    eexists _, it. split; [reflexivity|]. cbn [heap ep oracle].
    split; [done|]. split; [done|]. split; [|split].
    + rewrite dom_insert_L. assert (arr ∈ dom (heap s)) by (apply elem_of_dom; eauto).
      set_solver.
    + apply lookup_insert_eq.
    + cbn [app]. replace (∅ ∪ ({[it]} ∪ Di)) with ({[it]} ∪ Di ∪ (∅ : gset addr)) by set_solver.
      rewrite <- Hpc. apply chain_cons_owns.
      * by rewrite lookup_insert_ne.
      * eapply owns_frame; [exact Hoc| |done].
        intros x Hx. apply lookup_insert_ne. set_solver.
      * rewrite Hnc. apply chain_nil.
      * set_solver.
      * set_solver.
Qed.

(** X19.  [cJSON_AddItemToArray] appends: the children become the former
    children followed by the new item, linked in both directions, and no
    block is allocated or released. *)
Theorem add_item_appends_at_the_end s arr A D items it c Di :
  heap s !! arr = Some (Node A) ->
  chain_rep (heap s) D None (child A) items -> arr ∉ D ->
  heap s !! it = Some (Node c) -> next c = None -> prev c = None ->
  owns (heap s) Di c ->
  it <> arr -> it ∉ D -> it ∉ Di -> arr ∉ Di -> Di ## D ->
  exists s' first,
    cJSON_AddItemToArray arr it s = Ok tt s' /\
    ep s' = ep s /\ oracle s' = oracle s /\ dom (heap s') = dom (heap s) /\
    heap s' !! arr = Some (Node (set_child (Some first) A)) /\
    chain_rep (heap s') (D ∪ ({[it]} ∪ Di)) None (Some first)
      (items ++ [(it, unlink c, Di)]).
Proof. apply add_item_chain. Qed.

Lemma array_and_item_chain :
  chain_rep (heap array_and_item) {[2%positive; 3%positive; 4%positive]} None
    (Some 2%positive) three_items.
Proof.
  eapply chain_rep_frame; [exact three_items_chain|].
  intros a Ha. unfold array_and_item. cbn [heap]. apply lookup_insert_ne. set_solver.
Qed.

Lemma lone_number_owns_nothing h i : owns h ∅ (num_node None None i).
Proof.
  right. split; [reflexivity|]. exists ∅, ∅, ∅, [].
  split; [by rewrite !union_empty_l_L|]. split; [reflexivity|]. split; [reflexivity|].
  split; [apply chain_nil|]. split; set_solver.
Qed.

Lemma add_item_witness :
  exists s' first,
    cJSON_AddItemToArray 1%positive 5%positive array_and_item = Ok tt s' /\
    ep s' = ep array_and_item /\ oracle s' = oracle array_and_item /\
    dom (heap s') = dom (heap array_and_item) /\
    heap s' !! 1%positive
      = Some (Node (set_child (Some first)
                      (mkJSON None None (Some 2%positive) cJSON_Array None 0 d_zero None))) /\
    chain_rep (heap s') ({[2%positive; 3%positive; 4%positive]} ∪ ({[5%positive]} ∪ ∅)) None
      (Some first) (three_items ++ [(5%positive, unlink (num_node None None 4), ∅)]).
Proof.
  apply (add_item_appends_at_the_end array_and_item 1%positive
           (mkJSON None None (Some 2%positive) cJSON_Array None 0 d_zero None)
           {[2%positive; 3%positive; 4%positive]} three_items 5%positive
           (num_node None None 4) ∅).
  - reflexivity.
  - exact array_and_item_chain.
  - set_solver.
  - reflexivity.
  - reflexivity.
  - reflexivity.
  - apply lone_number_owns_nothing.
  - discriminate.
  - set_solver.
  - set_solver.
  - set_solver.
  - set_solver.
Defined.

(** ** Termination of the parser *)

Lemma nofuel_ok {A} (a : A) s : nofuel (Ok a s).
Proof. intros f H. discriminate H. Qed.

Lemma nofuel_fault {A} f : f <> OutOfFuel -> nofuel (@Fault A f).
Proof. intros Hf f' [= <-]. done. Qed.

Lemma nofuel_bind {A B} (m : M A) (k : A -> M B) s :
  nofuel (m s) -> (forall a s', m s = Ok a s' -> nofuel (k a s')) -> nofuel (bind m k s).
Proof.
  intros Hm Hk. unfold bind. destruct (m s) as [a s'|f].
  - by apply Hk.
  - intros f' [= <-]. by apply Hm.
Qed.

Create HintDb nofuel.

Ltac nf_step :=
  first
  [ apply nofuel_ok
  | apply nofuel_fault; discriminate
  | lazymatch goal with
    | |- nofuel (ret _ _) => apply nofuel_ok
    | |- nofuel (raise _ _) => apply nofuel_fault; discriminate
    | |- nofuel (bind _ _ _) => apply nofuel_bind; [|intros ? ? ?]
    | |- nofuel ((if ?b then _ else _) _) => destruct b eqn:?
    | |- nofuel ((match ?x with _ => _ end) _) => destruct x eqn:?
    | |- nofuel ((let _ := _ in _) _) => cbv zeta
    end
  | solve [eauto with nofuel] ].
Ltac nf := repeat nf_step.

Lemma nofuel_get_heap s : nofuel (get_heap s).
Proof. apply nofuel_ok. Qed.
Lemma nofuel_set_ep p s : nofuel (set_ep p s).
Proof. apply nofuel_ok. Qed.
Lemma nofuel_malloc b s : nofuel (cJSON_malloc b s).
Proof. unfold cJSON_malloc. destruct (oracle s) as [|[] ?]; apply nofuel_ok. Qed.
Lemma nofuel_free a s : nofuel (cJSON_free a s).
Proof. unfold cJSON_free. destruct (heap s !! a); nf. Qed.
Lemma nofuel_load a s : nofuel (load a s).
Proof. unfold load. destruct (heap s !! a) as [[| |]|]; nf. Qed.
Lemma nofuel_store a c s : nofuel (store a c s).
Proof. unfold store. destruct (heap s !! a) as [[| |]|]; nf. Qed.
#[local] Hint Resolve nofuel_get_heap nofuel_set_ep nofuel_malloc nofuel_free nofuel_load
  nofuel_store : nofuel.
Lemma nofuel_modify a f s : nofuel (modify a f s).
Proof. unfold modify. nf. Qed.
Lemma nofuel_store_chars a l s : nofuel (store_chars a l s).
Proof. unfold store_chars. destruct (heap s !! a) as [[| |]|]; nf. Qed.
Lemma nofuel_int_chk z s : nofuel (int_chk z s).
Proof. unfold int_chk. nf. Qed.
Lemma nofuel_emit cap d bs s : nofuel (emit cap d bs s).
Proof. unfold emit. nf. Qed.
Lemma nofuel_deref v s : nofuel (deref v s).
Proof. unfold deref. nf. Qed.
Lemma nofuel_New_Item s : nofuel (cJSON_New_Item s).
Proof. apply nofuel_malloc. Qed.
#[local] Hint Resolve nofuel_modify nofuel_store_chars nofuel_int_chk nofuel_emit
  nofuel_deref nofuel_New_Item : nofuel.

Section Termination.
Variable pow : double -> double -> double.
Variable mem : list Z.

Lemma nofuel_peek p s : nofuel (peek mem p s).
Proof. unfold peek. nf. Qed.
#[local] Hint Resolve nofuel_peek : nofuel.

Lemma peek_lt p s c s' : peek mem p s = Ok c s' -> (p < length mem)%nat.
Proof.
  unfold peek. destruct (mem !! p) eqn:E; [|discriminate]. intros _.
  by eapply lookup_lt_Some.
Qed.

Lemma nofuel_skip_loop l : forall p s, nofuel (skip_loop l p s).
Proof. induction l as [|c l IH]; intros p s; simpl; nf. Qed.
#[local] Hint Resolve nofuel_skip_loop : nofuel.

Lemma nofuel_skip v s : nofuel (skip mem v s).
Proof. unfold skip. nf. Qed.
#[local] Hint Resolve nofuel_skip : nofuel.

Lemma skip_loop_pos l : forall p s r s',
  skip_loop l p s = Ok r s' -> (p <= r < p + length l)%nat.
Proof.
  induction l as [|c l IH]; intros p s r s' H; simpl in H; [discriminate|].
  destruct (negb (c =? 0) && (c <=? 32)).
  - apply IH in H. simpl. lia.
  - apply ret_inv in H as [-> _]. simpl. lia.
Qed.

Lemma skip_pos p s r s' :
  skip mem (Some p) s = Ok r s' -> exists p', r = Some p' /\ (p <= p' < length mem)%nat.
Proof.
  unfold skip. intros H. apply bind_inv in H as (p' & s1 & H1 & H).
  apply ret_inv in H as [-> _]. exists p'. split; [done|].
  apply skip_loop_pos in H1. rewrite length_drop in H1. lia.
Qed.

Lemma nofuel_match_lit lit : forall p s, nofuel (match_lit mem lit p s).
Proof. induction lit as [|x lit IH]; intros p s; simpl; nf. Qed.
#[local] Hint Resolve nofuel_match_lit : nofuel.

(** *** Numbers *)

Lemma nofuel_number_digits frac l : forall num n sc s, nofuel (number_digits frac l num n sc s).
Proof. induction l as [|c l IH]; intros num n sc s; simpl; nf. Qed.
Lemma nofuel_exponent_digits l : forall num sc s, nofuel (exponent_digits l num sc s).
Proof. induction l as [|c l IH]; intros num sc s; simpl; nf. Qed.
#[local] Hint Resolve nofuel_number_digits nofuel_exponent_digits : nofuel.

Lemma nofuel_parse_number item num s : nofuel (parse_number pow mem item num s).
Proof. unfold parse_number. nf. Qed.
#[local] Hint Resolve nofuel_parse_number : nofuel.

Lemma number_digits_mono frac l : forall num n sc s n' sc' num' s',
  number_digits frac l num n sc s = Ok (n', sc', num') s' -> (num <= num')%nat.
Proof.
  induction l as [|c l IH]; intros num n sc s n' sc' num' s' H; simpl in H; [discriminate|].
  destruct (is_digit c).
  - apply bind_inv in H as (sc1 & s1 & _ & H). apply IH in H. lia.
  - apply ret_inv in H as [[= _ _ ->] _]. lia.
Qed.

Lemma exponent_digits_mono l : forall num sc s sc' num' s',
  exponent_digits l num sc s = Ok (sc', num') s' -> (num <= num')%nat.
Proof.
  induction l as [|c l IH]; intros num sc s sc' num' s' H; simpl in H; [discriminate|].
  destruct (is_digit c).
  - apply bind_inv in H as (t & s1 & _ & H). apply bind_inv in H as (t' & s2 & _ & H).
    apply IH in H. lia.
  - apply ret_inv in H as [[= _ ->] _]. lia.
Qed.

Lemma parse_number_mono item num s r s' :
  parse_number pow mem item num s = Ok (Some r) s' -> (num <= r)%nat.
Proof.
  unfold parse_number. intros H.
  apply bind_inv in H as (c0 & s0 & _ & H).
  set (num1 := if c0 =? ch_minus then S num else num) in H.
  assert (num <= num1)%nat by (unfold num1; destruct (c0 =? ch_minus); lia).
  apply bind_inv in H as (c1 & s1 & _ & H).
  set (num2 := if c1 =? ch_0 then S num1 else num1) in H.
  assert (num1 <= num2)%nat by (unfold num2; destruct (c1 =? ch_0); lia).
  apply bind_inv in H as (c2 & s2 & _ & H).
  apply bind_inv in H as ([[n3 sc3] num3] & s3 & H3 & H).
  assert (num2 <= num3)%nat.
  { destruct ((ch_1 <=? c2) && (c2 <=? ch_9)).
    - by apply number_digits_mono in H3.
    - apply ret_inv in H3 as [[= _ _ ->] _]. lia. }
  apply bind_inv in H as (c4 & s4 & _ & H).
  apply bind_inv in H as ([[n5 sc5] num5] & s5 & H5 & H).
  assert (num3 <= num5)%nat.
  { destruct (c4 =? ch_dot).
    - apply number_digits_mono in H5. lia.
    - apply ret_inv in H5 as [[= _ _ ->] _]. lia. }
  apply bind_inv in H as (c6 & s6 & _ & H).
  apply bind_inv in H as ([[ss sg] num7] & s7 & H7 & H).
  assert (num5 <= num7)%nat.
  { destruct ((c6 =? 101) || (c6 =? 69)).
    - apply bind_inv in H7 as (c8 & s8 & _ & H7).
      apply bind_inv in H7 as ([sx nx] & s9 & H9 & H7).
      apply exponent_digits_mono in H9. apply ret_inv in H7 as [[= _ _ ->] _]. simpl.
      destruct ((c8 =? ch_plus) || (c8 =? ch_minus)); lia.
    - apply ret_inv in H7 as [[= _ _ ->] _]. lia. }
  apply bind_inv in H as (t & s8 & _ & H). apply bind_inv in H as (e & s9 & _ & H).
  apply bind_inv in H as (u & s10 & _ & H).
  destruct (double_to_int _); [|discriminate].
  apply bind_inv in H as (u1 & s11 & _ & H). apply bind_inv in H as (u2 & s12 & _ & H).
  apply ret_inv in H as [[= ->] _]. lia.
Qed.

(** *** Strings *)

Lemma nofuel_parse_hex4_loop k : forall p out s, nofuel (parse_hex4_loop mem k p out s).
Proof. induction k as [|k IH]; intros p out s; simpl; nf. Qed.
#[local] Hint Resolve nofuel_parse_hex4_loop : nofuel.

Lemma nofuel_parse_unicode p s : nofuel (parse_unicode mem p s).
Proof. unfold parse_unicode, parse_hex4. nf. Qed.
#[local] Hint Resolve nofuel_parse_unicode : nofuel.

Lemma nofuel_string_measure l : forall p len s, nofuel (string_measure l p len s).
Proof.
  induction l as [l IH] using (induction_ltof1 _ (@length Z)). unfold ltof in IH.
  destruct l as [|c l]; intros p len s; simpl; [nf|].
  destruct (negb (c =? ch_quote) && negb (c =? 0)); [|nf].
  apply nofuel_bind; [nf|]. intros len' s1 _.
  destruct (c =? ch_backslash).
  - destruct l as [|c' l'].
    + apply IH. simpl. lia.
    + apply IH. simpl. lia.
  - apply IH. simpl. lia.
Qed.
#[local] Hint Resolve nofuel_string_measure : nofuel.

Lemma parse_hex4_loop_pos k : forall p out s p' v s',
  parse_hex4_loop mem k p out s = Ok (Some (p', v)) s' ->
  p' = (p + k)%nat /\ ((0 < k)%nat -> (p' <= length mem)%nat).
Proof.
  induction k as [|k IH]; intros p out s p' v s' H; simpl in H.
  - apply ret_inv in H as [[= -> ->] _]. split; lia.
  - apply bind_inv in H as (c & s1 & Hp & H). apply peek_lt in Hp.
    destruct (hex_digit c); [|by apply ret_inv in H as [? _]].
    apply IH in H as [-> Hb]. split; [lia|]. intros _.
    destruct k; [lia|]. apply Hb. lia.
Qed.

Lemma parse_unicode_pos ptr s p' uc s' :
  parse_unicode mem ptr s = Ok (Some (p', uc)) s' -> (ptr < p' <= length mem)%nat.
Proof.
  unfold parse_unicode, parse_hex4. intros H.
  apply bind_inv in H as (r & s1 & H1 & H).
  destruct r as [[p1 uc1]|]; [|by apply ret_inv in H as [? _]].
  apply parse_hex4_loop_pos in H1 as [-> Hb1]. specialize (Hb1 ltac:(lia)).
  destruct ((56320 <=? uc1) && (uc1 <=? 57343)); [by apply ret_inv in H as [? _]|].
  destruct ((55296 <=? uc1) && (uc1 <=? 56319)).
  - apply bind_inv in H as (c0 & s2 & _ & H).
    destruct (negb (c0 =? ch_backslash)); [by apply ret_inv in H as [? _]|].
    apply bind_inv in H as (c1 & s3 & _ & H).
    destruct (negb (c1 =? 117)); [by apply ret_inv in H as [? _]|].
    apply bind_inv in H as (r2 & s4 & H2 & H).
    destruct r2 as [[p2 uc2]|]; [|by apply ret_inv in H as [? _]].
    apply parse_hex4_loop_pos in H2 as [-> Hb2]. specialize (Hb2 ltac:(lia)).
    apply ret_inv in H as [[= -> _] _]. lia.
  - apply ret_inv in H as [[= -> _] _]. lia.
Qed.

Lemma nofuel_string_decode fuel : forall cap ptr acc s,
  (ptr <= length mem + 1)%nat -> (length mem + 2 <= fuel + ptr)%nat ->
  nofuel (string_decode mem fuel cap ptr acc s).
Proof.
  induction fuel as [|fuel IH]; intros cap ptr acc s Hp Hf; [lia|].
  cbn [string_decode]. apply nofuel_bind; [nf|]. intros c s1 Hc. apply peek_lt in Hc.
  destruct (negb (c =? ch_quote) && negb (c =? 0)); [|nf].
  assert (Hrec : forall cap acc s, nofuel (string_decode mem fuel cap (S ptr) acc s))
    by (intros; apply IH; lia).
  destruct (negb (c =? ch_backslash)).
  { apply nofuel_bind; [nf|]. intros; apply Hrec. }
  cbv zeta. apply nofuel_bind; [nf|]. intros e s2 He. apply peek_lt in He.
  assert (Hrec2 : forall cap acc s, nofuel (string_decode mem fuel cap (S (S ptr)) acc s))
    by (intros; apply IH; lia).
  repeat match goal with
  | |- nofuel ((if ?b then _ else _) _) => destruct b
  | |- nofuel (bind (emit _ _ _) _ _) => apply nofuel_bind; [nf|]; intros; apply Hrec2
  end.
  apply nofuel_bind; [nf|]. intros r s3 Hr.
  destruct r as [[p' uc]|]; [|nf]. apply parse_unicode_pos in Hr.
  apply nofuel_bind; [nf|]. intros. apply IH; lia.
Qed.

Lemma string_decode_mono fuel : forall cap ptr acc s p chars s',
  string_decode mem fuel cap ptr acc s = Ok (Some (p, chars)) s' -> (ptr <= p)%nat.
Proof.
  induction fuel as [|fuel IH]; intros cap ptr acc s p chars s' H; [discriminate|].
  cbn [string_decode] in H. apply bind_inv in H as (c & s1 & _ & H).
  destruct (negb (c =? ch_quote) && negb (c =? 0)); cycle 1.
  { apply ret_inv in H as [[= -> _] _]. lia. }
  destruct (negb (c =? ch_backslash)).
  { apply bind_inv in H as (d & s2 & _ & H). apply IH in H. lia. }
  cbv zeta in H. apply bind_inv in H as (e & s2 & _ & H).
  repeat match type of H with
  | (if ?b then _ else _) _ = _ => destruct b
  | bind (emit _ _ _) _ _ = _ =>
      apply bind_inv in H as (? & ? & _ & H); apply IH in H
  end; try lia.
  apply bind_inv in H as (r & s3 & Hr & H).
  destruct r as [[p' uc]|]; [|by apply ret_inv in H as [? _]].
  apply parse_unicode_pos in Hr. apply bind_inv in H as (d & s4 & _ & H).
  apply IH in H. lia.
Qed.

Lemma nofuel_parse_string item str s : nofuel (parse_string mem item str s).
Proof.
  unfold parse_string. apply nofuel_bind; [nf|]. intros c s1 Hc. apply peek_lt in Hc.
  destruct (negb (c =? ch_quote)); [nf|].
  apply nofuel_bind; [nf|]. intros [[p1 c1] len] s2 _.
  destruct (c1 =? 0); [nf|].
  apply nofuel_bind; [nf|]. intros cap s3 _.
  apply nofuel_bind; [nf|]. intros out s4 _. destruct out as [out|]; [|nf].
  apply nofuel_bind; [apply nofuel_string_decode; lia|]. intros r s5 _. nf.
Qed.
#[local] Hint Resolve nofuel_parse_string : nofuel.

Lemma parse_string_mono item str s r s' :
  parse_string mem item str s = Ok (Some r) s' -> (str <= r)%nat.
Proof.
  unfold parse_string. intros H. apply bind_inv in H as (c & s1 & _ & H).
  destruct (negb (c =? ch_quote)).
  { apply bind_inv in H as (? & ? & _ & H). by apply ret_inv in H as [? _]. }
  apply bind_inv in H as ([[p1 c1] len] & s2 & _ & H).
  destruct (c1 =? 0).
  { apply bind_inv in H as (? & ? & _ & H). by apply ret_inv in H as [? _]. }
  apply bind_inv in H as (cap & s3 & _ & H).
  apply bind_inv in H as (out & s4 & _ & H).
  destruct out as [out|]; [|by apply ret_inv in H as [? _]].
  apply bind_inv in H as (rd & s5 & Hd & H).
  destruct rd as [[ptr chars]|].
  - apply string_decode_mono in Hd.
    apply bind_inv in H as (? & ? & _ & H). apply bind_inv in H as (? & ? & _ & H).
    apply bind_inv in H as (c2 & ? & _ & H). cbv zeta in H.
    apply bind_inv in H as (? & ? & _ & H). apply bind_inv in H as (? & ? & _ & H).
    apply ret_inv in H as [[= ->] _]. destruct (c2 =? ch_quote); lia.
  - apply bind_inv in H as (? & ? & _ & H). by apply ret_inv in H as [? _].
Qed.
(** *** Arrays and objects *)

Lemma skip_None s : skip mem None s = Ok None s.
Proof. reflexivity. Qed.

Lemma skip_cptr_pos v s r s' :
  skip mem v s = Ok (Some r) s' -> exists p, v = Some p /\ (p <= r < length mem)%nat.
Proof.
  destruct v as [p|]; [|discriminate]. intros H.
  apply skip_pos in H as (p' & [= <-] & Hp). eauto.
Qed.

Section DescentTermination.
Variable pv : addr -> cptr -> M cptr.
Variable v0 : nat.
Hypothesis pv_mono : forall item v s r s',
  pv item (Some v) s = Ok (Some r) s' -> (v <= r)%nat.
Hypothesis pv_nofuel : forall item v s,
  (v0 < v <= length mem)%nat -> nofuel (pv item (Some v) s).

Lemma parse_array_loop_mono n : forall child value s r s',
  parse_array_loop mem pv n child value s = Ok (Some r) s' -> (value <= r)%nat.
Proof.
  induction n as [|n IH]; intros child value s r s' H; [discriminate|].
  cbn [parse_array_loop] in H. apply bind_inv in H as (c & s1 & _ & H).
  destruct (c =? ch_comma); [|apply ret_inv in H as [[= ->] _]; lia].
  apply bind_inv in H as (ni & s2 & _ & H).
  destruct ni as [ni|]; [|by apply ret_inv in H as [? _]].
  apply bind_inv in H as (? & s3 & _ & H). apply bind_inv in H as (? & s4 & _ & H).
  apply bind_inv in H as (v1 & s5 & H1 & H). apply skip_pos in H1 as (p1 & -> & Hp1).
  apply bind_inv in H as (v2 & s6 & H2 & H).
  apply bind_inv in H as (v3 & s7 & H3 & H).
  destruct v3 as [p3|]; [|by apply ret_inv in H as [? _]].
  apply skip_cptr_pos in H3 as (p2 & -> & Hp3). apply pv_mono in H2.
  apply IH in H. lia.
Qed.

Lemma parse_member_mono child value s r s' :
  parse_member mem pv child value s = Ok (Some r) s' -> (value <= r < length mem)%nat.
Proof.
  unfold parse_member. intros H.
  apply bind_inv in H as (v1 & s1 & H1 & H). apply skip_pos in H1 as (p1 & -> & Hp1).
  apply bind_inv in H as (str & s2 & Hd & H). apply ret_inv in Hd as [-> _].
  apply bind_inv in H as (v2 & s3 & H2 & H).
  apply bind_inv in H as (v3 & s4 & H3 & H).
  destruct v3 as [p3|]; [|by apply ret_inv in H as [? _]].
  apply skip_cptr_pos in H3 as (p2 & -> & Hp3). apply parse_string_mono in H2.
  apply bind_inv in H as (? & s5 & _ & H). apply bind_inv in H as (? & s6 & _ & H).
  apply bind_inv in H as (? & s7 & _ & H). apply bind_inv in H as (c & s8 & _ & H).
  destruct (negb (c =? ch_colon)).
  { apply bind_inv in H as (? & ? & _ & H). by apply ret_inv in H as [? _]. }
  apply bind_inv in H as (v4 & s9 & H4 & H). apply skip_pos in H4 as (p4 & -> & Hp4).
  apply bind_inv in H as (v5 & s10 & H5 & H).
  apply skip_cptr_pos in H as (p5 & -> & Hp5). apply pv_mono in H5. lia.
Qed.

Lemma parse_object_loop_mono n : forall child value s r s',
  parse_object_loop mem pv n child value s = Ok (Some r) s' -> (value <= r)%nat.
Proof.
  induction n as [|n IH]; intros child value s r s' H; [discriminate|].
  cbn [parse_object_loop] in H. apply bind_inv in H as (c & s1 & _ & H).
  destruct (c =? ch_comma); [|apply ret_inv in H as [[= ->] _]; lia].
  apply bind_inv in H as (ni & s2 & _ & H).
  destruct ni as [ni|]; [|by apply ret_inv in H as [? _]].
  apply bind_inv in H as (? & s3 & _ & H). apply bind_inv in H as (? & s4 & _ & H).
  apply bind_inv in H as (v1 & s5 & H1 & H).
  destruct v1 as [p1|]; [|by apply ret_inv in H as [? _]].
  apply parse_member_mono in H1. apply IH in H. lia.
Qed.

Lemma parse_array_mono item value s r s' :
  parse_array mem pv item value s = Ok (Some r) s' -> (value <= r)%nat.
Proof.
  unfold parse_array. intros H. apply bind_inv in H as (c & s1 & _ & H).
  destruct (negb (c =? ch_lbracket)).
  { apply bind_inv in H as (? & ? & _ & H). by apply ret_inv in H as [? _]. }
  apply bind_inv in H as (? & s2 & _ & H).
  apply bind_inv in H as (v1 & s3 & H1 & H). apply skip_pos in H1 as (p1 & -> & Hp1).
  apply bind_inv in H as (p & s4 & Hd & H). apply ret_inv in Hd as [-> _].
  apply bind_inv in H as (c1 & s5 & _ & H).
  destruct (c1 =? ch_rbracket); [apply ret_inv in H as [[= ->] _]; lia|].
  apply bind_inv in H as (ch & s6 & _ & H). apply bind_inv in H as (? & s7 & _ & H).
  destruct ch as [ch|]; [|by apply ret_inv in H as [? _]].
  apply bind_inv in H as (v2 & s8 & H2 & H). apply skip_pos in H2 as (p2 & -> & Hp2).
  apply bind_inv in H as (v3 & s9 & H3 & H).
  apply bind_inv in H as (v4 & s10 & H4 & H).
  destruct v4 as [p4|]; [|by apply ret_inv in H as [? _]].
  apply skip_cptr_pos in H4 as (p3 & -> & Hp4). apply pv_mono in H3.
  apply bind_inv in H as (rl & s11 & Hl & H).
  destruct rl as [p5|]; [|by apply ret_inv in H as [? _]].
  apply parse_array_loop_mono in Hl.
  apply bind_inv in H as (c2 & s12 & _ & H).
  destruct (c2 =? ch_rbracket).
  - apply ret_inv in H as [[= ->] _]. lia.
  - apply bind_inv in H as (? & ? & _ & H). by apply ret_inv in H as [? _].
Qed.

Lemma parse_object_mono item value s r s' :
  parse_object mem pv item value s = Ok (Some r) s' -> (value <= r)%nat.
Proof.
  unfold parse_object. intros H. apply bind_inv in H as (c & s1 & _ & H).
  destruct (negb (c =? ch_lbrace)).
  { apply bind_inv in H as (? & ? & _ & H). by apply ret_inv in H as [? _]. }
  apply bind_inv in H as (? & s2 & _ & H).
  apply bind_inv in H as (v1 & s3 & H1 & H). apply skip_pos in H1 as (p1 & -> & Hp1).
  apply bind_inv in H as (p & s4 & Hd & H). apply ret_inv in Hd as [-> _].
  apply bind_inv in H as (c1 & s5 & _ & H).
  destruct (c1 =? ch_rbrace); [apply ret_inv in H as [[= ->] _]; lia|].
  apply bind_inv in H as (ch & s6 & _ & H). apply bind_inv in H as (? & s7 & _ & H).
  destruct ch as [ch|]; [|by apply ret_inv in H as [? _]].
  apply bind_inv in H as (v2 & s8 & H2 & H).
  destruct v2 as [p2|]; [|by apply ret_inv in H as [? _]].
  apply parse_member_mono in H2.
  apply bind_inv in H as (rl & s11 & Hl & H).
  destruct rl as [p5|]; [|by apply ret_inv in H as [? _]].
  apply parse_object_loop_mono in Hl.
  apply bind_inv in H as (c2 & s12 & _ & H).
  destruct (c2 =? ch_rbrace).
  - apply ret_inv in H as [[= ->] _]. lia.
  - apply bind_inv in H as (? & ? & _ & H). by apply ret_inv in H as [? _].
Qed.

Lemma nofuel_pv_then_skip item p1 (k : cptr -> M cptr) s :
  (v0 < p1 <= length mem)%nat ->
  (forall p3 s', (p1 <= p3 < length mem)%nat -> nofuel (k (Some p3) s')) ->
  (forall s', nofuel (k None s')) ->
  nofuel ((v <- pv item (Some p1) ;; v <- skip mem v ;; k v) s).
Proof.
  intros Hp Hk HkN. apply nofuel_bind; [by apply pv_nofuel|]. intros v2 s1 H2.
  apply nofuel_bind; [nf|]. intros v3 s2 H3. destruct v3 as [p3|]; [|apply HkN].
  apply skip_cptr_pos in H3 as (p2 & -> & Hp3). apply pv_mono in H2.
  apply Hk. lia.
Qed.

Lemma parse_array_loop_nofuel n : forall child value s,
  (v0 < value <= length mem)%nat -> (length mem < n + value)%nat ->
  nofuel (parse_array_loop mem pv n child value s).
Proof.
  induction n as [|n IH]; intros child value s Hv Hn; [lia|].
  cbn [parse_array_loop]. apply nofuel_bind; [nf|]. intros c s1 Hc. apply peek_lt in Hc.
  destruct (c =? ch_comma); [|nf].
  apply nofuel_bind; [nf|]. intros ni s2 _. destruct ni as [ni|]; [|nf].
  apply nofuel_bind; [nf|]. intros ? s3 _. apply nofuel_bind; [nf|]. intros ? s4 _.
  apply nofuel_bind; [nf|]. intros v1 s5 H1. apply skip_pos in H1 as (p1 & -> & Hp1).
  apply (nofuel_pv_then_skip ni p1
           (fun v => match v with Some v => parse_array_loop mem pv n ni v | None => ret None end)).
  - lia.
  - intros p3 s' Hp3. apply IH; lia.
  - intros s'. nf.
Qed.

Lemma parse_member_nofuel child value s :
  (v0 <= value)%nat -> nofuel (parse_member mem pv child value s).
Proof.
  intros Hv. unfold parse_member.
  apply nofuel_bind; [nf|]. intros v1 s1 H1. apply skip_pos in H1 as (p1 & -> & Hp1).
  apply nofuel_bind; [nf|]. intros str s2 Hd. apply ret_inv in Hd as [-> _].
  apply nofuel_bind; [nf|]. intros v2 s3 H2.
  apply nofuel_bind; [nf|]. intros v3 s4 H3. destruct v3 as [p3|]; [|nf].
  apply skip_cptr_pos in H3 as (p2 & -> & Hp3). apply parse_string_mono in H2.
  apply nofuel_bind; [nf|]. intros ? s5 _. apply nofuel_bind; [nf|]. intros ? s6 _.
  apply nofuel_bind; [nf|]. intros ? s7 _. apply nofuel_bind; [nf|]. intros c s8 Hc.
  apply peek_lt in Hc. destruct (negb (c =? ch_colon)); [nf|].
  apply nofuel_bind; [nf|]. intros v4 s9 H4. apply skip_pos in H4 as (p4 & -> & Hp4).
  apply nofuel_bind; [apply pv_nofuel; lia|]. intros v5 s10 _. nf.
Qed.

Lemma parse_object_loop_nofuel n : forall child value s,
  (v0 < value <= length mem)%nat -> (length mem < n + value)%nat ->
  nofuel (parse_object_loop mem pv n child value s).
Proof.
  induction n as [|n IH]; intros child value s Hv Hn; [lia|].
  cbn [parse_object_loop]. apply nofuel_bind; [nf|]. intros c s1 Hc. apply peek_lt in Hc.
  destruct (c =? ch_comma); [|nf].
  apply nofuel_bind; [nf|]. intros ni s2 _. destruct ni as [ni|]; [|nf].
  apply nofuel_bind; [nf|]. intros ? s3 _. apply nofuel_bind; [nf|]. intros ? s4 _.
  apply nofuel_bind; [apply parse_member_nofuel; lia|]. intros v1 s5 H1.
  destruct v1 as [p1|]; [|nf].
  apply parse_member_mono in H1.
  apply IH; lia.
Qed.

Lemma parse_array_nofuel item s : nofuel (parse_array mem pv item v0 s).
Proof.
  unfold parse_array. apply nofuel_bind; [nf|]. intros c s1 Hc. apply peek_lt in Hc.
  destruct (negb (c =? ch_lbracket)); [nf|].
  apply nofuel_bind; [nf|]. intros ? s2 _.
  apply nofuel_bind; [nf|]. intros v1 s3 H1. apply skip_pos in H1 as (p1 & -> & Hp1).
  apply nofuel_bind; [nf|]. intros p s4 Hd. apply ret_inv in Hd as [-> _].
  apply nofuel_bind; [nf|]. intros c1 s5 _.
  destruct (c1 =? ch_rbracket); [nf|].
  apply nofuel_bind; [nf|]. intros ch s6 _. apply nofuel_bind; [nf|]. intros ? s7 _.
  destruct ch as [ch|]; [|nf].
  apply nofuel_bind; [nf|]. intros v2 s8 H2. apply skip_pos in H2 as (p2 & -> & Hp2).
  apply (nofuel_pv_then_skip ch p2
           (fun v => match v with
                     | Some value =>
                         r <- parse_array_loop mem pv (S (length mem)) ch value ;;
                         match r with
                         | Some value =>
                             c <- peek mem value ;;
                             (if c =? ch_rbracket then ret (Some (S value))
                              else set_ep (Some value) ;;; ret None)
                         | None => ret None
                         end
                     | None => ret None
                     end)).
  - lia.
  - intros p3 s' Hp3. apply nofuel_bind; [apply parse_array_loop_nofuel; lia|].
    intros r s9 _. nf.
  - intros s'. nf.
Qed.

Lemma parse_object_nofuel item s : nofuel (parse_object mem pv item v0 s).
Proof.
  unfold parse_object. apply nofuel_bind; [nf|]. intros c s1 Hc. apply peek_lt in Hc.
  destruct (negb (c =? ch_lbrace)); [nf|].
  apply nofuel_bind; [nf|]. intros ? s2 _.
  apply nofuel_bind; [nf|]. intros v1 s3 H1. apply skip_pos in H1 as (p1 & -> & Hp1).
  apply nofuel_bind; [nf|]. intros p s4 Hd. apply ret_inv in Hd as [-> _].
  apply nofuel_bind; [nf|]. intros c1 s5 _.
  destruct (c1 =? ch_rbrace); [nf|].
  apply nofuel_bind; [nf|]. intros ch s6 _. apply nofuel_bind; [nf|]. intros ? s7 _.
  destruct ch as [ch|]; [|nf].
  apply nofuel_bind; [apply parse_member_nofuel; lia|]. intros v2 s8 H2.
  destruct v2 as [p2|]; [|nf].
  apply parse_member_mono in H2.
  apply nofuel_bind; [apply parse_object_loop_nofuel; lia|]. intros r s9 _. nf.
Qed.
End DescentTermination.

Lemma parse_value_mono fuel : forall item v s r s',
  parse_value pow mem fuel item (Some v) s = Ok (Some r) s' -> (v <= r)%nat.
Proof.
  induction fuel as [|fuel IH]; intros item v s r s' H; [discriminate|].
  cbn [parse_value] in H.
  apply bind_inv in H as (b & s1 & _ & H). destruct b.
  { apply bind_inv in H as (? & ? & _ & H). apply ret_inv in H as [[= ->] _]. lia. }
  apply bind_inv in H as (b & s2 & _ & H). destruct b.
  { apply bind_inv in H as (? & ? & _ & H). apply ret_inv in H as [[= ->] _]. lia. }
  apply bind_inv in H as (b & s3 & _ & H). destruct b.
  { apply bind_inv in H as (? & ? & _ & H). apply bind_inv in H as (? & ? & _ & H).
    apply ret_inv in H as [[= ->] _]. lia. }
  apply bind_inv in H as (c & s4 & _ & H).
  destruct (c =? ch_quote); [by apply parse_string_mono in H|].
  destruct ((c =? ch_minus) || is_digit c); [by apply parse_number_mono in H|].
  destruct (c =? ch_lbracket); [by eapply parse_array_mono in H|].
  destruct (c =? ch_lbrace); [by eapply parse_object_mono in H|].
  apply bind_inv in H as (? & ? & _ & H). by apply ret_inv in H as [? _].
Qed.

Lemma parse_value_nofuel fuel : forall item v s,
  (v <= length mem)%nat -> (length mem < fuel + v)%nat ->
  nofuel (parse_value pow mem fuel item (Some v) s).
Proof.
  induction fuel as [|fuel IH]; intros item v s Hv Hf; [lia|].
  cbn [parse_value].
  apply nofuel_bind; [nf|]. intros b s1 _. destruct b; [nf|].
  apply nofuel_bind; [nf|]. intros b s2 _. destruct b; [nf|].
  apply nofuel_bind; [nf|]. intros b s3 _. destruct b; [nf|].
  apply nofuel_bind; [nf|]. intros c s4 _.
  destruct (c =? ch_quote); [nf|].
  destruct ((c =? ch_minus) || is_digit c); [nf|].
  destruct (c =? ch_lbracket).
  { apply parse_array_nofuel; [apply parse_value_mono|]. intros; apply IH; lia. }
  destruct (c =? ch_lbrace).
  { apply parse_object_nofuel; [apply parse_value_mono|]. intros; apply IH; lia. }
  nf.
Qed.

Lemma parse_with_length_nofuel value len s :
  nofuel (cJSON_ParseWithLength pow mem value len s).
Proof.
  unfold cJSON_ParseWithLength. destruct value as [p|]; [|nf].
  destruct (len =? 0); [nf|].
  apply nofuel_bind; [nf|]. intros c s1 Hal. destruct c as [c|]; [|nf].
  apply nofuel_bind; [nf|]. intros ? s2 Hep.
  apply nofuel_bind; [nf|]. intros v s3 Hsk.
  pose proof Hsk as Hs3. apply skip_inv in Hs3 as ->.
  apply skip_pos in Hsk as (p1 & -> & Hp1).
  apply nofuel_bind; [apply parse_value_nofuel; lia|]. intros e s4 Hpv.
  destruct e as [e|]; [nf|].
  unfold cJSON_New_Item in Hal.
  apply malloc_inv in Hal as [[? _]|(a0 & [= <-] & Hfresh & Hh1)]; [done|].
  apply set_ep_inv in Hep.
  assert (Ha : heap s2 !! c = Some (Node zero_node)).
  { rewrite Hep, Hh1. apply lookup_insert_eq. }
  pose proof (parse_value_spec _ _ _ _ _ _ _ _ _ Hpv Ha) as Hpost.
  eapply node_post_tree in Hpost; [| exact Ha | reflexivity | reflexivity | by repeat split].
  destruct Hpost as (D & its & Hrep & _).
  apply nofuel_bind; [|intros; nf].
  rewrite (cJSON_Delete_chain _ _ _ _ _ Hrep). apply nofuel_ok.
Qed.
End Termination.

Lemma nofuel_strlen_loop l : forall n s, nofuel (strlen_loop l n s).
Proof. induction l as [|c l IH]; intros n s; simpl; nf. Qed.

(** X20.  The parser terminates on every input: each nested call of
    [parse_value], each round of a loop and each step of the string decoder
    starts at a later character, so the fuel, one more than the length of
    the text, is never exhausted. *)
Theorem parser_never_exhausts_its_fuel pow mem value len s :
  cJSON_ParseWithLength pow mem value len s <> Fault OutOfFuel /\
  cJSON_Parse pow mem value s <> Fault OutOfFuel.
Proof.
  split.
  - intros H. by apply (parse_with_length_nofuel pow mem value len s OutOfFuel).
  - assert (Hn : nofuel (cJSON_Parse pow mem value s)).
    { unfold cJSON_Parse. apply nofuel_bind.
      - destruct value; [apply nofuel_strlen_loop|apply nofuel_ok].
      - intros. apply parse_with_length_nofuel. }
    intros H. by apply (Hn OutOfFuel).
Qed.

(** ** Looking a member up by its key *)

Lemma strcmp_zero_iff l1 : forall l2,
  Forall (fun c => c <> 0) l1 -> Forall (fun c => c <> 0) l2 ->
  strcmp l1 l2 = 0 <-> l1 = l2.
Proof.
  induction l1 as [|c1 l1 IH]; intros l2 H1 H2.
  - destruct l2 as [|c2 l2]; [done|]. simpl. inversion H2; subst. split; [lia|done].
  - inversion H1 as [|? ? Hc1 H1']; subst. destruct l2 as [|c2 l2]; simpl.
    + split; [lia|done].
    + inversion H2 as [|? ? Hc2 H2']; subst.
      destruct (Z.eqb_spec c1 c2) as [->|Hne].
      * rewrite IH by done. split; [by intros ->|by intros [= ->]].
      * split; [lia|by intros [= ? _]].
Qed.

Lemma cstr_nonzero l : Forall (fun c => c <> 0) (cstr l).
Proof.
  induction l as [|c l IH]; simpl; [constructor|].
  destruct (Z.eqb_spec c 0); [constructor|]. by constructor.
Qed.

Lemma unlink_string c : string (unlink c) = string c.
Proof. by destruct c. Qed.

Lemma find_member_cs_first i : forall items D pv p s fuel str a c Da k cap chars,
  chain_rep (heap s) D pv p items -> (length items < fuel)%nat ->
  Forall (fun c => c <> 0) str ->
  items !! i = Some (a, c, Da) -> string c = Some k ->
  heap s !! k = Some (Chars cap chars) -> cstr chars = str ->
  (forall j aj cj Dj, (j < i)%nat -> items !! j = Some (aj, cj, Dj) ->
     exists kj capj charsj, string cj = Some kj /\
       heap s !! kj = Some (Chars capj charsj) /\ cstr charsj <> str) ->
  find_member_cs fuel p (Some str) s = Ok (Some a) s.
Proof.
  induction i as [|i IH];
    intros items D pv p s fuel str a c Da k cap chars Hrep Hf Hstr Hi Hk Hh Heq Hbefore.
  - destruct items as [|it items]; [done|]. injection Hi as ->.
    pose proof (chain_rep_head _ _ _ _ _ Hrep) as Hp. simpl in Hp. subst p.
    apply chain_cons_inv in Hrep as (c0 & Da' & Dr & [= -> ->] & -> & Ha & _).
    destruct fuel as [|fuel]; [simpl in Hf; lia|]. cbn [find_member_cs].
    rewrite (bind_ok _ _ _ _ _ (load_ok _ _ _ Ha)).
    rewrite unlink_string in Hk. rewrite Hk.
    rewrite (bind_ok _ _ _ _ _ (load_cstr_ok _ _ _ _ Hh)).
    replace (strcmp (cstr chars) str =? 0) with true; [done|].
    symmetry. apply Z.eqb_eq. apply strcmp_zero_iff; [apply cstr_nonzero|done|done].
  - destruct items as [|[[b cb] Db] items]; [done|]. simpl in Hi.
    pose proof (chain_rep_head _ _ _ _ _ Hrep) as Hp. simpl in Hp. subst p.
    apply chain_cons_inv in Hrep
      as (c0 & Da' & Dr & [= -> ->] & -> & Hb & _ & _ & Hrest & _).
    destruct fuel as [|fuel]; [simpl in Hf; lia|]. cbn [find_member_cs].
    rewrite (bind_ok _ _ _ _ _ (load_ok _ _ _ Hb)).
    destruct (Hbefore O b (unlink c0) Da' ltac:(lia) eq_refl)
      as (kb & capb & charsb & Hkb & Hhb & Hneq).
    rewrite unlink_string in Hkb. rewrite Hkb.
    rewrite (bind_ok _ _ _ _ _ (load_cstr_ok _ _ _ _ Hhb)).
    replace (strcmp (cstr charsb) str =? 0) with false; cycle 1.
    { symmetry. apply Z.eqb_neq. intros E. apply Hneq.
      apply strcmp_zero_iff in E; [done|apply cstr_nonzero|done]. }
    eapply (IH items Dr (Some b) (next c0) s fuel str a c Da k cap chars); try done.
    + simpl in Hf. lia.
    + intros j aj cj Dj Hj Hij. apply (Hbefore (S j) aj cj Dj); [lia|done].
Qed.

(** X21.  [cJSON_GetObjectItemCaseSensitive] returns the first member
    whose key is the string asked for. *)
Theorem get_object_item_finds_first_match s o A D items str i a c Da k cap chars :
  heap s !! o = Some (Node A) ->
  chain_rep (heap s) D None (child A) items ->
  Forall (fun c => c <> 0) str ->
  items !! i = Some (a, c, Da) -> string c = Some k ->
  heap s !! k = Some (Chars cap chars) -> cstr chars = str ->
  (forall j aj cj Dj, (j < i)%nat -> items !! j = Some (aj, cj, Dj) ->
     exists kj capj charsj, string cj = Some kj /\
       heap s !! kj = Some (Chars capj charsj) /\ cstr charsj <> str) ->
  cJSON_GetObjectItemCaseSensitive (Some o) (Some str) s = Ok (Some a) s.
Proof.
  intros Ho Hrep Hstr Hi Hk Hh Heq Hbefore. unfold cJSON_GetObjectItemCaseSensitive.
  rewrite (bind_ok _ _ _ _ _ (load_ok _ _ _ Ho)).
  rewrite (bind_ok get_heap _ s (heap s) s) by done.
  eapply find_member_cs_first; try done. by eapply chain_fuel.
Qed.

(** X22.  A configuration file that cannot be read, or that does not
    parse, leaves the configuration as it is, and the heap as well. *)
Theorem invalid_config_is_ignored pow content cfg server_name s s' :
  cJSON_ParseWithLength pow (content ++ [0]) (Some O) (Z.of_nat (length content)) s
    = Ok None s' ->
  parse_config pow (Some content) cfg server_name s = Ok cfg s' /\
  parse_config pow None cfg server_name s = Ok cfg s /\
  heap s' = heap s.
Proof.
  intros H. split; [|split].
  - unfold parse_config. by rewrite (bind_ok _ _ _ _ _ H).
  - reflexivity.
  - by eapply parse_with_length_failure.
Qed.

Lemma invalid_config_witness :
  parse_config pow_ref (Some [ch_lbrace]) blank_config None empty_state
    = Ok blank_config (mkState ∅ (Some 1%nat) []) /\
  parse_config pow_ref None blank_config None empty_state = Ok blank_config empty_state /\
  heap (mkState ∅ (Some 1%nat) []) = heap empty_state.
Proof.
  apply (invalid_config_is_ignored pow_ref [ch_lbrace] blank_config None empty_state
           (mkState ∅ (Some 1%nat) [])).
  vm_compute. reflexivity.
Defined.

(** X23.  A configuration file whose top level is an array that is not
    empty makes [parse_config] dereference [NULL]: the lookup of a key
    compares it with the key of the first child, which has none. *)
Theorem array_config_dereferences_null pow cfg server_name :
  parse_config pow (Some (bytes_of_string "[true]")) cfg (Some server_name) empty_state
    = Fault BadPointer /\
  parse_config pow (Some (bytes_of_string "[true]")) cfg None empty_state
    = Fault BadPointer.
Proof. split; vm_compute; reflexivity. Qed.

Lemma config_tree_parsed :
  cJSON_Parse pow_ref (config_text ++ [0]) (Some O) empty_state
  = Ok (Some 1%positive) config_tree.
Proof. vm_compute. reflexivity. Qed.

Lemma config_tree_chain :
  chain_rep (heap config_tree) ({[2%positive]} ∪ ({[3%positive]} ∪ {[4%positive]} ∪ ∅) ∪ ∅)
    None (Some 2%positive)
    [(2%positive, unlink config_member, {[3%positive]} ∪ {[4%positive]} ∪ ∅)].
Proof.
  eapply (chain_own _ None 2%positive config_member).
  - reflexivity.
  - reflexivity.
  - reflexivity.
  - split; [reflexivity|]. by exists 15, lit_default_server.
  - split; [reflexivity|]. by exists 2, [117].
  - apply chain_nil.
  - apply chain_nil.
  - set_solver.
  - set_solver.
  - set_solver.
  - set_solver.
Qed.

Lemma get_object_item_witness :
  cJSON_GetObjectItemCaseSensitive (Some 1%positive) (Some lit_default_server) config_tree
  = Ok (Some 2%positive) config_tree.
Proof.
  apply (get_object_item_finds_first_match config_tree 1%positive
           (mkJSON None None (Some 2%positive) cJSON_Object None 0 d_zero None)
           ({[2%positive]} ∪ ({[3%positive]} ∪ {[4%positive]} ∪ ∅) ∪ ∅)
           [(2%positive, unlink config_member, {[3%positive]} ∪ {[4%positive]} ∪ ∅)]
           lit_default_server O 2%positive (unlink config_member)
           ({[3%positive]} ∪ {[4%positive]} ∪ ∅) 3%positive 15 lit_default_server).
  - reflexivity.
  - exact config_tree_chain.
  - repeat constructor; discriminate.
  - reflexivity.
  - reflexivity.
  - reflexivity.
  - reflexivity.
  - intros j aj cj Dj Hj. lia.
Defined.

(** ** Literals and surrogates *)

Lemma match_lit_prefix mem lit : forall p s,
  (forall i c, lit !! i = Some c -> mem !! (p + i)%nat = Some c) ->
  match_lit mem lit p s = Ok true s.
Proof.
  induction lit as [|x lit IH]; intros p s H; [done|]. cbn [match_lit].
  pose proof (H O x eq_refl) as H0. rewrite Nat.add_0_r in H0.
  rewrite (bind_ok _ _ _ _ _ (peek_ok _ _ _ s H0)). rewrite Z.eqb_refl.
  apply IH. intros i c Hi. replace (S p + i)%nat with (p + S i)%nat by lia. by apply H.
Qed.

(** X24.  A text that begins with [true] parses as the literal, whatever
    follows it: the node has type [cJSON_True] and integer field 1, and
    nothing after the fourth character is read. *)
Theorem true_prefix_parses pow rest len s :
  len <> 0 -> oracle s = [] ->
  exists a,
    (a ∉ dom (heap s)) /\
    cJSON_ParseWithLength pow (lit_true ++ rest) (Some O) len s
    = Ok (Some a)
        (mkState (<[a := Node (set_valueint 1 (set_type cJSON_True zero_node))]> (heap s))
           None []).
Proof.
  intros Hlen Ho. unfold cJSON_ParseWithLength.
  apply Z.eqb_neq in Hlen as ->.
  destruct (New_Item_ok s Ho) as (a & Ha & Ealloc). exists a. split; [done|].
  rewrite (bind_ok _ _ _ _ _ Ealloc). set (s1 := mkState _ _ _).
  rewrite (bind_ok (set_ep None) _ s1 tt (mkState (heap s1) None (oracle s1))) by done.
  set (s2 := mkState _ _ _). set (mem := lit_true ++ rest).
  assert (H0 : mem !! O = Some 116) by reflexivity.
  rewrite (bind_ok _ _ _ _ _ (skip_stop mem _ _ s2 H0 ltac:(done))).
  assert (Epv : parse_value pow mem (S (length mem)) a (Some O) s2
                = Ok (Some 4%nat)
                    (mkState (<[a := Node (set_valueint 1 (set_type cJSON_True zero_node))]>
                                (heap s)) None [])).
  { cbn [parse_value].
    rewrite (bind_ok (match_lit mem lit_null O) _ _ _ _
               (match_lit_mismatch mem 110 _ _ _ s2 H0 ltac:(lia))).
    rewrite (bind_ok (match_lit mem lit_false O) _ _ _ _
               (match_lit_mismatch mem 102 _ _ _ s2 H0 ltac:(lia))).
    rewrite (bind_ok _ _ _ _ _ (match_lit_prefix mem lit_true O s2
               ltac:(intros i c Hi; unfold mem; cbn [Nat.add]; by apply lookup_app_l_Some))).
    unfold s2, s1. cbn [heap ep oracle].
    rewrite (bind_ok _ _ _ _ _ (modify_insert _ _ _ _ _ _)).
    rewrite (bind_ok _ _ _ _ _ (modify_insert _ _ _ _ _ _)). reflexivity. }
  rewrite (bind_ok _ _ _ _ _ Epv). reflexivity.
Qed.

Lemma true_prefix_witness :
  exists a,
    (a ∉ dom (heap empty_state)) /\
    cJSON_ParseWithLength pow_ref (lit_true ++ [120; 121]) (Some O) 4 empty_state
    = Ok (Some a)
        (mkState (<[a := Node (set_valueint 1 (set_type cJSON_True zero_node))]>
                    (heap empty_state)) None []).
Proof.
  apply (true_prefix_parses pow_ref [120; 121] 4 empty_state); [lia|reflexivity].
Defined.

Section Surrogates.
Variable mem : list Z.

Lemma string_decode_low_surrogate n : forall fuel cap ptr acc s p uc r s',
  (forall i, (i < n)%nat -> exists c, mem !! (ptr + i)%nat = Some c /\
     c <> ch_quote /\ c <> 0 /\ c <> ch_backslash) ->
  mem !! (ptr + n)%nat = Some ch_backslash ->
  mem !! (S (ptr + n))%nat = Some 117 ->
  (forall s0, parse_hex4 mem (S (S (ptr + n))) s0 = Ok (Some (p, uc)) s0) ->
  56320 <= uc <= 57343 ->
  string_decode mem fuel cap ptr acc s <> Ok (Some r) s'.
Proof.
  induction n as [|n IH]; intros fuel cap ptr acc s p uc r s' Hpre Hb Hu Hhex Huc H;
    (destruct fuel as [|fuel]; [discriminate|]); cbn [string_decode] in H.
  - rewrite Nat.add_0_r in *.
    rewrite (bind_ok _ _ _ _ _ (peek_ok _ _ _ s Hb)) in H.
    change (negb (ch_backslash =? ch_quote) && negb (ch_backslash =? 0)) with true in H.
    change (negb (ch_backslash =? ch_backslash)) with false in H. cbv iota zeta in H.
    rewrite (bind_ok _ _ _ _ _ (peek_ok _ _ _ s Hu)) in H.
    change (117 =? 98) with false in H. change (117 =? 102) with false in H.
    change (117 =? 110) with false in H. change (117 =? 114) with false in H.
    change (117 =? 116) with false in H. change (117 =? 117) with true in H.
    cbv iota in H.
    assert (Eu : parse_unicode mem (S ptr) s = Ok None s).
    { unfold parse_unicode. rewrite (bind_ok _ _ _ _ _ (Hhex s)).
      replace ((56320 <=? uc) && (uc <=? 57343)) with true; [done|].
      symmetry. apply andb_true_iff. split; apply Z.leb_le; lia. }
    rewrite (bind_ok _ _ _ _ _ Eu) in H. discriminate H.
  - destruct (Hpre O ltac:(lia)) as (c & Hc & Hq & Hz & Hbs). rewrite Nat.add_0_r in Hc.
    rewrite (bind_ok _ _ _ _ _ (peek_ok _ _ _ s Hc)) in H.
    apply Z.eqb_neq in Hq, Hz, Hbs. rewrite Hq, Hz, Hbs in H. cbn [negb andb] in H.
    apply bind_inv in H as (d & s1 & _ & H).
    eapply (IH fuel cap (S ptr) d s1 p uc r s'); try done.
    + intros i Hi. destruct (Hpre (S i) ltac:(lia)) as (c' & Hc' & ?).
      exists c'. split; [|done]. rewrite <- Hc'. f_equal. lia.
    + rewrite <- Hb. f_equal. lia.
    + rewrite <- Hu. f_equal. lia.
    + intros s0. rewrite <- (Hhex s0). f_equal. lia.
Qed.

(** X25.  A string literal in which, after plain characters, the first
    escape is a [u] escape of a low surrogate (DC00 to DFFF) is never
    accepted by [parse_string]. *)
Theorem lone_low_surrogate_is_rejected item str n p uc s r s' :
  (forall i, (i < n)%nat -> exists c, mem !! (S str + i)%nat = Some c /\
     c <> ch_quote /\ c <> 0 /\ c <> ch_backslash) ->
  mem !! (S str + n)%nat = Some ch_backslash ->
  mem !! (S (S str + n))%nat = Some 117 ->
  (forall s0, parse_hex4 mem (S (S (S str + n))) s0 = Ok (Some (p, uc)) s0) ->
  56320 <= uc <= 57343 ->
  parse_string mem item str s <> Ok (Some r) s'.
Proof.
  intros Hpre Hb Hu Hhex Huc H. unfold parse_string in H.
  apply bind_inv in H as (c & s1 & _ & H).
  destruct (negb (c =? ch_quote)).
  { apply bind_inv in H as (? & ? & _ & H). by apply ret_inv in H as [? _]. }
  apply bind_inv in H as ([[p1 c1] len] & s2 & _ & H).
  destruct (c1 =? 0).
  { apply bind_inv in H as (? & ? & _ & H). by apply ret_inv in H as [? _]. }
  apply bind_inv in H as (cap & s3 & _ & H).
  apply bind_inv in H as (out & s4 & _ & H).
  destruct out as [out|]; [|by apply ret_inv in H as [? _]].
  apply bind_inv in H as (rd & s5 & Hd & H).
  destruct rd as [[ptr chars]|].
  - by eapply string_decode_low_surrogate in Hd.
  - apply bind_inv in H as (? & ? & _ & H). by apply ret_inv in H as [? _].
Qed.
End Surrogates.

Lemma lone_low_surrogate_witness :
  parse_string (string_literal ([97] ++ unicode_escape "dc00")) 1%positive O
    (mkState {[1%positive := Node zero_node]} None [])
  <> Ok (Some 9%nat) empty_state.
Proof.
  apply (lone_low_surrogate_is_rejected (string_literal ([97] ++ unicode_escape "dc00"))
           1%positive O 1 8%nat 56320).
  - intros i Hi. exists 97. destruct i as [|i]; [|lia]. split_and!; done.
  - reflexivity.
  - reflexivity.
  - intros s0. reflexivity.
  - lia.
Defined.

(** ** Adding a member to an object *)

Lemma last_sibling_inv fuel : forall a s r s', last_sibling fuel a s = Ok r s' -> s' = s.
Proof.
  induction fuel as [|fuel IH]; intros a s r s' H; [discriminate|]. cbn [last_sibling] in H.
  apply bind_inv in H as (n & s1 & H1 & H). apply load_inv in H1 as [-> _].
  destruct (next n); [by eapply IH|]. by apply ret_inv in H as [_ ->].
Qed.

Lemma modify_keeps_chars a f s r s' x cap chars :
  modify a f s = Ok r s' -> heap s !! x = Some (Chars cap chars) ->
  heap s' !! x = Some (Chars cap chars).
Proof.
  intros H Hx. apply modify_inv in H as (c & Ha & ->).
  rewrite lookup_insert_ne; [done|]. intros ->. congruence.
Qed.

Lemma add_item_keeps_chars arr it s r s' x cap chars :
  cJSON_AddItemToArray arr it s = Ok r s' -> heap s !! x = Some (Chars cap chars) ->
  heap s' !! x = Some (Chars cap chars).
Proof.
  unfold cJSON_AddItemToArray. intros H Hx.
  apply bind_inv in H as (a & s1 & H1 & H). apply load_inv in H1 as [-> _].
  destruct (child a) as [c|]; [|by eapply modify_keeps_chars].
  apply bind_inv in H as (h & s1 & H1 & H). injection H1 as _ <-.
  apply bind_inv in H as (l & s1 & H1 & H). apply last_sibling_inv in H1 as ->.
  apply bind_inv in H as (u & s1 & H1 & H).
  eapply modify_keeps_chars; [exact H|]. by eapply modify_keeps_chars.
Qed.

Lemma owns_with_key h h' k cap chars Di c :
  owns h Di c -> string c = None -> k ∉ dom h ->
  h' !! k = Some (Chars cap chars) ->
  (forall x, x ∈ Di -> h' !! x = h !! x) ->
  owns h' ({[k]} ∪ Di) (set_string (Some k) c).
Proof.
  intros Ho Hs Hk Hk' Hag. pose proof (owns_dom _ _ _ Ho) as Hdom.
  destruct Ho as [[Hr Hstr]|[Hr (Dk & Dv & Dc & kids & -> & Hstr & Hvs & Hch & Hd1 & Hd2)]];
    rewrite Hs in Hstr; simpl in Hstr; subst.
  - left. split; [done|]. simpl. split; [set_solver|eauto].
  - right. split; [done|]. exists {[k]}, Dv, Dc, kids. simpl.
    split; [set_solver|]. split; [split; [done|eauto]|].
    split; [eapply str_rep_frame; [done|]; intros; apply Hag; set_solver|].
    split; [eapply chain_rep_frame; [done|]; intros; apply Hag; set_solver|].
    set_solver.
Qed.

(** X26.  [cJSON_AddItemToObject] copies the key into a fresh buffer
    that the item owns and appends the item to the members; a lookup of
    that key with [cJSON_GetObjectItemCaseSensitive] then returns the item,
    provided that no former member has the same key. *)
Theorem add_to_object_then_get s o A D items it c Di key :
  heap s !! o = Some (Node A) ->
  chain_rep (heap s) D None (child A) items -> o ∉ D ->
  heap s !! it = Some (Node c) -> next c = None -> prev c = None -> string c = None ->
  owns (heap s) Di c ->
  it <> o -> it ∉ D -> it ∉ Di -> o ∉ Di -> Di ## D ->
  oracle s = [] ->
  Forall (fun x => x <> 0) key ->
  (forall j aj cj Dj, items !! j = Some (aj, cj, Dj) ->
     exists kj capj charsj, string cj = Some kj /\
       heap s !! kj = Some (Chars capj charsj) /\ cstr charsj <> key) ->
  exists s' first k,
    cJSON_AddItemToObject o (Some key) it s = Ok tt s' /\
    (k ∉ dom (heap s)) /\ dom (heap s') = {[k]} ∪ dom (heap s) /\
    heap s' !! k = Some (Chars (Z.of_nat (length key) + 1) key) /\
    chain_rep (heap s') (D ∪ ({[it]} ∪ ({[k]} ∪ Di))) None (Some first)
      (items ++ [(it, unlink (set_string (Some k) c), {[k]} ∪ Di)]) /\
    cJSON_GetObjectItemCaseSensitive (Some o) (Some key) s' = Ok (Some it) s'.
Proof.
  intros Ho Hrep HoD Hit Hnc Hpc Hsc Hoc Hne HitD HitDi HoDi HDi Hor Hkey Hothers.
  unfold cJSON_AddItemToObject, cJSON_strdup.
  set (k := fresh (dom (heap s))).
  assert (Hk : k ∉ dom (heap s)) by apply is_fresh.
  set (blk := Chars (Z.of_nat (length key) + 1) key).
  assert (Em : cJSON_malloc blk s = Ok (Some k) (mkState (<[k := blk]> (heap s)) (ep s) [])).
  { unfold cJSON_malloc. by rewrite Hor. }
  rewrite (bind_ok _ _ _ _ _ Em).
  assert (Hkit : k <> it) by (intros ->; apply Hk, elem_of_dom; eauto).
  assert (Hko : k <> o) by (intros ->; apply Hk, elem_of_dom; eauto).
  pose proof (chain_rep_dom _ _ _ _ _ Hrep) as HDdom.
  pose proof (owns_dom _ _ _ Hoc) as HDidom.
  assert (Emod : modify it (set_string (Some k)) (mkState (<[k := blk]> (heap s)) (ep s) [])
                 = Ok tt (mkState (<[it := Node (set_string (Some k) c)]>
                                     (<[k := blk]> (heap s))) (ep s) [])).
  { rewrite (modify_ok it _ c); [done|]. cbn [heap]. by rewrite lookup_insert_ne. }
  rewrite (bind_ok _ _ _ _ _ Emod). set (s1 := mkState _ _ _).
  assert (Hfr : forall x, x <> it -> x <> k -> heap s1 !! x = heap s !! x).
  { intros x ? ?. unfold s1. cbn [heap]. by rewrite !lookup_insert_ne. }
  assert (Hk1 : heap s1 !! k = Some blk).
  { unfold s1. cbn [heap]. rewrite lookup_insert_ne by done. apply lookup_insert_eq. }
  destruct (add_item_chain s1 o A D items it (set_string (Some k) c) ({[k]} ∪ Di))
    as (s' & first & Eadd & Hep & Hor' & Hdom & Ho' & Hrep'); try done.
  - rewrite Hfr; done.
  - eapply chain_rep_frame; [exact Hrep|]. intros x Hx. apply Hfr; set_solver.
  - unfold s1. cbn [heap]. apply lookup_insert_eq.
  - eapply owns_with_key; try done. intros x Hx. apply Hfr; set_solver.
  - set_solver.
  - set_solver.
  - set_solver.
  - exists s', first, k. rewrite Eadd. split; [done|]. split; [done|].
    split.
    { rewrite Hdom. unfold s1. cbn [heap]. rewrite !dom_insert_L.
      assert (it ∈ dom (heap s)) by (apply elem_of_dom; eauto). set_solver. }
    assert (Hk' : heap s' !! k = Some blk) by (eapply add_item_keeps_chars; done).
    split; [done|]. split; [done|].
    unfold cJSON_GetObjectItemCaseSensitive.
    rewrite (bind_ok _ _ _ _ _ (load_ok _ _ _ Ho')).
    rewrite (bind_ok get_heap _ s' (heap s') s') by done.
    change (child (set_child (Some first) A)) with (Some first).
    eapply (find_member_cs_first (length items) _ _ None (Some first) s' _ key it
              (unlink (set_string (Some k) c)) ({[k]} ∪ Di) k _ key); try done.
    + pose proof (chain_fuel _ _ _ _ _ Hrep') as Hfuel. exact Hfuel.
    + by apply list_lookup_middle.
    + by apply cstr_no_nul.
    + intros j aj cj Dj Hj Hlk. rewrite lookup_app_l in Hlk by done.
      destruct (Hothers j aj cj Dj Hlk) as (kj & capj & charsj & Hs & Hh & Hc).
      exists kj, capj, charsj. split; [done|]. split; [|done].
      eapply add_item_keeps_chars; [exact Eadd|]. rewrite Hfr; [done| |].
      * intros ->. congruence.
      * intros ->. apply Hk, elem_of_dom. eauto.
Qed.

Lemma config_and_item_chain :
  chain_rep (heap config_and_item)
    ({[2%positive]} ∪ ({[3%positive]} ∪ {[4%positive]} ∪ ∅) ∪ ∅)
    None (Some 2%positive)
    [(2%positive, unlink config_member, {[3%positive]} ∪ {[4%positive]} ∪ ∅)].
Proof.
  eapply chain_rep_frame; [exact config_tree_chain|].
  intros a Ha. unfold config_and_item. cbn [heap]. apply lookup_insert_ne. set_solver.
Qed.

Lemma add_to_object_witness :
  exists s' first k,
    cJSON_AddItemToObject 1%positive (Some [117; 114; 108]) 5%positive config_and_item
      = Ok tt s' /\
    (k ∉ dom (heap config_and_item)) /\
    dom (heap s') = {[k]} ∪ dom (heap config_and_item) /\
    heap s' !! k = Some (Chars (Z.of_nat (length [117; 114; 108]) + 1) [117; 114; 108]) /\
    chain_rep (heap s')
      ({[2%positive]} ∪ ({[3%positive]} ∪ {[4%positive]} ∪ ∅) ∪ ∅
       ∪ ({[5%positive]} ∪ ({[k]} ∪ ∅))) None (Some first)
      ([(2%positive, unlink config_member, {[3%positive]} ∪ {[4%positive]} ∪ ∅)]
       ++ [(5%positive, unlink (set_string (Some k) (num_node None None 4)), {[k]} ∪ ∅)]) /\
    cJSON_GetObjectItemCaseSensitive (Some 1%positive) (Some [117; 114; 108]) s'
      = Ok (Some 5%positive) s'.
Proof.
  apply (add_to_object_then_get config_and_item 1%positive
           (mkJSON None None (Some 2%positive) cJSON_Object None 0 d_zero None)
           ({[2%positive]} ∪ ({[3%positive]} ∪ {[4%positive]} ∪ ∅) ∪ ∅)
           [(2%positive, unlink config_member, {[3%positive]} ∪ {[4%positive]} ∪ ∅)]
           5%positive (num_node None None 4) ∅ [117; 114; 108]).
  - reflexivity.
  - exact config_and_item_chain.
  - set_solver.
  - reflexivity.
  - reflexivity.
  - reflexivity.
  - reflexivity.
  - apply lone_number_owns_nothing.
  - done.
  - set_solver.
  - set_solver.
  - set_solver.
  - set_solver.
  - reflexivity.
  - repeat constructor; discriminate.
  - intros j aj cj Dj Hj. destruct j as [|j]; [|done]. injection Hj as <- <- <-.
    exists 3%positive, 15, lit_default_server. split; [reflexivity|].
    split; [reflexivity|]. vm_compute. discriminate.
Defined.

(** ** Printing an integer and parsing it back *)

Lemma uint_digits_range d : Forall (fun x => 0 <= x <= 9) (uint_digits d).
Proof. induction d; simpl; constructor; (lia || done). Qed.

Lemma uint_digits_chars d :
  bytes_of_string (NilEmpty.string_of_uint d) = digit_chars (uint_digits d).
Proof. induction d; simpl; [done|..]; by f_equal. Qed.

Lemma decimal_of_uint_acc d : forall acc,
  decimal (Z.pos acc) (uint_digits d) = Z.pos (Pos.of_uint_acc d acc).
Proof.
  induction d; intros acc; cbn [uint_digits Pos.of_uint_acc]; [done|..];
    change (decimal (Z.pos acc) (?x :: ?l)) with (decimal (Z.pos acc * 10 + x) l);
    rewrite <- IHd; f_equal; lia.
Qed.

Lemma decimal_of_uint d : decimal 0 (uint_digits d) = Z.of_N (Pos.of_uint d).
Proof.
  induction d; cbn [uint_digits Pos.of_uint]; [done|exact IHd|..];
    change (decimal 0 (?x :: ?l)) with (decimal x l);
    cbn [Z.of_N]; rewrite <- decimal_of_uint_acc; reflexivity.
Qed.

Lemma unorm_shape d :
  match uint_digits (Decimal.unorm d) with
  | [] => False
  | [x] => True
  | x :: _ => 1 <= x
  end.
Proof.
  induction d; simpl; [done|exact IHd|..]; destruct (uint_digits d); (exact I || lia).
Qed.

Lemma to_uint_decimal p : is_decimal (uint_digits (Pos.to_uint p)) = true.
Proof.
  unfold is_decimal. apply andb_true_iff. split.
  - apply forallb_forall. intros x Hx.
    pose proof (uint_digits_range (Pos.to_uint p)) as Hall.
    rewrite List.Forall_forall in Hall. specialize (Hall x Hx).
    apply andb_true_iff. split; apply Z.leb_le; lia.
  - pose proof (unorm_shape (Pos.to_uint p)) as H.
    assert (E : Decimal.unorm (Pos.to_uint p) = Pos.to_uint p).
    { rewrite <- DecimalPos.Unsigned.to_of. by rewrite DecimalPos.Unsigned.of_to. }
    rewrite E in H. destruct (uint_digits (Pos.to_uint p)) as [|x [|y l]]; [done|done|].
    by apply Z.leb_le.
Qed.

Lemma to_uint_value p : decimal 0 (uint_digits (Pos.to_uint p)) = Z.pos p.
Proof. rewrite decimal_of_uint. by rewrite DecimalPos.Unsigned.of_to. Qed.

(** What [%d] writes is an integer literal of JSON. *)
Lemma sprintf_d_literal i :
  exists neg ds,
    sprintf_d i = int_literal neg ds /\ is_decimal ds = true /\ int_value neg ds = i.
Proof.
  destruct i as [|p|p].
  - exists false, [0]. done.
  - exists false, (uint_digits (Pos.to_uint p)). split; [|split].
    + unfold sprintf_d, int_literal. cbn [Z.to_int NilZero.string_of_int app].
      unfold NilZero.string_of_uint.
      pose proof (DecimalPos.Unsigned.to_uint_nonnil p).
      destruct (Pos.to_uint p) eqn:E; try done; rewrite <- E; apply uint_digits_chars.
    + apply to_uint_decimal.
    + apply to_uint_value.
  - exists true, (uint_digits (Pos.to_uint p)). split; [|split].
    + unfold sprintf_d, int_literal. cbn [Z.to_int NilZero.string_of_int app].
      unfold NilZero.string_of_uint.
      pose proof (DecimalPos.Unsigned.to_uint_nonnil p).
      cbn [bytes_of_string]. apply (f_equal (cons ch_minus)).
      destruct (Pos.to_uint p) eqn:E; try done; rewrite <- E; apply uint_digits_chars.
    + apply to_uint_decimal.
    + unfold int_value. rewrite to_uint_value. done.
Qed.

Lemma decimal_lower ds : forall acc,
  Forall (fun d => 0 <= d <= 9) ds -> 0 <= acc ->
  acc * 10 ^ Z.of_nat (length ds) <= decimal acc ds.
Proof.
  induction ds as [|d ds IH]; intros acc Hall Hacc; [simpl; lia|].
  inversion Hall as [|? ? Hd Hall']; subst.
  change (decimal acc (d :: ds)) with (decimal (acc * 10 + d) ds).
  specialize (IH (acc * 10 + d) Hall' ltac:(lia)).
  replace (Z.of_nat (length (d :: ds))) with (Z.succ (Z.of_nat (length ds)))
    by (simpl; lia).
  rewrite Z.pow_succ_r by lia.
  assert (0 <= 10 ^ Z.of_nat (length ds)) by (apply Z.pow_nonneg; lia). nia.
Qed.

Lemma int_literal_short neg ds :
  is_decimal ds = true -> in_int_range (int_value neg ds) = true ->
  Z.of_nat (length (int_literal neg ds)) < 32.
Proof.
  intros Hdec Hr. destruct (is_decimal_inv ds Hdec) as (Hall & d & ds' & -> & Hshape).
  inversion Hall as [|? ? Hd Hall']; subst.
  assert (Hlen : (length ds' < 10)%nat).
  { destruct Hshape as [->|Hd1]; [simpl; lia|].
    destruct (Nat.lt_ge_cases (length ds') 10) as [|Hge]; [done|exfalso].
    pose proof (decimal_lower ds' d Hall' ltac:(lia)) as Hlow.
    assert (10 ^ 10 <= 10 ^ Z.of_nat (length ds')) by (apply Z.pow_le_mono_r; lia).
    change (decimal 0 (d :: ds')) with (decimal d ds') in *.
    unfold in_int_range, int_value, INT_MIN, INT_MAX in Hr.
    change (decimal 0 (d :: ds')) with (decimal d ds') in Hr.
    apply andb_true_iff in Hr as [Hr1 Hr2]. apply Z.leb_le in Hr1, Hr2.
    assert (10 ^ 10 <= decimal d ds') by nia.
    change (10 ^ 10) with 10000000000 in *. destruct neg; lia. }
  unfold int_literal, digit_chars. rewrite length_app, length_map.
  destruct neg; simpl; lia.
Qed.

(** [cJSON_ParseWithLength] on an integer literal. *)
Lemma parse_with_length_int pow neg ds rest len s :
  pow d_ten (double_of_int 0) = double_of_int 1 ->
  is_decimal ds = true ->
  in_int_range (int_value neg ds) = true ->
  len <> 0 -> oracle s = [] ->
  exists a c s',
    cJSON_ParseWithLength pow (int_literal neg ds ++ 0 :: rest) (Some O) len s
      = Ok (Some a) s' /\
    (a ∉ dom (heap s)) /\
    heap s' = <[a := Node c]> (heap s) /\
    type c = cJSON_Number /\
    valueint c = int_value neg ds /\
    (int_value neg ds <> 0 -> valuedouble c = double_of_int (int_value neg ds)).
Proof.
  intros Hpow Hdec Hr Hlen Ho. set (mem := int_literal neg ds ++ 0 :: rest).
  destruct (int_literal_first neg ds rest Hdec) as (c0 & H0 & Hc0). fold mem in H0.
  unfold cJSON_ParseWithLength. apply Z.eqb_neq in Hlen as ->.
  destruct (New_Item_ok s Ho) as (a & Ha & Ealloc).
  rewrite (bind_ok _ _ _ _ _ Ealloc). set (s1 := mkState _ _ _).
  rewrite (bind_ok (set_ep None) _ s1 tt (mkState (heap s1) None (oracle s1))) by done.
  set (s2 := mkState _ _ _).
  rewrite (bind_ok _ _ _ _ _
             (skip_stop _ _ _ s2 H0 ltac:(apply orb_true_iff; right; apply Z.ltb_lt; lia))).
  destruct (parse_number_int pow mem Hpow a O neg ds 0 rest zero_node s2)
    as (x & E & Hx1 & Hx2); try done.
  { apply lookup_insert_eq. }
  assert (Epv : parse_value pow mem (S (length mem)) a (Some O) s2
                = parse_number pow mem a O s2).
  { clear E. cbn [parse_value].
    rewrite (bind_ok (match_lit mem lit_null O) _ _ _ _
               (match_lit_mismatch mem 110 _ _ _ s2 H0 ltac:(lia))).
    rewrite (bind_ok (match_lit mem lit_false O) _ _ _ _
               (match_lit_mismatch mem 102 _ _ _ s2 H0 ltac:(lia))).
    rewrite (bind_ok (match_lit mem lit_true O) _ _ _ _
               (match_lit_mismatch mem 116 _ _ _ s2 H0 ltac:(lia))).
    rewrite (bind_ok _ _ _ _ _ (peek_ok _ _ _ s2 H0)).
    replace (c0 =? ch_quote) with false by (symmetry; apply Z.eqb_neq; unfold ch_quote; lia).
    assert ((c0 =? ch_minus) || is_digit c0 = true) as ->; [|done].
    unfold is_digit, ch_minus, ch_0, ch_9. destruct (Z.eqb_spec c0 45); [done|].
    apply andb_true_iff. split; apply Z.leb_le; try lia.
    destruct (is_decimal_inv ds Hdec) as (Hall & d & ds' & -> & _).
    inversion Hall; subst. destruct neg; simpl in H0; injection H0 as <-;
      unfold ch_minus, ch_0 in *; lia. }
  rewrite E in Epv. rewrite (bind_ok _ _ _ _ _ Epv). unfold ret.
  eexists a, _, _. split; [reflexivity|]. unfold s2, s1. cbn [heap].
  split; [done|]. split; [by rewrite insert_insert_eq|]. split_and!; done.
Qed.

(** X27.  Printing a number whose double is the exact conversion of its
    integer field, and parsing the text printed, gives a number with the
    same integer field (and, unless it is zero, the same double), given
    [pow (10, 0) = 1]. *)
Theorem printed_integer_parses_back pow sprintf_f s item n rest :
  pow d_ten (double_of_int 0) = double_of_int 1 ->
  heap s !! item = Some (Node n) ->
  Z.land (type n) 255 = cJSON_Number ->
  valuedouble n = double_of_int (valueint n) ->
  in_int_range (valueint n) = true ->
  oracle s = [] ->
  exists o t s1 a c s2,
    cJSON_PrintUnformatted sprintf_f item s = Ok (Some o) s1 /\
    heap s1 = <[o := Chars 32 t]> (heap s) /\ (o ∉ dom (heap s)) /\
    cJSON_Parse pow (t ++ 0 :: rest) (Some O) s1 = Ok (Some a) s2 /\
    heap s2 = <[a := Node c]> (heap s1) /\ (a ∉ dom (heap s1)) /\
    type c = cJSON_Number /\ valueint c = valueint n /\
    (valueint n <> 0 -> valuedouble c = valuedouble n).
Proof.
  intros Hpow Hitem Hty Hd Hr Ho.
  destruct (sprintf_d_literal (valueint n)) as (neg & ds & Et & Hdec & Hv).
  assert (Hshort : Z.of_nat (length (sprintf_d (valueint n))) < 32).
  { rewrite Et. apply int_literal_short; [done|by rewrite Hv]. }
  destruct (print_number_integral sprintf_f s item n Hitem Hd Hr Hshort Ho)
    as (o & Hfresh & Eprint).
  set (s1 := mkState _ _ _) in Eprint.
  assert (Ep : cJSON_PrintUnformatted sprintf_f item s = Ok (Some o) s1).
  { unfold cJSON_PrintUnformatted. rewrite (bind_ok get_heap _ s (heap s) s) by done.
    cbn [print_value]. rewrite (bind_ok _ _ _ _ _ (load_ok _ _ _ Hitem)).
    rewrite Hty. exact Eprint. }
  destruct (int_literal_nonzero neg ds Hdec) as [Hnz Hlen].
  destruct (parse_with_length_int pow neg ds rest
              (Z.of_nat (length (int_literal neg ds))) s1 Hpow Hdec)
    as (a & c & s2 & Eparse & Ha & Hh & Htc & Hvc & Hdc); [by rewrite Hv|lia|done|].
  exists o, (sprintf_d (valueint n)), s1, a, c, s2.
  split; [done|]. split; [done|]. split; [done|]. split.
  { unfold cJSON_Parse. rewrite Et.
    assert (Elen : strlen_loop (drop 0 (int_literal neg ds ++ 0 :: rest)) 0 s1
                   = Ok (Z.of_nat (length (int_literal neg ds))) s1).
    { rewrite drop_0. by rewrite strlen_loop_ok. }
    by rewrite (bind_ok _ _ _ _ _ Elen). }
  split; [done|]. split; [done|]. split; [done|]. split; [congruence|].
  intros Hne. rewrite Hd, <- Hv. apply Hdc. by rewrite Hv.
Qed.

Lemma printed_integer_witness :
  exists o t s1 a c s2,
    cJSON_PrintUnformatted (fun _ => []) 3%positive array_of_three = Ok (Some o) s1 /\
    heap s1 = <[o := Chars 32 t]> (heap array_of_three) /\
    (o ∉ dom (heap array_of_three)) /\
    cJSON_Parse pow_ref (t ++ 0 :: []) (Some O) s1 = Ok (Some a) s2 /\
    heap s2 = <[a := Node c]> (heap s1) /\ (a ∉ dom (heap s1)) /\
    type c = cJSON_Number /\
    valueint c = valueint (num_node (Some 4%positive) (Some 2%positive) 2) /\
    (valueint (num_node (Some 4%positive) (Some 2%positive) 2) <> 0 ->
     valuedouble c = valuedouble (num_node (Some 4%positive) (Some 2%positive) 2)).
Proof.
  apply (printed_integer_parses_back pow_ref (fun _ => []) array_of_three 3%positive
           (num_node (Some 4%positive) (Some 2%positive) 2) []); reflexivity.
Defined.

(** ** Printing into a buffer of the caller *)

(** X28.  [cJSON_PrintPreallocated] releases the text it printed in
    every case.  If the text and its NUL do not fit in [len] bytes it
    returns 0 and leaves the buffer as it was; if they fit in [len] and in
    the buffer it returns 1 and the buffer holds the text; if [len] is
    more than the buffer has and the text does not fit, the copy overruns
    the buffer. *)
Theorem print_preallocated_copies_or_refuses
    sprintf_f s item buffer len format o s1 capo chars cap old :
  (if format =? 0 then cJSON_PrintUnformatted sprintf_f item
   else cJSON_Print sprintf_f item) s = Ok (Some o) s1 ->
  heap s1 !! o = Some (Chars capo chars) ->
  heap s1 !! buffer = Some (Chars cap old) -> buffer <> o ->
  let t := cstr chars in
  (len < Z.of_nat (length t) + 1 ->
   cJSON_PrintPreallocated sprintf_f item buffer len format s
   = Ok 0 (mkState (delete o (heap s1)) (ep s1) (oracle s1))) /\
  (Z.of_nat (length t) + 1 <= len -> Z.of_nat (length t) + 1 <= cap ->
   cJSON_PrintPreallocated sprintf_f item buffer len format s
   = Ok 1 (mkState (delete o (<[buffer := Chars cap t]> (heap s1))) (ep s1) (oracle s1))) /\
  (Z.of_nat (length t) + 1 <= len -> cap < Z.of_nat (length t) + 1 ->
   cJSON_PrintPreallocated sprintf_f item buffer len format s = Fault BufferOverflow).
Proof.
  intros Hp Ho Hb Hne t.
  assert (Et : text_of (Some o) s1 = Ok t s1).
  { unfold text_of. by rewrite (bind_ok _ _ _ _ _ (load_cstr_ok _ _ _ _ Ho)). }
  split; [|split].
  - intros Hl. unfold cJSON_PrintPreallocated.
    rewrite (bind_ok _ _ _ _ _ Hp), (bind_ok _ _ _ _ _ Et).
    apply Z.ltb_lt in Hl as ->. unfold cJSON_free, bind. by rewrite Ho.
  - intros Hl Hc. unfold cJSON_PrintPreallocated.
    rewrite (bind_ok _ _ _ _ _ Hp), (bind_ok _ _ _ _ _ Et).
    apply Z.ltb_ge in Hl as ->.
    rewrite (bind_ok get_heap _ s1 (heap s1) s1) by done. rewrite Hb.
    assert (Ef : fill buffer cap t s1
                 = Ok tt (mkState (<[buffer := Chars cap t]> (heap s1)) (ep s1) (oracle s1))).
    { unfold fill. rewrite (bind_ok _ _ _ _ _ (emit1 cap t 0 s1 ltac:(lia))).
      unfold store_chars. by rewrite Hb. }
    rewrite (bind_ok _ _ _ _ _ Ef). unfold cJSON_free, bind. cbn [heap ep oracle].
    rewrite lookup_insert_ne by done. by rewrite Ho.
  - intros Hl Hc. unfold cJSON_PrintPreallocated.
    rewrite (bind_ok _ _ _ _ _ Hp), (bind_ok _ _ _ _ _ Et).
    apply Z.ltb_ge in Hl as ->.
    rewrite (bind_ok get_heap _ s1 (heap s1) s1) by done. rewrite Hb.
    unfold fill, bind at 1 2.
    rewrite (emit_overflow cap t [0] s1); [done|]. rewrite Nat2Z.inj_add. simpl. lia.
Qed.

Lemma print_preallocated_witness :
  let t := cstr lit_true in
  (8 < Z.of_nat (length t) + 1 ->
   cJSON_PrintPreallocated (fun _ => []) 1%positive 2%positive 8 0 literal_and_buffer
   = Ok 0 (mkState (delete 3%positive
                      (<[3%positive := Chars 5 lit_true]> (heap literal_and_buffer)))
             None [])) /\
  (Z.of_nat (length t) + 1 <= 8 -> Z.of_nat (length t) + 1 <= 8 ->
   cJSON_PrintPreallocated (fun _ => []) 1%positive 2%positive 8 0 literal_and_buffer
   = Ok 1 (mkState (delete 3%positive
                      (<[2%positive := Chars 8 t]>
                         (<[3%positive := Chars 5 lit_true]> (heap literal_and_buffer))))
             None [])) /\
  (Z.of_nat (length t) + 1 <= 8 -> 8 < Z.of_nat (length t) + 1 ->
   cJSON_PrintPreallocated (fun _ => []) 1%positive 2%positive 8 0 literal_and_buffer
   = Fault BufferOverflow).
Proof.
  refine (print_preallocated_copies_or_refuses (fun _ => []) literal_and_buffer
            1%positive 2%positive 8 0 3%positive
            (mkState (<[3%positive := Chars 5 lit_true]> (heap literal_and_buffer)) None [])
            5 lit_true 8 [] _ _ _ _).
  - vm_compute. reflexivity.
  - reflexivity.
  - reflexivity.
  - done.
Defined.

(** ** Looking a member up without regard to case *)

Lemma load_cstr_None s : load_cstr None s = Ok None s.
Proof. reflexivity. Qed.

Lemma find_member_first i : forall items D pv p s fuel str a c Da k cap chars,
  chain_rep (heap s) D pv p items -> (length items < fuel)%nat ->
  Forall (fun c => 0 < c) str ->
  items !! i = Some (a, c, Da) -> string c = Some k ->
  heap s !! k = Some (Chars cap chars) -> Forall (fun c => 0 < c) (cstr chars) ->
  map tolower (cstr chars) = map tolower str ->
  (forall j aj cj Dj, (j < i)%nat -> items !! j = Some (aj, cj, Dj) ->
     string cj = None \/
     exists kj capj charsj, string cj = Some kj /\
       heap s !! kj = Some (Chars capj charsj) /\ Forall (fun c => 0 < c) (cstr charsj) /\
       map tolower (cstr charsj) <> map tolower str) ->
  find_member fuel p (Some str) s = Ok (Some a) s.
Proof.
  induction i as [|i IH];
    intros items D pv p s fuel str a c Da k cap chars Hrep Hf Hstr Hi Hk Hh Hpos Heq Hbefore.
  - destruct items as [|it items]; [done|]. injection Hi as ->.
    pose proof (chain_rep_head _ _ _ _ _ Hrep) as Hp. simpl in Hp. subst p.
    apply chain_cons_inv in Hrep as (c0 & Da' & Dr & [= -> ->] & -> & Ha & _).
    destruct fuel as [|fuel]; [simpl in Hf; lia|]. cbn [find_member].
    rewrite (bind_ok _ _ _ _ _ (load_ok _ _ _ Ha)).
    rewrite unlink_string in Hk. rewrite Hk.
    rewrite (bind_ok _ _ _ _ _ (load_cstr_ok _ _ _ _ Hh)).
    replace (cJSON_strcasecmp (Some (cstr chars)) (Some str) =? 0) with true; [done|].
    symmetry. apply Z.eqb_eq. by apply strcasecmp_zero.
  - destruct items as [|[[b cb] Db] items]; [done|]. simpl in Hi.
    pose proof (chain_rep_head _ _ _ _ _ Hrep) as Hp. simpl in Hp. subst p.
    apply chain_cons_inv in Hrep
      as (c0 & Da' & Dr & [= -> ->] & -> & Hb & _ & _ & Hrest & _).
    destruct fuel as [|fuel]; [simpl in Hf; lia|]. cbn [find_member].
    rewrite (bind_ok _ _ _ _ _ (load_ok _ _ _ Hb)).
    assert (Hnext : find_member fuel (next c0) (Some str) s = Ok (Some a) s).
    { eapply (IH items Dr (Some b) (next c0) s fuel str a c Da k cap chars); try done.
      + simpl in Hf. lia.
      + intros j aj cj Dj Hj Hij. apply (Hbefore (S j) aj cj Dj); [lia|done]. }
    destruct (Hbefore O b (unlink c0) Da' ltac:(lia) eq_refl)
      as [Hnone|(kb & capb & charsb & Hkb & Hhb & Hposb & Hneq)].
    + rewrite unlink_string in Hnone. rewrite Hnone.
      rewrite (bind_ok _ _ _ _ _ (load_cstr_None s)). exact Hnext.
    + rewrite unlink_string in Hkb. rewrite Hkb.
      rewrite (bind_ok _ _ _ _ _ (load_cstr_ok _ _ _ _ Hhb)).
      replace (cJSON_strcasecmp (Some (cstr charsb)) (Some str) =? 0) with false; [done|].
      symmetry. apply Z.eqb_neq. intros E. apply Hneq. by apply strcasecmp_zero in E.
Qed.

(** X29.  [cJSON_GetObjectItem] returns the first member whose key is
    the string asked for up to the case of letters; members without a key
    are passed over. *)
Theorem get_object_item_ignores_case s o A D items str i a c Da k cap chars :
  heap s !! o = Some (Node A) ->
  chain_rep (heap s) D None (child A) items ->
  Forall (fun c => 0 < c) str ->
  items !! i = Some (a, c, Da) -> string c = Some k ->
  heap s !! k = Some (Chars cap chars) -> Forall (fun c => 0 < c) (cstr chars) ->
  map tolower (cstr chars) = map tolower str ->
  (forall j aj cj Dj, (j < i)%nat -> items !! j = Some (aj, cj, Dj) ->
     string cj = None \/
     exists kj capj charsj, string cj = Some kj /\
       heap s !! kj = Some (Chars capj charsj) /\ Forall (fun c => 0 < c) (cstr charsj) /\
       map tolower (cstr charsj) <> map tolower str) ->
  cJSON_GetObjectItem (Some o) (Some str) s = Ok (Some a) s.
Proof.
  intros Ho Hrep Hstr Hi Hk Hh Hpos Heq Hbefore. unfold cJSON_GetObjectItem.
  rewrite (bind_ok _ _ _ _ _ (load_ok _ _ _ Ho)).
  rewrite (bind_ok get_heap _ s (heap s) s) by done.
  eapply find_member_first; try done. by eapply chain_fuel.
Qed.

Lemma get_object_item_ignores_case_witness :
  cJSON_GetObjectItem (Some 1%positive) (Some (bytes_of_string "Default_Server"))
    config_tree
  = Ok (Some 2%positive) config_tree.
Proof.
  apply (get_object_item_ignores_case config_tree 1%positive
           (mkJSON None None (Some 2%positive) cJSON_Object None 0 d_zero None)
           ({[2%positive]} ∪ ({[3%positive]} ∪ {[4%positive]} ∪ ∅) ∪ ∅)
           [(2%positive, unlink config_member, {[3%positive]} ∪ {[4%positive]} ∪ ∅)]
           (bytes_of_string "Default_Server") O 2%positive (unlink config_member)
           ({[3%positive]} ∪ {[4%positive]} ∪ ∅) 3%positive 15 lit_default_server).
  - reflexivity.
  - exact config_tree_chain.
  - repeat constructor.
  - reflexivity.
  - reflexivity.
  - reflexivity.
  - repeat constructor.
  - reflexivity.
  - intros j aj cj Dj Hj. lia.
Defined.

